(** * Voice-agent relay: a shallow embedding of [backend/main.py] and
      [backend/gemini_live.py]

    The relay bridges a websocket client, an upstream realtime session and a
    tool backend.  The embedding keeps the code's own shapes:

    - Python values are a small dynamic value type ([pyval]); attribute
      probing ([getattr]), truthiness and [isinstance] tests are functions on
      it, so every branch the source takes on a loosely typed response has a
      counterpart here;
    - a [str] is its sequence of code points, a [bytes] a list of bytes;
    - the coroutines are written in a state-and-exception monad over the
      contents of the outbound [asyncio.Queue] and a chronological trace of
      the calls that leave the process (queue operations, tool backend calls,
      upstream sends, websocket sends, upstream connects);
    - the standard-library codecs the source calls ([base64], [json]) are
      written out, so that the wire encoding can be run and reasoned about. *)

From Stdlib Require Import List NArith ZArith Bool String Ascii Lia.
From Stdlib.Strings Require Import Byte.
From Stdlib Require DecimalFacts DecimalPos DecimalN DecimalZ.
Import ListNotations.

Set Implicit Arguments.

(* ===================================================================== *)
(** * Python values *)
(* ===================================================================== *)

Module Py.

(** A [str] is a sequence of Unicode code points. *)
Definition pystr := list N.

(** The code points of an ASCII literal of the source. *)
Definition lit (s : string) : pystr := map N_of_ascii (list_ascii_of_string s).

Fixpoint str_eqb (a b : pystr) : bool :=
  match a, b with
  | [], [] => true
  | x :: a', y :: b' => N.eqb x y && str_eqb a' b'
  | _, _ => false
  end.

(** Dynamic values.  [PFloat] keeps the decimal literal a float was read
    from (the value of [float(literal)]); [PObj] is an object seen through
    its attributes, which is all the source ever does with the SDK's response
    objects. *)
Unset Elimination Schemes.
Inductive pyval :=
| PNone
| PBool (b : bool)
| PInt (z : Z)
| PFloat (literal : pystr)
| PStr (s : pystr)
| PBytes (b : list byte)
| PList (l : list pyval)
| PDict (d : list (pystr * pyval))
| PObj (attrs : list (pystr * pyval)).
Set Elimination Schemes.

(** Lookup in a dict or in an attribute table. *)
Fixpoint assoc (k : pystr) (d : list (pystr * pyval)) : option pyval :=
  match d with
  | [] => None
  | (k', v) :: d' => if str_eqb k k' then Some v else assoc k d'
  end.

(** [d[k] = v]: an existing key keeps its position, a new one goes last. *)
Fixpoint dict_set (d : list (pystr * pyval)) (k : pystr) (v : pyval)
  : list (pystr * pyval) :=
  match d with
  | [] => [(k, v)]
  | (k', v') :: d' =>
      if str_eqb k k' then (k', v) :: d' else (k', v') :: dict_set d' k v
  end.

(** [dict(pairs)] *)
Definition dict_of_pairs (pairs : list (pystr * pyval)) : list (pystr * pyval) :=
  fold_left (fun d kv => dict_set d (fst kv) (snd kv)) pairs [].

(** [getattr(o, name, default)] *)
Definition getattr (o : pyval) (name : string) (default : pyval) : pyval :=
  match o with
  | PObj attrs =>
      match assoc (lit name) attrs with
      | Some v => v
      | None => default
      end
  | _ => default
  end.

(** The value of the leading decimal digits of [s], after [acc], and what
    follows them. *)
Fixpoint digits_value (acc : Z) (s : pystr) : Z * pystr :=
  match s with
  | c :: s' =>
      if ((48 <=? c) && (c <=? 57))%N then
        digits_value (acc * 10 + Z.of_N (c - 48)) s'
      else (acc, s)
  | [] => (acc, [])
  end.

(** [float(literal) == 0.0] for a JSON number literal with mantissa digits
    [m], [k] of them after the dot, and exponent [x]: the mantissa is zero,
    or [m * 10 ** (x - k)] is at most [2 ** -1075] and rounds to zero.
    [NaN] and the infinities are not zero. *)
Definition float_is_zero (literal : pystr) : bool :=
  let s := match literal with
           | c :: s' => if (c =? 45)%N then s' else literal
           | [] => literal
           end in
  let (m1, r1) := digits_value 0 s in
  let '(m, k, r2) :=
    match r1 with
    | c :: r' =>
        if (c =? 46)%N then
          let (m2, r'') := digits_value m1 r' in
          (m2, Z.of_nat (List.length r' - List.length r''), r'')
        else (m1, 0%Z, r1)
    | [] => (m1, 0%Z, r1)
    end in
  let x :=
    match r2 with
    | e :: r' =>
        if ((e =? 101) || (e =? 69))%N then
          match r' with
          | c :: ds =>
              if (c =? 45)%N then (- fst (digits_value 0 ds))%Z
              else if (c =? 43)%N then fst (digits_value 0 ds)
              else fst (digits_value 0 r')
          | [] => 0%Z
          end
        else 0%Z
    | [] => 0%Z
    end in
  match s with
  | c :: _ =>
      if ((48 <=? c) && (c <=? 57))%N then
        ((m =? 0) || ((x - k <? 0) && (m * 2 ^ 1075 <=? 10 ^ (k - x))))%Z
      else false
  | [] => false
  end.

(** [bool(v)] *)
Definition truthy (v : pyval) : bool :=
  match v with
  | PNone => false
  | PBool b => b
  | PInt z => negb (Z.eqb z 0)
  | PFloat literal => negb (float_is_zero literal)
  | PStr s => negb (Nat.eqb (List.length s) 0)
  | PBytes b => negb (Nat.eqb (List.length b) 0)
  | PList l => negb (Nat.eqb (List.length l) 0)
  | PDict d => negb (Nat.eqb (List.length d) 0)
  | PObj _ => true
  end.

(** [a or b] *)
Definition py_or (a b : pyval) : pyval := if truthy a then a else b.

Definition isinstance_str (v : pyval) : bool :=
  match v with PStr _ => true | _ => false end.

Definition isinstance_dict (v : pyval) : bool :=
  match v with PDict _ => true | _ => false end.

Definition isinstance_list (v : pyval) : bool :=
  match v with PList _ => true | _ => false end.

(** The elements a [for] loop (and [len]) sees; [None] is the [TypeError]
    of a value that is not iterable. *)
Definition py_iter (v : pyval) : option (list pyval) :=
  match v with
  | PList l => Some l
  | PStr s => Some (map (fun c => PStr [c]) s)
  | PBytes b => Some (map (fun x => PInt (Z.of_N (Byte.to_N x))) b)
  | PDict d => Some (map (fun kv => PStr (fst kv)) d)
  | _ => None
  end.

(** [str.isspace] for one code point (the Unicode White_Space set that
    [str.strip()] removes). *)
Definition isspace (c : N) : bool :=
  ((9 <=? c) && (c <=? 13) || (28 <=? c) && (c <=? 32) || (c =? 133)
   || (c =? 160) || (c =? 5760) || (8192 <=? c) && (c <=? 8202)
   || (c =? 8232) || (c =? 8233) || (c =? 8239) || (c =? 8287)
   || (c =? 12288))%N.

Fixpoint lstrip (s : pystr) : pystr :=
  match s with
  | c :: s' => if isspace c then lstrip s' else s
  | [] => []
  end.

(** [s.strip()] *)
Definition strip (s : pystr) : pystr := rev (lstrip (rev (lstrip s))).

(** [s.rstrip()] *)
Definition rstrip (s : pystr) : pystr := rev (lstrip (rev s)).

(** [sep.join(items)] *)
Fixpoint join (sep : pystr) (items : list pystr) : pystr :=
  match items with
  | [] => []
  | [x] => x
  | x :: rest => x ++ sep ++ join sep rest
  end.

End Py.
Import Py.

(* ===================================================================== *)
(** * [base64]: the codec behind [b64e] and [b64d] *)
(* ===================================================================== *)

Module Base64.

(** A value stored into an [unsigned char]. *)
Definition byte_of_N (n : N) : byte :=
  match Byte.of_N (n mod 256) with
  | Some b => b
  | None => "000"%byte
  end.

(** [table_b2a_base64]: the RFC 4648 alphabet. *)
Definition table_b2a (v : N) : byte :=
  byte_of_N
    (if v <? 26 then v + 65
     else if v <? 52 then v - 26 + 97
     else if v <? 62 then v - 52 + 48
     else if v =? 62 then 43
     else 47)%N.

(** [table_a2b_base64]: [None] for the bytes outside the alphabet. *)
Definition table_a2b (c : byte) : option N :=
  let n := Byte.to_N c in
  (if (65 <=? n) && (n <=? 90) then Some (n - 65)
   else if (97 <=? n) && (n <=? 122) then Some (n - 97 + 26)
   else if (48 <=? n) && (n <=? 57) then Some (n - 48 + 52)
   else if n =? 43 then Some 62
   else if n =? 47 then Some 63
   else None)%N.

Definition BASE64_PAD : byte := "="%byte.

(** [binascii.b2a_base64(data, newline=False)], three bytes at a time. *)
Fixpoint b2a_base64 (bin_data : list byte) : list byte :=
  match bin_data with
  | [] => []
  | [x0] =>
      let b0 := Byte.to_N x0 in
      [ table_b2a (N.shiftr b0 2);
        table_b2a (N.shiftl (N.land b0 3) 4);
        BASE64_PAD; BASE64_PAD ]
  | [x0; x1] =>
      let b0 := Byte.to_N x0 in
      let b1 := Byte.to_N x1 in
      [ table_b2a (N.shiftr b0 2);
        table_b2a (N.lor (N.shiftl (N.land b0 3) 4) (N.shiftr b1 4));
        table_b2a (N.shiftl (N.land b1 15) 2);
        BASE64_PAD ]
  | x0 :: x1 :: x2 :: rest =>
      let b0 := Byte.to_N x0 in
      let b1 := Byte.to_N x1 in
      let b2 := Byte.to_N x2 in
      table_b2a (N.shiftr b0 2)
      :: table_b2a (N.lor (N.shiftl (N.land b0 3) 4) (N.shiftr b1 4))
      :: table_b2a (N.lor (N.shiftl (N.land b1 15) 2) (N.shiftr b2 6))
      :: table_b2a (N.land b2 63)
      :: b2a_base64 rest
  end.

(** [binascii.a2b_base64(data)] in its default, non-strict mode, as
    CPython 3.11 and later run it: bytes outside the alphabet are skipped,
    a complete pad sequence ends the decoding, and a quad left open at the
    end of the input is the [binascii.Error] ([None]). *)
Fixpoint a2b_loop (ascii_data : list byte) (quad_pos : nat) (leftchar : N)
    (pads : nat) (bin_data : list byte) : option (list byte) :=
  match ascii_data with
  | [] => if Nat.eqb quad_pos 0 then Some bin_data else None
  | this_ch :: rest =>
      if Byte.eqb this_ch BASE64_PAD then
        if Nat.leb 2 quad_pos then
          if Nat.leb 4 (quad_pos + S pads) then Some bin_data
          else a2b_loop rest quad_pos leftchar (S pads) bin_data
        else a2b_loop rest quad_pos leftchar pads bin_data
      else
        match table_a2b this_ch with
        | None => a2b_loop rest quad_pos leftchar pads bin_data
        | Some v =>
            match quad_pos with
            | 0 => a2b_loop rest 1 v 0 bin_data
            | 1 =>
                a2b_loop rest 2 (N.land v 15) 0
                  (bin_data ++ [byte_of_N (N.lor (N.shiftl leftchar 2) (N.shiftr v 4))])
            | 2 =>
                a2b_loop rest 3 (N.land v 3) 0
                  (bin_data ++ [byte_of_N (N.lor (N.shiftl leftchar 4) (N.shiftr v 2))])
            | _ =>
                a2b_loop rest 0 0%N 0
                  (bin_data ++ [byte_of_N (N.lor (N.shiftl leftchar 6) v)])
            end
        end
  end.

Definition a2b_base64 (ascii_data : list byte) : option (list byte) :=
  a2b_loop ascii_data 0 0%N 0 [].

(** [base64.b64encode(b)] and [base64.b64decode(s)] with their defaults. *)
Definition b64encode (b : list byte) : list byte := b2a_base64 b.
Definition b64decode (s : list byte) : option (list byte) := a2b_base64 s.

(** [bytes.decode("ascii")]: [None] is the [UnicodeDecodeError]. *)
Fixpoint decode_ascii (b : list byte) : option pystr :=
  match b with
  | [] => Some []
  | x :: b' =>
      if (Byte.to_N x <? 128)%N then
        match decode_ascii b' with
        | Some s => Some (Byte.to_N x :: s)
        | None => None
        end
      else None
  end.

(** [str.encode("ascii")]: [None] is the [UnicodeEncodeError]. *)
Fixpoint encode_ascii (s : pystr) : option (list byte) :=
  match s with
  | [] => Some []
  | c :: s' =>
      if (c <? 128)%N then
        match encode_ascii s' with
        | Some b => Some (byte_of_N c :: b)
        | None => None
        end
      else None
  end.

End Base64.

(** [b64e] and [b64d] of both modules ([main.py] 46-51, [gemini_live.py]
    21-26); [None] stands for the exception the call raises. *)
Definition b64e (b : list byte) : option pystr :=
  Base64.decode_ascii (Base64.b64encode b).

Definition b64d (s : pystr) : option (list byte) :=
  match Base64.encode_ascii s with
  | Some raw => Base64.b64decode raw
  | None => None
  end.

(* ===================================================================== *)
(** * [json]: the codec behind [send_json] and [recv_json] *)
(* ===================================================================== *)

Module Json.

Notation "x <- a ;; b" :=
  (match a with Some x => b | None => None end)
  (at level 61, a at next level, right associativity, only parsing).

Notation "' ( x , y ) <- a ;; b" :=
  (match a with Some (x, y) => b | None => None end)
  (at level 61, x name, y name, a at next level, right associativity,
   only parsing).

Local Open Scope N_scope.

Definition QUOTE : N := 34.
Definition BACKSLASH : N := 92.

(** ** Encoder: [json.dumps(obj, ensure_ascii=False)] *)

Definition hex_digit (d : N) : N := if d <? 10 then 48 + d else 87 + d.

(** [ESCAPE_DCT]: what one character of a string becomes. *)
Definition escape_char (c : N) : pystr :=
  if c =? BACKSLASH then [BACKSLASH; BACKSLASH]
  else if c =? QUOTE then [BACKSLASH; QUOTE]
  else if c =? 8 then lit "\b"
  else if c =? 12 then lit "\f"
  else if c =? 10 then lit "\n"
  else if c =? 13 then lit "\r"
  else if c =? 9 then lit "\t"
  else if c <? 32 then lit "\u00" ++ [hex_digit (c / 16); hex_digit (c mod 16)]
  else [c].

(** [encode_basestring] *)
Definition encode_basestring (s : pystr) : pystr :=
  QUOTE :: flat_map escape_char s ++ [QUOTE].

Fixpoint uint_chars (u : Decimal.uint) : pystr :=
  match u with
  | Decimal.Nil => []
  | Decimal.D0 u => 48 :: uint_chars u
  | Decimal.D1 u => 49 :: uint_chars u
  | Decimal.D2 u => 50 :: uint_chars u
  | Decimal.D3 u => 51 :: uint_chars u
  | Decimal.D4 u => 52 :: uint_chars u
  | Decimal.D5 u => 53 :: uint_chars u
  | Decimal.D6 u => 54 :: uint_chars u
  | Decimal.D7 u => 55 :: uint_chars u
  | Decimal.D8 u => 56 :: uint_chars u
  | Decimal.D9 u => 57 :: uint_chars u
  end.

(** [int.__repr__] *)
Definition int_repr (z : Z) : pystr :=
  match Z.to_int z with
  | Decimal.Pos u => uint_chars u
  | Decimal.Neg u => 45 :: uint_chars u
  end.

(** The decimal digits of an [int], without its sign. *)
Definition int_digits (z : Z) : pystr :=
  match Z.to_int z with
  | Decimal.Pos u | Decimal.Neg u => uint_chars u
  end.

(** ** The limits of the interpreter

    [sys.get_int_max_str_digits()]: the conversion between an [int] and
    its decimal digits raises [ValueError] past this many digits, in both
    directions.  The program leaves CPython's default in place. *)
Definition MAX_STR_DIGITS : nat := 4300.

(** [sys.getrecursionlimit()], which the program leaves at CPython's
    default as well.  The encoder and the decoder enter one level of
    recursion per container, and raise [RecursionError] when none is left.
    The frames that are on the stack when the relay calls the codec take
    some of these levels (seven for a call at the top of a script under
    CPython 3.11, more under the server that runs the handler); they are
    not counted here, so the limit is the most that a call can find: a
    nesting that the model refuses, the interpreter refuses under every
    caller, and the two can differ only for nestings within that margin
    below the limit. *)
Definition RECURSION_LIMIT : nat := 1000.

(** What [json.dumps] and [json.loads] raise. *)
Inductive error :=
| TypeError        (* a value that is not JSON serializable *)
| ValueError       (* an [int] of more than [MAX_STR_DIGITS] digits *)
| RecursionError   (* containers nested deeper than the room there is *)
| JSONDecodeError. (* a text that is not JSON *)

Definition error_class (e : error) : string :=
  match e with
  | TypeError => "TypeError"
  | ValueError => "ValueError"
  | RecursionError => "RecursionError"
  | JSONDecodeError => "JSONDecodeError"
  end%string.

Notation "x <~ a ;; b" :=
  (match a with inl x => b | inr e => inr e end)
  (at level 61, a at next level, right associativity, only parsing).

Notation "' ( x , y ) <~ a ;; b" :=
  (match a with inl (x, y) => b | inr e => inr e end)
  (at level 61, x name, y name, a at next level, right associativity,
   only parsing).

(** The C encoder ([c_make_encoder]) with [room] levels of recursion left.
    [TypeError] is what a value that is not JSON serializable raises
    ([bytes], SDK objects); the [repr] of a float is outside this model,
    which answers [TypeError] for it as well: the relay never sends one. *)
Fixpoint dumps (room : nat) (obj : pyval) {struct obj} : pystr + error :=
  match obj with
  | PNone => inl (lit "null")
  | PBool true => inl (lit "true")
  | PBool false => inl (lit "false")
  | PInt z =>
      if (MAX_STR_DIGITS <? List.length (int_digits z))%nat then inr ValueError
      else inl (int_repr z)
  | PStr s => inl (encode_basestring s)
  | PList l =>
      match room with
      | O => inr RecursionError
      | S room' =>
          let fix more (l : list pyval) : pystr + error :=
            match l with
            | [] => inl []
            | x :: l' =>
                sx <~ dumps room' x ;;
                sl <~ more l' ;;
                inl (lit ", " ++ sx ++ sl)
            end in
          match l with
          | [] => inl (lit "[]")
          | x :: l' =>
              sx <~ dumps room' x ;;
              sl <~ more l' ;;
              inl (lit "[" ++ sx ++ sl ++ lit "]")
          end
      end
  | PDict d =>
      match room with
      | O => inr RecursionError
      | S room' =>
          let fix more (d : list (pystr * pyval)) : pystr + error :=
            match d with
            | [] => inl []
            | (k, x) :: d' =>
                sx <~ dumps room' x ;;
                sd <~ more d' ;;
                inl (lit ", " ++ encode_basestring k ++ lit ": " ++ sx ++ sd)
            end in
          match d with
          | [] => inl (lit "{}")
          | (k, x) :: d' =>
              sx <~ dumps room' x ;;
              sd <~ more d' ;;
              inl (lit "{" ++ encode_basestring k ++ lit ": " ++ sx ++ sd
                   ++ lit "}")
          end
      end
  | PFloat _ | PBytes _ | PObj _ => inr TypeError
  end.

(** [json.dumps(obj, ensure_ascii=False)]: the encoding, or [None] when
    the call raises, and then what it raises. *)
Definition json_dumps (obj : pyval) : option pystr :=
  match dumps RECURSION_LIMIT obj with
  | inl encoded => Some encoded
  | inr _ => None
  end.

Definition dumps_failure (obj : pyval) : error :=
  match dumps RECURSION_LIMIT obj with
  | inl _ => TypeError
  | inr e => e
  end.

(** ** Decoder: [json.loads(s)]

    The scanner of CPython's [json.decoder] and [json.scanner] (the C
    [scan_once]), on the input that is left instead of on an index into
    it. *)

Definition is_ws (c : N) : bool :=
  (c =? 32) || (c =? 9) || (c =? 10) || (c =? 13).

Fixpoint skip_ws (s : pystr) : pystr :=
  match s with
  | c :: s' => if is_ws c then skip_ws s' else s
  | [] => []
  end.

Definition is_digit (c : N) : bool := (48 <=? c) && (c <=? 57).

Definition hex_value (c : N) : option N :=
  if (48 <=? c) && (c <=? 57) then Some (c - 48)
  else if (97 <=? c) && (c <=? 102) then Some (c - 87)
  else if (65 <=? c) && (c <=? 70) then Some (c - 55)
  else None.

(** [_decode_uXXXX] on the four characters after the [u]. *)
Definition decode_uXXXX (h1 h2 h3 h4 : N) : option N :=
  a <- hex_value h1 ;;
  b <- hex_value h2 ;;
  c <- hex_value h3 ;;
  d <- hex_value h4 ;;
  Some (((a * 16 + b) * 16 + c) * 16 + d).

(** The [BACKSLASH] table of the decoder. *)
Definition unescape (esc : N) : option N :=
  if esc =? QUOTE then Some QUOTE
  else if esc =? BACKSLASH then Some BACKSLASH
  else if esc =? 47 then Some 47
  else if esc =? 98 then Some 8
  else if esc =? 102 then Some 12
  else if esc =? 110 then Some 10
  else if esc =? 114 then Some 13
  else if esc =? 116 then Some 9
  else None.

(** [scanstring(s, end, strict=True)], from just after the opening quote:
    the decoded string and the input after the closing quote. *)
Fixpoint scanstring (s : pystr) : option (pystr * pystr) :=
  match s with
  | [] => None
  | c :: rest =>
      if c =? QUOTE then Some ([], rest)
      else if c =? BACKSLASH then
        match rest with
        | [] => None
        | esc :: rest1 =>
            if esc =? 117 then
              match rest1 with
              | h1 :: h2 :: h3 :: h4 :: rest2 =>
                  uni <- decode_uXXXX h1 h2 h3 h4 ;;
                  if (55296 <=? uni) && (uni <=? 56319) then
                    match rest2 with
                    | b :: u :: g1 :: g2 :: g3 :: g4 :: rest3 =>
                        if (b =? BACKSLASH) && (u =? 117) then
                          uni2 <- decode_uXXXX g1 g2 g3 g4 ;;
                          if (56320 <=? uni2) && (uni2 <=? 57343) then
                            '(content, r) <- scanstring rest3 ;;
                            Some (65536
                                  + N.lor (N.shiftl (uni - 55296) 10)
                                      (uni2 - 56320) :: content, r)
                          else
                            '(content, r) <- scanstring rest2 ;;
                            Some (uni :: content, r)
                        else
                          '(content, r) <- scanstring rest2 ;;
                          Some (uni :: content, r)
                    | _ =>
                        '(content, r) <- scanstring rest2 ;;
                        Some (uni :: content, r)
                    end
                  else
                    '(content, r) <- scanstring rest2 ;;
                    Some (uni :: content, r)
              | _ => None
              end
            else
              char <- unescape esc ;;
              '(content, r) <- scanstring rest1 ;;
              Some (char :: content, r)
        end
      else if c <? 32 then None
      else
        '(content, r) <- scanstring rest ;;
        Some (c :: content, r)
  end.

Fixpoint span_digits (s : pystr) : pystr * pystr :=
  match s with
  | c :: s' =>
      if is_digit c then let (ds, r) := span_digits s' in (c :: ds, r)
      else ([], s)
  | [] => ([], [])
  end.

Fixpoint uint_of_chars (ds : pystr) : Decimal.uint :=
  match ds with
  | [] => Decimal.Nil
  | c :: ds' =>
      let u := uint_of_chars ds' in
      if c =? 48 then Decimal.D0 u
      else if c =? 49 then Decimal.D1 u
      else if c =? 50 then Decimal.D2 u
      else if c =? 51 then Decimal.D3 u
      else if c =? 52 then Decimal.D4 u
      else if c =? 53 then Decimal.D5 u
      else if c =? 54 then Decimal.D6 u
      else if c =? 55 then Decimal.D7 u
      else if c =? 56 then Decimal.D8 u
      else Decimal.D9 u
  end.

(** [NUMBER_RE] starts with an optional minus sign. *)
Definition sign_part (s : pystr) : bool * pystr :=
  match s with
  | c :: s' => if c =? 45 then (true, s') else (false, s)
  | [] => (false, s)
  end.

(** [NUMBER_RE], after the optional minus sign: the integer part is a
    zero or a run of digits that starts with a digit from 1 to 9, *)
Definition int_part (s : pystr) : option (pystr * pystr) :=
  match s with
  | c :: s' =>
      if (49 <=? c) && (c <=? 57) then
        let (ds, r) := span_digits s' in Some (c :: ds, r)
      else if c =? 48 then Some ([c], s')
      else None
  | [] => None
  end.

(** then comes an optional fraction: a dot and at least one digit, *)
Definition frac_part (r : pystr) : pystr * pystr :=
  match r with
  | dot :: d :: r' =>
      if (dot =? 46) && is_digit d then
        let (ds, r'') := span_digits r' in (dot :: d :: ds, r'')
      else ([], r)
  | _ => ([], r)
  end.

(** and an optional exponent: [e] or [E], an optional sign and at least
    one digit. *)
Definition exp_part (r : pystr) : pystr * pystr :=
  match r with
  | e :: r' =>
      if (e =? 101) || (e =? 69) then
        let (sign, r'') :=
          match r' with
          | c :: c' :: t =>
              if (c =? 43) || (c =? 45) then ([c], c' :: t) else ([], r')
          | _ => ([], r')
          end in
        match span_digits r'' with
        | ([], _) => ([], r)
        | (ds, r3) => (e :: sign ++ ds, r3)
        end
      else ([], r)
  | [] => ([], r)
  end.

(** [_match_number_unicode]: [None] when the input does not start with a
    number.  With a fraction or an exponent the literal is a float, else an
    int, whose conversion raises [ValueError] when the literal has more
    than [MAX_STR_DIGITS] digits. *)
Definition match_number (s : pystr) : option (pyval * pystr + error) :=
  let (neg, s1) := sign_part s in
  '(intpart, r) <- int_part s1 ;;
  let (frac, r1) := frac_part r in
  let (exp, r2) := exp_part r1 in
  match frac, exp with
  | [], [] =>
      if (MAX_STR_DIGITS <? List.length intpart)%nat then Some (inr ValueError)
      else
        let u := uint_of_chars intpart in
        Some (inl (PInt (Z.of_int (if neg then Decimal.Neg u else Decimal.Pos u)),
                   r2))
  | _, _ =>
      Some (inl (PFloat ((if neg then [45] else []) ++ intpart ++ frac ++ exp),
                 r2))
  end.

Fixpoint starts_with (p s : pystr) : option pystr :=
  match p, s with
  | [], _ => Some s
  | a :: p', b :: s' => if a =? b then starts_with p' s' else None
  | _ :: _, [] => None
  end.

(** [scan_once] with the loops of [_parse_object_unicode] and
    [_parse_array_unicode], with [room] levels of recursion left: a
    container takes one.  The fuel bounds the depth of the calls of the
    model: a call of [scan_once] and a round of a loop each start at a
    character of their own, so twice the input's length never runs out. *)
Fixpoint scan_once (fuel room : nat) (s : pystr) {struct fuel}
  : pyval * pystr + error :=
  match fuel with
  | O => inr JSONDecodeError
  | S fuel' =>
      match s with
      | [] => inr JSONDecodeError
      | c :: rest =>
          if c =? QUOTE then
            match scanstring rest with
            | Some (str, r) => inl (PStr str, r)
            | None => inr JSONDecodeError
            end
          else if c =? 123 then
            match room with
            | O => inr RecursionError
            | S room' =>
                match skip_ws rest with
                | c1 :: r1 =>
                    if c1 =? 125 then inl (PDict [], r1)
                    else if c1 =? QUOTE then object_loop fuel' room' r1 []
                    else inr JSONDecodeError
                | [] => inr JSONDecodeError
                end
            end
          else if c =? 91 then
            match room with
            | O => inr RecursionError
            | S room' =>
                match skip_ws rest with
                | c1 :: r1 =>
                    if c1 =? 93 then inl (PList [], r1)
                    else array_loop fuel' room' (c1 :: r1) []
                | [] => inr JSONDecodeError
                end
            end
          else
            match starts_with (lit "null") s with
            | Some r => inl (PNone, r)
            | None =>
            match starts_with (lit "true") s with
            | Some r => inl (PBool true, r)
            | None =>
            match starts_with (lit "false") s with
            | Some r => inl (PBool false, r)
            | None =>
            match match_number s with
            | Some res => res
            | None =>
            match starts_with (lit "NaN") s with
            | Some r => inl (PFloat (lit "NaN"), r)
            | None =>
            match starts_with (lit "Infinity") s with
            | Some r => inl (PFloat (lit "Infinity"), r)
            | None =>
            match starts_with (lit "-Infinity") s with
            | Some r => inl (PFloat (lit "-Infinity"), r)
            | None => inr JSONDecodeError
            end end end end end end end
      end
  end

with object_loop (fuel room : nat) (s : pystr) (pairs : list (pystr * pyval))
    {struct fuel} : pyval * pystr + error :=
  match fuel with
  | O => inr JSONDecodeError
  | S fuel' =>
      match scanstring s with
      | None => inr JSONDecodeError
      | Some (key, r) =>
          match skip_ws r with
          | colon :: r1 =>
              if colon =? 58 then
                '(value, r2) <~ scan_once fuel' room (skip_ws r1) ;;
                let pairs := pairs ++ [(key, value)] in
                match skip_ws r2 with
                | nextchar :: r3 =>
                    if nextchar =? 125 then
                      inl (PDict (dict_of_pairs pairs), r3)
                    else if nextchar =? 44 then
                      match skip_ws r3 with
                      | q :: r4 =>
                          if q =? QUOTE then object_loop fuel' room r4 pairs
                          else inr JSONDecodeError
                      | [] => inr JSONDecodeError
                      end
                    else inr JSONDecodeError
                | [] => inr JSONDecodeError
                end
              else inr JSONDecodeError
          | [] => inr JSONDecodeError
          end
      end
  end

with array_loop (fuel room : nat) (s : pystr) (values : list pyval)
    {struct fuel} : pyval * pystr + error :=
  match fuel with
  | O => inr JSONDecodeError
  | S fuel' =>
      '(value, r) <~ scan_once fuel' room s ;;
      let values := values ++ [value] in
      match skip_ws r with
      | nextchar :: r1 =>
          if nextchar =? 93 then inl (PList values, r1)
          else if nextchar =? 44 then array_loop fuel' room (skip_ws r1) values
          else inr JSONDecodeError
      | [] => inr JSONDecodeError
      end
  end.

(** [JSONDecoder.decode]: one value between optional whitespace. *)
Definition loads (s : pystr) : pyval + error :=
  '(obj, r) <~ scan_once (S (2 * List.length s)) RECURSION_LIMIT (skip_ws s) ;;
  match skip_ws r with
  | [] => inl obj
  | _ :: _ => inr JSONDecodeError
  end.

(** [json.loads(s)]: the value, or [None] when the call raises, and then
    what it raises. *)
Definition json_loads (s : pystr) : option pyval :=
  match loads s with
  | inl obj => Some obj
  | inr _ => None
  end.

Definition loads_failure (s : pystr) : error :=
  match loads s with
  | inl _ => JSONDecodeError
  | inr e => e
  end.

(** The loops of [dumps] over the items after the first, by name. *)
Definition dumps_items (room : nat) : list pyval -> pystr + error :=
  fix more (l : list pyval) : pystr + error :=
    match l with
    | [] => inl []
    | x :: l' =>
        sx <~ dumps room x ;;
        sl <~ more l' ;;
        inl (lit ", " ++ sx ++ sl)
    end.

Definition dumps_members (room : nat)
  : list (pystr * pyval) -> pystr + error :=
  fix more (d : list (pystr * pyval)) : pystr + error :=
    match d with
    | [] => inl []
    | (k, x) :: d' =>
        sx <~ dumps room x ;;
        sd <~ more d' ;;
        inl (lit ", " ++ encode_basestring k ++ lit ": " ++ sx ++ sd)
    end.

(** The fuel [scan_once] needs to read a value: one for the value and one
    more for each item, whatever the depth. *)
Fixpoint size (obj : pyval) : nat :=
  match obj with
  | PList l =>
      S ((fix sum (l : list pyval) : nat :=
            match l with
            | [] => O
            | x :: l' => (S (size x) + sum l')%nat
            end) l)
  | PDict d =>
      S ((fix sum (d : list (pystr * pyval)) : nat :=
            match d with
            | [] => O
            | (_, x) :: d' => (S (size x) + sum d')%nat
            end) d)
  | _ => 1%nat
  end.

Fixpoint items_size (l : list pyval) : nat :=
  match l with
  | [] => O
  | x :: l' => (S (size x) + items_size l')%nat
  end.

Fixpoint members_size (d : list (pystr * pyval)) : nat :=
  match d with
  | [] => O
  | (_, x) :: d' => (S (size x) + members_size d')%nat
  end.

(** What follows a value inside an encoding: nothing, or the comma or the
    bracket that closes its container. *)
Definition delimited (rest : pystr) : Prop :=
  match rest with
  | [] => True
  | c :: _ => c = 44 \/ c = 93 \/ c = 125
  end.

End Json.

(* ===================================================================== *)
(** * The world outside the process *)
(* ===================================================================== *)

Local Open Scope string_scope.
Local Open Scope list_scope.

(** An exception, that is an instance of [Exception]: its class and
    [str(e)].  What is raised and is no [Exception] (the
    [asyncio.CancelledError] thrown into a task that is cancelled,
    [KeyboardInterrupt]) is no [exn]: the model follows a coroutine as long
    as no one cancels it. *)
Record exn := Exn { exn_class : string; exn_str : pystr }.

(** The calls that leave a coroutine, in the order they are made. *)
Inductive effect :=
| QPut (evt : pyval)                       (* out_q.put(evt) *)
| QGet (evt : pyval)                       (* evt = out_q.get() *)
| QGetNowait (evt : pyval)                 (* evt = out_q.get_nowait() *)
| McpListTools                             (* session.list_tools() *)
| McpCallTool (tool_name arguments : pyval)  (* session.call_tool(...) *)
| LiveConnect (model : pystr) (config : pyval)
                                           (* client.aio.live.connect(...).__aenter__() *)
| LiveClose                                (* connect_ctx.__aexit__(...) *)
| SendToolResponse (function_responses : list pyval)
| SendRealtimeInput (kwarg : string) (value : pyval)
| WsAccept
| WsSendText (encoded : pystr)
| WsClose.

(** What the collaborators answer.  Every answer may depend on the calls
    made so far. *)
Record Env := {
  (** [session.call_tool(tool_name, arguments)]: a result object or the
      exception raised by the call or by its transport *)
  call_tool_outcome : list effect -> pyval -> pyval -> pyval + exn;
  (** [session.list_tools()] *)
  list_tools_outcome : list effect -> pyval + exn;
  (** the remaining calls return nothing: [None], or raise: [Some e] *)
  io_outcome : list effect -> effect -> option exn;
  (** [str(v)] for the values whose text the model does not compute *)
  py_repr : pyval -> pystr;
  (** [type(v).__name__] of an SDK object *)
  py_type_name : pyval -> pystr;
  (** [str(e)] of what [json.loads] raises for an input *)
  json_error_str : pystr -> pystr;
  (** [str(e)] of what [json.dumps] raises for a value *)
  dumps_error_str : pyval -> pystr;
  (** [str(e)] of what [b64d] raises for a text *)
  b64_error_str : pystr -> pystr;
  (** [os.getenv("GEMINI_API_KEY")] *)
  GEMINI_API_KEY : option pystr
}.

(** The state the coroutines share: the contents of [out_q], oldest first,
    and the trace. *)
Record World := { out_q : list pyval; trace : list effect }.

Definition log_call (e : effect) (w : World) : World :=
  {| out_q := out_q w; trace := trace w ++ [e] |}.

(** ** The monad of a coroutine *)

Inductive outcome (A : Type) :=
| Ok (a : A)
| Raise (e : exn).
Arguments Ok {A} a.
Arguments Raise {A} e.

Definition M (A : Type) := World -> outcome A * World.

Definition ret {A} (a : A) : M A := fun w => (Ok a, w).

Definition bind {A B} (m : M A) (k : A -> M B) : M B :=
  fun w =>
    match m w with
    | (Ok a, w') => k a w'
    | (Raise e, w') => (Raise e, w')
    end.

Definition raise {A} (e : exn) : M A := fun w => (Raise e, w).

(** [try: m  except Exception as e: h e]; every [exn] is an instance of
    [Exception]. *)
Definition try_except {A} (m : M A) (h : exn -> M A) : M A :=
  fun w =>
    match m w with
    | (Ok a, w') => (Ok a, w')
    | (Raise e, w') => h e w'
    end.

Definition lift {A} (r : outcome A) : M A := fun w => (r, w).

Declare Scope relay_scope.
Delimit Scope relay_scope with relay.
Notation "x <- m ;; k" := (bind m (fun x => k))
  (at level 61, m at next level, right associativity) : relay_scope.
Notation "m ;; k" := (bind m (fun _ => k))
  (at level 61, right associativity) : relay_scope.
Local Open Scope relay_scope.

Definition item (k : string) (v : pyval) : pystr * pyval := (lit k, v).
Definition pstr (s : string) : pyval := PStr (lit s).

Definition is_none (v : pyval) : bool :=
  match v with PNone => true | _ => false end.

(** [v == "literal"] *)
Definition eq_lit (v : pyval) (s : string) : bool :=
  match v with PStr x => str_eqb x (lit s) | _ => false end.

Definition is_exn (cls : string) (e : exn) : bool := String.eqb (exn_class e) cls.

Section Relay.

Variable env : Env.

(** ** Primitive calls *)

(** A call that returns nothing or raises. *)
Definition perform (e : effect) : M unit :=
  fun w =>
    match io_outcome env (trace w) e with
    | None => (Ok tt, log_call e w)
    | Some x => (Raise x, log_call e w)
    end.

(** [await out_q.put(evt)] on the unbounded queue: never blocks, never
    fails. *)
Definition q_put (evt : pyval) : M unit :=
  fun w => (Ok tt, {| out_q := out_q w ++ [evt]; trace := trace w ++ [QPut evt] |}).

(** [out_q.empty()] *)
Definition q_empty : M bool :=
  fun w => (Ok (match out_q w with [] => true | _ => false end), w).

(** [out_q.get_nowait()] *)
Definition q_get_nowait : M pyval :=
  fun w =>
    match out_q w with
    | [] => (Raise (Exn "QueueEmpty" []), w)
    | evt :: q => (Ok evt, {| out_q := q; trace := trace w ++ [QGetNowait evt] |})
    end.

(** [f"{v}"] *)
Definition py_str (v : pyval) : pystr :=
  match v with
  | PStr s => s
  | PNone => lit "None"
  | PBool true => lit "True"
  | PBool false => lit "False"
  | PInt z => Json.int_repr z
  | _ => py_repr env v
  end.

(** [type(v).__name__] for the built-in types.  The class of an SDK
    object is not part of the value: where the program can meet one, the
    name is asked of the environment ([type_name_of]). *)
Definition type_name (v : pyval) : pystr :=
  match v with
  | PNone => lit "NoneType"
  | PBool _ => lit "bool"
  | PInt _ => lit "int"
  | PFloat _ => lit "float"
  | PStr _ => lit "str"
  | PBytes _ => lit "bytes"
  | PList _ => lit "list"
  | PDict _ => lit "dict"
  | PObj _ => lit "object"
  end.

Definition type_name_of (v : pyval) : pystr :=
  match v with
  | PObj _ => py_type_name env v
  | _ => type_name v
  end.

(** [obj.get(key, default)]: only a dict has the method.  The objects of
    the calls are what [json.loads] returned, or [None]. *)
Definition py_get (obj : pyval) (key : string) (default : pyval) : M pyval :=
  match obj with
  | PDict d =>
      ret (match assoc (lit key) d with Some v => v | None => default end)
  | _ =>
      raise (Exn "AttributeError"
               (lit "'" ++ type_name obj ++ lit "' object has no attribute 'get'"))
  end.

(** [obj.name] *)
Definition py_attr (obj : pyval) (name : string) : M pyval :=
  match obj with
  | PObj attrs =>
      match assoc (lit name) attrs with
      | Some v => ret v
      | None => raise (Exn "AttributeError" (lit name))
      end
  | _ => raise (Exn "AttributeError" (lit name))
  end.

(** The items of a [for] loop. *)
Definition iterate (v : pyval) : M (list pyval) :=
  match py_iter v with
  | Some l => ret l
  | None => raise (Exn "TypeError" (lit "object is not iterable"))
  end.

(** [b64e] and [b64d] as calls. *)
Definition call_b64e (b : list byte) : M pystr :=
  match b64e b with
  | Some s => ret s
  | None => raise (Exn "UnicodeDecodeError" (lit "ascii"))
  end.

(** [b64d] raises [UnicodeEncodeError] for a text that is not ASCII and
    [binascii.Error] for one that is no base64. *)
Definition call_b64d (s : pystr) : M (list byte) :=
  match b64d s with
  | Some b => ret b
  | None =>
      raise (Exn (match Base64.encode_ascii s with
                  | Some _ => "binascii.Error"
                  | None => "UnicodeEncodeError"
                  end)
               (b64_error_str env s))
  end.

(** ** [main.py] 118-152: the Tool Gateway *)

Definition mcp_call_tool (tool_name arguments : pyval) : M pyval :=
  fun w =>
    let w' := log_call (McpCallTool tool_name arguments) w in
    match call_tool_outcome env (trace w) tool_name arguments with
    | inl r => (Ok r, w')
    | inr e => (Raise e, w')
    end.

Definition mcp_list_tools : M pyval :=
  fun w =>
    let w' := log_call McpListTools w in
    match list_tools_outcome env (trace w) with
    | inl r => (Ok r, w')
    | inr e => (Raise e, w')
    end.

(** [content[0]] *)
Definition first_item (content : pyval) : outcome pyval :=
  match content with
  | PList (x :: _) => Ok x
  | PStr (c :: _) => Ok (PStr [c])
  | PBytes (x :: _) => Ok (PInt (Z.of_N (Byte.to_N x)))
  | PList [] => Raise (Exn "IndexError" (lit "list index out of range"))
  | PStr [] => Raise (Exn "IndexError" (lit "string index out of range"))
  | PBytes [] => Raise (Exn "IndexError" (lit "index out of range"))
  | PDict _ => Raise (Exn "KeyError" (lit "0"))
  | _ =>
      Raise (Exn "TypeError"
               (lit "'" ++ type_name_of content
                ++ lit "' object is not subscriptable"))
  end.

Definition mcp_result_to_payload (result : pyval) : outcome pyval :=
  let structured := getattr result "structuredContent" PNone in
  if negb (is_none structured) then Ok structured
  else
    let content := py_or (getattr result "content" PNone) (PList []) in
    let empty :=
      Ok (PDict [item "error" (pstr "empty_tool_response");
                 item "raw" (PStr (py_str result))]) in
    if truthy content then
      match first_item content with
      | Raise e => Raise e
      | Ok first =>
          match getattr first "text" PNone with
          | PStr text =>
              match Json.json_loads text with
              | Some parsed => Ok parsed
              | None =>
                  match Json.loads_failure text with
                  | Json.JSONDecodeError => Ok (PDict [item "text" (PStr text)])
                  | e =>
                      Raise (Exn (Json.error_class e) (json_error_str env text))
                  end
              end
          | _ => empty
          end
      end
    else empty.

(** ** [main.py] 188-198: the wire *)

(** One websocket frame as [ws.receive_text()] hands it over: a text or the
    exception it raises. *)
Definition frame := (pystr + exn)%type.

Definition recv_json (f : frame) : outcome pyval :=
  match f with
  | inr e => Raise e
  | inl raw =>
      match Json.json_loads raw with
      | Some obj => Ok obj
      | None =>
          Raise (Exn (Json.error_class (Json.loads_failure raw))
                   (json_error_str env raw))
      end
  end.

(** [obj.get("type")] is evaluated for the log line, between the encoding
    and the send. *)
Definition send_json (obj : pyval) : M unit :=
  match Json.json_dumps obj with
  | Some encoded =>
      match obj with
      | PDict _ => perform (WsSendText encoded)
      | _ => raise (Exn "AttributeError" (lit "object has no attribute 'get'"))
      end
  | None =>
      raise (Exn (Json.error_class (Json.dumps_failure obj))
               (dumps_error_str env obj))
  end.

(** ** [main.py] 201-299: the upstream-receive and tool-dispatch loop *)

(** Lines 214-258, the body of [for fc in function_calls]: one request of
    a tool-call batch, given the reply entries collected so far. *)
Definition dispatch_function_call (fc : pyval) (function_responses : list pyval)
  : M (list pyval) :=
  let fn_name := getattr fc "name" PNone in
  let fn_id := getattr fc "id" PNone in
  let fn_args := py_or (getattr fc "args" PNone) (PDict []) in
  if negb (isinstance_str fn_id) || negb (truthy fn_id) then
    q_put (PDict [item "type" (pstr "error");
                  item "message"
                    (PStr (lit "Tool call missing id: " ++ py_str fn_name))]) ;;
    ret function_responses
  else if negb (isinstance_str fn_name) || negb (truthy fn_name) then
    ret (function_responses ++
         [PDict [item "id" fn_id;
                 item "name" (py_or fn_name (pstr "unknown_tool"));
                 item "response"
                   (PDict [item "error" (pstr "missing_function_name")])]])
  else
    let fn_args := if isinstance_dict fn_args then fn_args else PDict [] in
    try_except
      (mcp_result <- mcp_call_tool fn_name fn_args ;;
       payload <- lift (mcp_result_to_payload mcp_result) ;;
       ret (function_responses ++
            [PDict [item "id" fn_id;
                    item "name" fn_name;
                    item "response" (PDict [item "output" payload])]]))
      (fun e =>
         ret (function_responses ++
              [PDict [item "id" fn_id;
                      item "name" fn_name;
                      item "response"
                        (PDict [item "error" (PStr (exn_str e))])]])).

(** Lines 213-258: the [for] loop over the batch. *)
Fixpoint dispatch_function_calls (function_calls : list pyval)
    (function_responses : list pyval) : M (list pyval) :=
  match function_calls with
  | [] => ret function_responses
  | fc :: rest =>
      function_responses <- dispatch_function_call fc function_responses ;;
      dispatch_function_calls rest function_responses
  end.

(** Lines 209-266: a tool-call notification. *)
Definition relay_tool_call (response : pyval) : M unit :=
  let tool_call := getattr response "tool_call" PNone in
  if truthy tool_call && truthy (getattr tool_call "function_calls" PNone) then
    let function_calls :=
      py_or (getattr tool_call "function_calls" (PList [])) (PList []) in
    fcs <- iterate function_calls ;;
    function_responses <- dispatch_function_calls fcs [] ;;
    match function_responses with
    | [] => ret tt
    | _ :: _ => perform (SendToolResponse function_responses)
    end
  else ret tt.

(** Lines 270-286 (and [gemini_live.py] 104-120): one content part. *)
Definition relay_part (part : pyval) : M unit :=
  let inline := getattr part "inline_data" PNone in
  (if truthy inline then
     match getattr inline "data" PNone with
     | PBytes data =>
         encoded <- call_b64e data ;;
         q_put (PDict [item "type" (pstr "audio");
                       item "data" (PStr encoded);
                       item "mime_type" (pstr "audio/pcm;rate=24000")])
     | _ => ret tt
     end
   else ret tt) ;;
  match getattr part "text" PNone with
  | PStr text =>
      if truthy (PStr (strip text)) then
        q_put (PDict [item "type" (pstr "text"); item "text" (PStr text)])
      else ret tt
  | _ => ret tt
  end.

Fixpoint relay_parts (parts : list pyval) : M unit :=
  match parts with
  | [] => ret tt
  | part :: rest => relay_part part ;; relay_parts rest
  end.

(** Lines 268-286 (and [gemini_live.py] 101-120): the model turn. *)
Definition relay_model_turn (sc : pyval) : M unit :=
  if truthy sc && truthy (getattr sc "model_turn" PNone) then
    model_turn <- py_attr sc "model_turn" ;;
    parts <- iterate (py_or (getattr model_turn "parts" (PList [])) (PList [])) ;;
    relay_parts parts
  else ret tt.

(** Lines 291-295 (and [gemini_live.py] 124-128):
    [while not out_q.empty(): try: out_q.get_nowait() except Exception: break],
    for at most [fuel] iterations. *)
Fixpoint drain (fuel : nat) : M unit :=
  match fuel with
  | O => ret tt
  | S fuel' =>
      empty <- q_empty ;;
      if empty then ret tt
      else
        got <- try_except (q_get_nowait ;; ret true) (fun _ => ret false) ;;
        if got then drain fuel' else ret tt
  end.

(** The loop removes one event per iteration, so the queue's length (plus
    the last test) is fuel enough. *)
Definition drain_queue : M unit :=
  fun w => drain (S (List.length (out_q w))) w.

(** Lines 288-296: the flush protocol. *)
Definition relay_interrupted (sc : pyval) : M unit :=
  let interrupted :=
    if truthy sc then getattr sc "interrupted" (PBool false) else PBool false in
  if truthy interrupted then
    drain_queue ;;
    q_put (PDict [item "type" (pstr "interrupted")])
  else ret tt.

(** Lines 206-296: the body of [async for response in turn]. *)
Definition relay_response (response : pyval) : M unit :=
  let sc := getattr response "server_content" PNone in
  relay_tool_call response ;;
  relay_model_turn sc ;;
  relay_interrupted sc.

Fixpoint relay_responses (body : pyval -> M unit) (responses : list pyval)
  : M unit :=
  match responses with
  | [] => ret tt
  | response :: rest => body response ;; relay_responses body rest
  end.

(** The upstream stream as the loop sees it: the responses it yields, turn
    after turn, and then either the [Exception] that reading it raises or
    nothing more (the coroutine stays suspended on the read). *)
Record Upstream := { responses : list pyval; fault : option exn }.

Definition read_upstream (body : pyval -> M unit) (up : Upstream) : M unit :=
  relay_responses body (responses up) ;;
  match fault up with
  | Some e => raise e
  | None => ret tt
  end.

Definition gemini_recv_loop (up : Upstream) : M unit :=
  try_except (read_upstream relay_response up)
    (fun e =>
       q_put (PDict [item "type" (pstr "error");
                     item "message"
                       (PStr (lit "Gemini receive error: " ++ exn_str e))])).

(** ** [gemini_live.py] 93-128: [GeminiLiveBridge.recv_loop] *)

(** Lines 122-128: the queue is emptied and the loop goes on. *)
Definition bridge_interrupted (sc : pyval) : M unit :=
  let interrupted :=
    if truthy sc then getattr sc "interrupted" (PBool false) else PBool false in
  if truthy interrupted then drain_queue else ret tt.

Definition bridge_response (resp : pyval) : M unit :=
  let sc := getattr resp "server_content" PNone in
  relay_model_turn sc ;;
  bridge_interrupted sc.

(** [session_started] is [self._session is not None]. *)
Definition recv_loop (session_started : bool) (up : Upstream) : M unit :=
  if negb session_started then
    raise (Exn "RuntimeError" (lit "Session not started"))
  else read_upstream bridge_response up.

(** ** [main.py] 302-363: the client side *)

Definition handle_client_msg (msg : pyval) : M unit :=
  t <- py_get msg "type" PNone ;;
  if eq_lit t "audio" then
    data_b64 <- py_get msg "data" PNone ;;
    mime_type <- py_get msg "mime_type" (pstr "audio/pcm;rate=16000") ;;
    match data_b64 with
    | PStr s =>
        data <- call_b64d s ;;
        perform (SendRealtimeInput "audio"
                   (PDict [item "data" (PBytes data);
                           item "mime_type" mime_type]))
    | _ => ret tt
    end
  else if eq_lit t "text" then
    text <- py_get msg "text" (PStr []) ;;
    if isinstance_str text && truthy text then
      perform (SendRealtimeInput "text" text)
    else ret tt
  else if eq_lit t "interrupt" then
    try_except (perform (SendRealtimeInput "activity_end" (PDict [])))
      (fun _ => ret tt)
  else if eq_lit t "ping" then
    send_json (PDict [item "type" (pstr "pong")])
  else if eq_lit t "config" then
    ret tt
  else
    send_json (PDict [item "type" (pstr "error");
                      item "message"
                        (PStr (lit "Unknown message type: " ++ py_str t))]).

(** Lines 337-351: the [while True] loop over the frames the client sends;
    when there is no frame left the coroutine stays suspended on the read. *)
Fixpoint client_frames (frames : list frame) : M unit :=
  match frames with
  | [] => ret tt
  | f :: rest =>
      match recv_json f with
      | Raise e =>
          if is_exn "WebSocketDisconnect" e then ret tt
          else
            try_except
              (send_json (PDict [item "type" (pstr "error");
                                 item "message"
                                   (PStr (lit "Invalid message: " ++ exn_str e))]))
              (fun _ => ret tt)
      | Ok msg => handle_client_msg msg ;; client_frames rest
      end
  end.

Definition client_to_gemini (frames : list frame) (initial_msg : option pyval)
  : M unit :=
  try_except
    (match initial_msg with
     | Some msg => handle_client_msg msg
     | None => ret tt
     end ;;
     client_frames frames)
    (fun e =>
       try_except
         (send_json (PDict [item "type" (pstr "error");
                            item "message"
                              (PStr (lit "Gemini send error: " ++ exn_str e))]))
         (fun _ => ret tt)).

(** [evt = await out_q.get()], or [None] when the queue is empty and the
    coroutine stays suspended. *)
Definition q_get : M (option pyval) :=
  fun w =>
    match out_q w with
    | [] => (Ok None, w)
    | evt :: q => (Ok (Some evt), {| out_q := q; trace := trace w ++ [QGet evt] |})
    end.

(** Lines 360-363: the delivery loop, for at most [n] events. *)
Fixpoint gemini_to_client (n : nat) : M unit :=
  match n with
  | O => ret tt
  | S n' =>
      got <- q_get ;;
      match got with
      | None => ret tt
      | Some evt => send_json evt ;; gemini_to_client n'
      end
  end.

End Relay.

(* ===================================================================== *)
(** * [main.py] 54-86 and 366-478: configuration and the session bridge *)
(* ===================================================================== *)

Definition build_realtime_input_config : pyval :=
  PDict
    [item "automatic_activity_detection"
       (PDict [item "disabled" (PBool false);
               item "start_of_speech_sensitivity" (pstr "START_SENSITIVITY_LOW");
               item "end_of_speech_sensitivity" (pstr "END_SENSITIVITY_LOW");
               item "prefix_padding_ms" (PInt 20);
               item "silence_duration_ms" (PInt 100)]);
     item "activity_handling" (pstr "START_OF_ACTIVITY_INTERRUPTS")].

Definition DEFAULT_MODEL : pystr :=
  lit "gemini-2.5-flash-native-audio-preview-12-2025".

(** [DEFAULT_CONFIG] as it stands once the module is loaded (line 86 has
    replaced the realtime input entry). *)
Definition DEFAULT_CONFIG : list (pystr * pyval) :=
  [item "response_modalities" (PList [pstr "AUDIO"]);
   item "system_instruction"
     (pstr "You are a helpful and friendly salon voice assistant.");
   item "realtime_input_config" build_realtime_input_config].

Definition MCP_REQUIRED : bool := false.

(** Lines 440-444: the entries kept for the second connection attempt. *)
Definition minimal_key (k : pystr) : bool :=
  str_eqb k (lit "response_modalities")
  || str_eqb k (lit "system_instruction")
  || str_eqb k (lit "tools").

Definition minimal_cfg (cfg : list (pystr * pyval)) : list (pystr * pyval) :=
  filter (fun kv => minimal_key (fst kv)) cfg.

(** Where the bridge stands when the model stops following it: the relay
    tasks are about to be created, or the handler has returned. *)
Inductive lifecycle :=
| ACTIVE (model : pystr) (config : list (pystr * pyval))
         (pending_first_message : pyval)
| CLOSED.

Section Bridge.

Variable env : Env.

(** [[t.name for t in tools]] *)
Fixpoint tool_names_of (tools : list pyval) : M (list pyval) :=
  match tools with
  | [] => ret []
  | t :: rest =>
      name <- py_attr t "name" ;;
      names <- tool_names_of rest ;;
      ret (name :: names)
  end.

(** [', '.join(tool_names)]: every item has to be a [str]. *)
Fixpoint str_items (l : list pyval) : M (list pystr) :=
  match l with
  | [] => ret []
  | PStr s :: rest => ss <- str_items rest ;; ret (s :: ss)
  | _ :: _ => raise (Exn "TypeError" (lit "sequence item: expected str instance"))
  end.

(** Lines 381-399: tool discovery; [None] when the handler has refused the
    session and returned. *)
Definition discover_tools : M (option (list pyval * list pyval)) :=
  try_except
    (tools <- mcp_list_tools env ;;
     listed <- iterate (getattr tools "tools" (PList [])) ;;
     tool_names <- tool_names_of listed ;;
     gemini_tools <- iterate (py_or (getattr tools "tools" (PList [])) (PList [])) ;;
     ret (Some (tool_names, gemini_tools)))
    (fun _ =>
       if MCP_REQUIRED then
         send_json env
           (PDict [item "type" (pstr "error");
                   item "message" (pstr "MCP unavailable; cannot start session.")]) ;;
         perform env WsClose ;;
         ret None
       else ret (Some ([], []))).

(** Lines 401-405: the optional first message, [None] on a timeout (no
    frame) and on any exception. *)
Definition read_first (first_frame : option frame) : pyval :=
  match first_frame with
  | Some f =>
      match recv_json env f with
      | Ok msg => msg
      | Raise _ => PNone
      end
  | None => PNone
  end.

(** Lines 407-419: the configuration overrides of a first [config]
    message; any other first message is kept for the relay. *)
Definition negotiate (first : pyval) (cfg : list (pystr * pyval)) (model : pystr)
  : M (list (pystr * pyval) * pystr * pyval) :=
  is_config <-
    (if truthy first then
       t <- py_get first "type" PNone ;; ret (eq_lit t "config")
     else ret false) ;;
  if is_config then
    si <- py_get first "system_instruction" PNone ;;
    let cfg := if isinstance_str si then dict_set cfg (lit "system_instruction") si
               else cfg in
    rm <- py_get first "response_modalities" PNone ;;
    let cfg := if isinstance_list rm then dict_set cfg (lit "response_modalities") rm
               else cfg in
    m <- py_get first "model" PNone ;;
    let model :=
      match m with
      | PStr s => if truthy (PStr (strip s)) then strip s else model
      | _ => model
      end in
    ret (cfg, model, PNone)
  else if negb (is_none first) then
    py_get first "type" PNone ;;
    ret (cfg, model, first)
  else ret (cfg, model, PNone).

(** Lines 421-428: the tool names go into the instruction, the tools into
    the configuration. *)
Definition add_tools (tool_names gemini_tools : list pyval)
    (cfg : list (pystr * pyval)) : M (list (pystr * pyval)) :=
  cfg <-
    match tool_names with
    | [] => ret cfg
    | _ :: _ =>
        instruction <-
          match assoc (lit "system_instruction") cfg with
          | Some (PStr s) => ret (rstrip s)
          | None => ret []
          | Some _ => raise (Exn "AttributeError" (lit "rstrip"))
          end ;;
        names <- str_items tool_names ;;
        ret (dict_set cfg (lit "system_instruction")
               (PStr (instruction ++ [10; 10]%N
                      ++ lit "You can only answer using MCP data. Available tools: "
                      ++ join (lit ", ") names
                      ++ lit ". If the data is not available from MCP, say you don't know.")))
    end ;;
  match gemini_tools with
  | [] => ret cfg
  | _ :: _ => ret (dict_set cfg (lit "tools") (PList gemini_tools))
  end.

(** Lines 432-447: connect with the full configuration; when that raises,
    connect once more with the minimal one.  The value is the configuration
    of the session that was opened. *)
Definition establish_upstream (model : pystr) (cfg : list (pystr * pyval))
  : M (list (pystr * pyval)) :=
  try_except
    (perform env (LiveConnect model (PDict cfg)) ;; ret cfg)
    (fun _ =>
       perform env (LiveConnect model (PDict (minimal_cfg cfg))) ;;
       ret (minimal_cfg cfg)).

(** Lines 449-465 up to the creation of the relay tasks: the [ready]
    event; the [finally] clause closes the upstream session when sending it
    raises. *)
Definition announce_ready (model : pystr) : M unit :=
  try_except
    (send_json env (PDict [item "type" (pstr "ready"); item "model" (PStr model)]))
    (fun e => perform env LiveClose ;; raise e).

(** Lines 381-430: discovery, negotiation and the final configuration;
    [None] when the handler has refused the session and returned. *)
Definition prepare_session (first_frame : option frame)
  : M (option (pystr * list (pystr * pyval) * pyval)) :=
  let cfg := DEFAULT_CONFIG in
  let model := DEFAULT_MODEL in
  discovered <- discover_tools ;;
  match discovered with
  | None => ret None
  | Some (tool_names, gemini_tools) =>
      let first := read_first first_frame in
      negotiated <- negotiate first cfg model ;;
      let '(cfg, model, pending_first_message) := negotiated in
      cfg <- add_tools tool_names gemini_tools cfg ;;
      (fun w => (Ok tt, {| out_q := []; trace := trace w |})) ;;
      ret (Some (model, cfg, pending_first_message))
  end.

(** Lines 432-456: the upstream session is opened and announced. *)
Definition open_session (model : pystr) (cfg : list (pystr * pyval))
    (pending_first_message : pyval) : M lifecycle :=
  used <- establish_upstream model cfg ;;
  announce_ready model ;;
  ret (ACTIVE model used pending_first_message).

(** Lines 380-465, the body of the outer [try]. *)
Definition ws_session (first_frame : option frame) : M lifecycle :=
  prepared <- prepare_session first_frame ;;
  match prepared with
  | None => ret CLOSED
  | Some (model, cfg, pending_first_message) =>
      open_session model cfg pending_first_message
  end.

(** Lines 366-478, up to the creation of the relay tasks. *)
Definition ws_handler (first_frame : option frame) : M lifecycle :=
  perform env WsAccept ;;
  match GEMINI_API_KEY env with
  | None | Some [] =>
      raise (Exn "RuntimeError" (lit "Missing env var: GEMINI_API_KEY"))
  | Some (_ :: _) =>
      reached <-
        try_except (ws_session first_frame)
          (fun e =>
             (if is_exn "WebSocketDisconnect" e then ret tt
              else
                try_except
                  (send_json env
                     (PDict [item "type" (pstr "error");
                             item "message" (PStr (exn_str e))]))
                  (fun _ => ret tt)) ;;
             ret CLOSED) ;;
      match reached with
      | ACTIVE _ _ _ => ret reached
      | CLOSED =>
          try_except (perform env WsClose) (fun _ => ret tt) ;;
          ret CLOSED
      end
  end.

End Bridge.

(* ===================================================================== *)
(** * The remaining entry points *)
(* ===================================================================== *)

(** [s[:stop]] *)
Definition slice_to (s : pystr) (stop : Z) : pystr :=
  if (0 <=? stop)%Z then firstn (Z.to_nat stop) s
  else firstn (Z.to_nat (Z.of_nat (List.length s) + stop)) s.

(** [main.py] 40-43 *)
Definition _truncate (s : pystr) (limit : Z) : pystr :=
  if (Z.of_nat (List.length s) <=? limit)%Z then s
  else
    slice_to s limit
    ++ lit "... <truncated "
    ++ Json.int_repr (Z.of_nat (List.length s) - limit)
    ++ lit " chars>".

(** [{"id": appointment_id, **payload}] *)
Definition with_id (appointment_id : pystr) (payload : list (pystr * pyval))
  : list (pystr * pyval) :=
  fold_left (fun d kv => dict_set d (fst kv) (snd kv)) payload
    [item "id" (PStr appointment_id)].

Section Endpoints.

Variable env : Env.

(** ** [main.py] 179-185: the appointment update over the Tool Gateway *)

Definition mcp_update_appointment (appointment_id : pystr)
    (payload : list (pystr * pyval)) : M pyval :=
  let args := with_id appointment_id payload in
  result <- mcp_call_tool env (pstr "update_appointment") (PDict args) ;;
  lift (mcp_result_to_payload env result).

(** ** [gemini_live.py] 70-76: the audio input of [GeminiLiveBridge];
    [session_started] is [self._session is not None] *)

Definition send_audio_b64 (session_started : bool) (data_b64 mime_type : pystr)
  : M unit :=
  if negb session_started then
    raise (Exn "RuntimeError" (lit "Session not started"))
  else
    data <- call_b64d env data_b64 ;;
    perform env (SendRealtimeInput "audio"
                   (PDict [item "data" (PBytes data);
                           item "mime_type" (PStr mime_type)])).

End Endpoints.

(* ===================================================================== *)
(** * Observations on runs *)
(* ===================================================================== *)

(** [evt[key]], [None] when it is missing. *)
Definition field (evt : pyval) (key : string) : pyval :=
  match evt with
  | PDict d => match assoc (lit key) d with Some v => v | None => PNone end
  | _ => PNone
  end.

(** The events of the client wire format built by the relay. *)
Definition Interrupted : pyval := PDict [item "type" (pstr "interrupted")].

Definition ErrorEvent (message : pystr) : pyval :=
  PDict [item "type" (pstr "error"); item "message" (PStr message)].

Definition AudioEvent (data mime_type : pystr) : pyval :=
  PDict [item "type" (pstr "audio"); item "data" (PStr data);
         item "mime_type" (PStr mime_type)].

Definition Ready (model : pystr) : pyval :=
  PDict [item "type" (pstr "ready"); item "model" (PStr model)].

(** An entry of the upstream reply batch. *)
Definition reply_entry (id name response : pyval) : pyval :=
  PDict [item "id" id; item "name" name; item "response" response].

(** The identifier test of line 217 and the name test of line 228. *)
Definition has_id (fc : pyval) : bool :=
  let fn_id := getattr fc "id" PNone in isinstance_str fn_id && truthy fn_id.

Definition has_name (fc : pyval) : bool :=
  let fn_name := getattr fc "name" PNone in
  isinstance_str fn_name && truthy fn_name.

(** The arguments handed to the gateway (lines 216 and 237-238). *)
Definition call_args (fc : pyval) : pyval :=
  let fn_args := py_or (getattr fc "args" PNone) (PDict []) in
  if isinstance_dict fn_args then fn_args else PDict [].

Definition is_call_tool (e : effect) : bool :=
  match e with McpCallTool _ _ => true | _ => false end.

Definition is_upstream_send (e : effect) : bool :=
  match e with
  | SendToolResponse _ | SendRealtimeInput _ _ => true
  | _ => false
  end.

(** The events a trace enqueues, and the events the delivery loop took. *)
Definition enqueued (t : list effect) : list pyval :=
  flat_map (fun e => match e with QPut evt => [evt] | _ => [] end) t.

Definition delivered (t : list effect) : list pyval :=
  flat_map (fun e => match e with QGet evt => [evt] | _ => [] end) t.

(** An audio event carries the relay's output mime type. *)
Definition audio_mime_ok (evt : pyval) : Prop :=
  field evt "type" = pstr "audio" ->
  field evt "mime_type" = pstr "audio/pcm;rate=24000".

(** [Q] holds of the event of every enqueue. *)
Definition puts (Q : pyval -> Prop) (e : effect) : Prop :=
  match e with QPut evt => Q evt | _ => True end.

Definition TextEvent (text : pystr) : pyval :=
  PDict [item "type" (pstr "text"); item "text" (PStr text)].

(** Values [json.dumps] and [json.loads] exchange without loss: no float,
    and dicts whose keys are distinct, as the keys of a [dict] are. *)
Fixpoint distinct_keys (obj : pyval) : Prop :=
  match obj with
  | PList l =>
      (fix all (l : list pyval) : Prop :=
         match l with
         | [] => True
         | x :: l' => distinct_keys x /\ all l'
         end) l
  | PDict d =>
      NoDup (map fst d)
      /\ (fix all (d : list (pystr * pyval)) : Prop :=
            match d with
            | [] => True
            | (_, x) :: d' => distinct_keys x /\ all d'
            end) d
  | _ => True
  end.

(** An event the wire format can carry. *)
Definition representable (evt : pyval) : Prop :=
  distinct_keys evt /\ exists encoded, Json.json_dumps evt = Some encoded.

(** What reading a value back means: any encoding of it, followed by a
    delimiter, is scanned to the value and the delimiter is left. *)
Definition reads_back (v : pyval) : Prop :=
  distinct_keys v ->
  forall room s fuel rest,
    Json.dumps room v = inl s ->
    Json.size v <= fuel ->
    Json.delimited rest ->
    Json.scan_once fuel room (s ++ rest) = inl (v, rest).

(** ** Checking by enumeration *)

(** The numbers below [n], and a test on all of them. *)
Definition below (n : nat) : list N := map N.of_nat (seq 0 n).

Definition all_below (n : nat) (P : N -> bool) : bool := forallb P (below n).

(** The four sextets of a group of three bytes, as [b2a_base64] cuts them. *)
Definition sextet0 (b0 : N) : N := N.shiftr b0 2.
Definition sextet1 (b0 b1 : N) : N := N.lor (N.shiftl (N.land b0 3) 4) (N.shiftr b1 4).
Definition sextet2 (b1 b2 : N) : N := N.lor (N.shiftl (N.land b1 15) 2) (N.shiftr b2 6).
Definition sextet3 (b2 : N) : N := N.land b2 63.

(** ** A sample world

    A backend that knows one tool, an upstream service that refuses a
    configuration carrying [realtime_input_config], and a client that takes
    every frame. *)
Definition sample_env : Env :=
  {| call_tool_outcome := fun _ tool_name _ =>
       if eq_lit tool_name "list_products" then
         inl (PObj [item "structuredContent"
                      (PDict [item "products" (PList [pstr "shampoo"])])])
       else inr (Exn "McpError" (lit "Unknown tool"));
     list_tools_outcome := fun _ =>
       inl (PObj [item "tools" (PList [PObj [item "name" (pstr "list_products")]])]);
     io_outcome := fun _ e =>
       match e with
       | LiveConnect _ (PDict cfg) =>
           match assoc (lit "realtime_input_config") cfg with
           | Some _ => Some (Exn "APIError" (lit "unsupported configuration"))
           | None => None
           end
       | _ => None
       end;
     py_repr := fun _ => lit "<object>";
     py_type_name := fun _ => lit "TextContent";
     json_error_str := fun _ => lit "Expecting value";
     dumps_error_str := fun _ => lit "Object is not JSON serializable";
     b64_error_str := fun _ => lit "Incorrect padding";
     GEMINI_API_KEY := Some (lit "key") |}.

Definition idle : World := {| out_q := []; trace := [] |}.

Definition function_call (id name : pyval) : pyval :=
  PObj [item "id" id; item "name" name; item "args" (PDict [])].

(** An upstream service that refuses every configuration, with a backend
    that cannot be reached and no API key in the environment. *)
Definition failing_env : Env :=
  {| call_tool_outcome := fun _ _ _ => inr (Exn "McpError" (lit "backend down"));
     list_tools_outcome := fun _ => inr (Exn "ConnectError" (lit "backend down"));
     io_outcome := fun _ e =>
       match e with
       | LiveConnect _ _ => Some (Exn "APIError" (lit "service unavailable"))
       | SendRealtimeInput _ _ => Some (Exn "ConnectionClosed" (lit "closed"))
       | _ => None
       end;
     py_repr := fun _ => lit "<object>";
     py_type_name := fun _ => lit "TextContent";
     json_error_str := fun _ => lit "Expecting value";
     dumps_error_str := fun _ => lit "Object is not JSON serializable";
     b64_error_str := fun _ => lit "Incorrect padding";
     GEMINI_API_KEY := None |}.

(** The same with an API key, and a client that is gone: every frame sent
    to it raises. *)
Definition offline_env : Env :=
  {| call_tool_outcome := call_tool_outcome failing_env;
     list_tools_outcome := list_tools_outcome failing_env;
     io_outcome := fun tr e =>
       match e with
       | WsSendText _ => Some (Exn "RuntimeError" (lit "websocket closed"))
       | LiveConnect _ _ => None
       | _ => io_outcome failing_env tr e
       end;
     py_repr := py_repr failing_env;
     py_type_name := py_type_name failing_env;
     json_error_str := json_error_str failing_env;
     dumps_error_str := dumps_error_str failing_env;
     b64_error_str := b64_error_str failing_env;
     GEMINI_API_KEY := Some (lit "key") |}.

(** An upstream service that refuses every configuration, with an API key
    and a client that takes every frame. *)
Definition refusing_env : Env :=
  {| call_tool_outcome := call_tool_outcome failing_env;
     list_tools_outcome := list_tools_outcome failing_env;
     io_outcome := fun _ e =>
       match e with
       | LiveConnect _ _ => Some (Exn "APIError" (lit "service unavailable"))
       | _ => None
       end;
     py_repr := py_repr failing_env;
     py_type_name := py_type_name failing_env;
     json_error_str := json_error_str failing_env;
     dumps_error_str := dumps_error_str failing_env;
     b64_error_str := b64_error_str failing_env;
     GEMINI_API_KEY := Some (lit "key") |}.

(** ** The queue discipline

    A computation only appends to the queue: what it leaves in the queue is
    what was there followed by what it enqueued. *)
Definition appends {A} (m : M A) : Prop :=
  forall w, exists t,
    trace (snd (m w)) = trace w ++ t
    /\ out_q (snd (m w)) = out_q w ++ enqueued t.

(** A computation keeps the queue first-in first-out: what it leaves in the
    queue is what was there followed by what it enqueued, less some events
    taken from the head. *)
Definition fifo {A} (m : M A) : Prop :=
  forall w, exists t k,
    trace (snd (m w)) = trace w ++ t
    /\ out_q (snd (m w)) = skipn k (out_q w ++ enqueued t).

(** A computation that leaves the world as it is. *)
Definition silent {A} (m : M A) : Prop := forall w, snd (m w) = w.

(** A character of the base64 alphabet or the pad. *)
Definition base64_char (c : N) : bool :=
  ((65 <=? c) && (c <=? 90) || (97 <=? c) && (c <=? 122)
   || (48 <=? c) && (c <=? 57) || (c =? 43) || (c =? 47) || (c =? 61))%N.

(** The types of the client messages that are passed on upstream. *)
Definition upstream_type (t : pyval) : bool :=
  eq_lit t "audio" || eq_lit t "text" || eq_lit t "interrupt".

(** The error event of a request without identifier (lines 221-226). *)
Definition missing_id_event (env : Env) (fc : pyval) : pyval :=
  ErrorEvent (lit "Tool call missing id: " ++ py_str env (getattr fc "name" PNone)).

(** The frames a trace sends to the client, in the order they are sent. *)
Definition sent_frames (t : list effect) : list pystr :=
  flat_map (fun e => match e with WsSendText encoded => [encoded] | _ => [] end) t.

(** An event the delivery loop can send: a dict the wire format can
    carry. *)
Definition deliverable (evt : pyval) : Prop :=
  isinstance_dict evt = true /\ representable evt.

(** ** The normalization policy, in the words of the specification

    "(1) if the backend returns a structured result object, return it
    verbatim; (2) else if it returns textual content, attempt to parse that
    text as structured data and return the parse; (3) else wrap the raw text
    as [{text: <content>}]; (4) if none of the above apply, return
    [{error: empty_tool_response, raw: <stringified result>}]."  The textual
    content of a result is the text of the first of its content items that
    has one. *)
Fixpoint textual_content (items : list pyval) : option pystr :=
  match items with
  | [] => None
  | first :: rest =>
      match getattr first "text" PNone with
      | PStr text => Some text
      | _ => textual_content rest
      end
  end.

Definition normalization_policy (env : Env) (result : pyval) : pyval :=
  let structured := getattr result "structuredContent" PNone in
  if negb (is_none structured) then structured
  else
    match
      match getattr result "content" PNone with
      | PList items => textual_content items
      | _ => None
      end
    with
    | Some text =>
        match Json.json_loads text with
        | Some parsed => parsed
        | None => PDict [item "text" (PStr text)]
        end
    | None =>
        PDict [item "error" (pstr "empty_tool_response");
               item "raw" (PStr (py_str env result))]
    end.

(** What a computation adds to the trace: every call it logs satisfies
    [P]. *)
Definition emits {A} (P : effect -> Prop) (m : M A) : Prop :=
  forall w, exists t, trace (snd (m w)) = trace w ++ t /\ Forall P t.

(* ===================================================================== *)
(** * Properties *)
(* ===================================================================== *)

(** ** The trace discipline of the monad *)

Section Emits.

Variable env : Env.
Variable P : effect -> Prop.

Lemma emits_ret A (a : A) : emits P (ret a).
Proof. intros w. exists []. simpl. now rewrite app_nil_r. Qed.

Lemma emits_raise A (e : exn) : emits P (@raise A e).
Proof. intros w. exists []. simpl. now rewrite app_nil_r. Qed.

Lemma emits_lift A (r : outcome A) : emits P (lift r).
Proof. intros w. exists []. simpl. now rewrite app_nil_r. Qed.

Lemma emits_bind A B (m : M A) (k : A -> M B) :
  emits P m -> (forall a, emits P (k a)) -> emits P (bind m k).
Proof.
  intros Hm Hk w. unfold bind.
  destruct (Hm w) as [t1 [E1 F1]].
  destruct (m w) as [[a | e] w1]; simpl in *.
  - destruct (Hk a w1) as [t2 [E2 F2]].
    exists (t1 ++ t2). rewrite E2, E1, app_assoc. split; trivial.
    now apply Forall_app.
  - now exists t1.
Qed.

Lemma emits_try_except A (m : M A) (h : exn -> M A) :
  emits P m -> (forall e, emits P (h e)) -> emits P (try_except m h).
Proof.
  intros Hm Hh w. unfold try_except.
  destruct (Hm w) as [t1 [E1 F1]].
  destruct (m w) as [[a | e] w1]; simpl in *.
  - now exists t1.
  - destruct (Hh e w1) as [t2 [E2 F2]].
    exists (t1 ++ t2). rewrite E2, E1, app_assoc. split; trivial.
    now apply Forall_app.
Qed.

Lemma emits_perform (e : effect) : P e -> emits P (perform env e).
Proof.
  intros He w. exists [e]. unfold perform.
  destruct (io_outcome env (trace w) e); simpl; auto.
Qed.

Lemma emits_q_put (evt : pyval) : P (QPut evt) -> emits P (q_put evt).
Proof. intros He w. exists [QPut evt]. simpl. auto. Qed.

Lemma emits_q_empty : emits P q_empty.
Proof. intros w. exists []. simpl. now rewrite app_nil_r. Qed.

Lemma emits_q_get_nowait :
  (forall evt, P (QGetNowait evt)) -> emits P q_get_nowait.
Proof.
  intros He w. unfold q_get_nowait. destruct (out_q w) as [| evt q]; simpl.
  - exists []. now rewrite app_nil_r.
  - exists [QGetNowait evt]. auto.
Qed.

Lemma emits_mcp_call_tool (tool_name arguments : pyval) :
  P (McpCallTool tool_name arguments) ->
  emits P (mcp_call_tool env tool_name arguments).
Proof.
  intros He w. exists [McpCallTool tool_name arguments]. unfold mcp_call_tool.
  destruct (call_tool_outcome env (trace w) tool_name arguments); simpl; auto.
Qed.

Lemma emits_iterate (v : pyval) : emits P (iterate v).
Proof.
  unfold iterate. destruct (py_iter v); [apply emits_ret | apply emits_raise].
Qed.

Lemma emits_py_attr (o : pyval) (name : string) : emits P (py_attr o name).
Proof.
  unfold py_attr. destruct o; try apply emits_raise.
  destruct (assoc (lit name) attrs); [apply emits_ret | apply emits_raise].
Qed.

Lemma emits_call_b64e (b : list byte) : emits P (call_b64e b).
Proof.
  unfold call_b64e. destruct (b64e b); [apply emits_ret | apply emits_raise].
Qed.

Lemma emits_drain (fuel : nat) :
  (forall evt, P (QGetNowait evt)) -> emits P (drain fuel).
Proof.
  intros He. induction fuel as [| fuel IH]; simpl.
  - apply emits_ret.
  - apply emits_bind; [apply emits_q_empty |].
    intros [|]; [apply emits_ret |].
    apply emits_bind.
    + apply emits_try_except.
      * apply emits_bind; [now apply emits_q_get_nowait |].
        intros _. apply emits_ret.
      * intros _. apply emits_ret.
    + intros [|]; [exact IH | apply emits_ret].
Qed.

Lemma emits_drain_queue :
  (forall evt, P (QGetNowait evt)) -> emits P drain_queue.
Proof. intros He w. unfold drain_queue. now apply emits_drain. Qed.

End Emits.

(** ** The flush protocol *)

Lemma drain_spec (q : list pyval) :
  forall (fuel : nat) (tr : list effect),
    List.length q < fuel ->
    drain fuel {| out_q := q; trace := tr |}
    = (Ok tt, {| out_q := []; trace := tr ++ map QGetNowait q |}).
Proof.
  induction q as [| evt q IH]; intros fuel tr Hfuel;
    destruct fuel as [| fuel]; simpl in Hfuel; try lia.
  - simpl. now rewrite app_nil_r.
  - simpl. unfold bind, q_empty, try_except, q_get_nowait, ret. simpl.
    rewrite IH by lia. now rewrite <- app_assoc.
Qed.

(** The drain loop always terminates with an empty queue. *)
Lemma drain_queue_spec (w : World) :
  drain_queue w
  = (Ok tt, {| out_q := []; trace := trace w ++ map QGetNowait (out_q w) |}).
Proof.
  unfold drain_queue. destruct w as [q tr]. simpl out_q. simpl trace.
  apply drain_spec. lia.
Qed.

(** [main.py]: an interruption empties the queue and leaves exactly the
    [interrupted] marker in it. *)
Lemma relay_interrupted_spec (sc : pyval) (w : World) :
  truthy sc = true ->
  truthy (getattr sc "interrupted" (PBool false)) = true ->
  relay_interrupted sc w
  = (Ok tt, {| out_q := [Interrupted];
               trace := trace w ++ map QGetNowait (out_q w) ++ [QPut Interrupted] |}).
Proof.
  intros Hsc Hi. unfold relay_interrupted. rewrite Hsc, Hi.
  unfold bind. rewrite drain_queue_spec. unfold q_put. simpl.
  now rewrite <- app_assoc.
Qed.

(** [gemini_live.py]: an interruption empties the queue and enqueues
    nothing. *)
Lemma bridge_interrupted_spec (sc : pyval) (w : World) :
  truthy sc = true ->
  truthy (getattr sc "interrupted" (PBool false)) = true ->
  bridge_interrupted sc w
  = (Ok tt, {| out_q := []; trace := trace w ++ map QGetNowait (out_q w) |}).
Proof.
  intros Hsc Hi. unfold bridge_interrupted. rewrite Hsc, Hi.
  apply drain_queue_spec.
Qed.

Lemma enqueued_app (t1 t2 : list effect) :
  enqueued (t1 ++ t2) = enqueued t1 ++ enqueued t2.
Proof. apply flat_map_app. Qed.

Lemma delivered_app (t1 t2 : list effect) :
  delivered (t1 ++ t2) = delivered t1 ++ delivered t2.
Proof. apply flat_map_app. Qed.

Lemma enqueued_drained (q : list pyval) : enqueued (map QGetNowait q) = [].
Proof. induction q; simpl; auto. Qed.

Lemma delivered_drained (q : list pyval) : delivered (map QGetNowait q) = [].
Proof. induction q; simpl; auto. Qed.

(** A response that only reports an interruption goes straight to the
    flush. *)
Lemma relay_response_interruption (env : Env) (response : pyval) (w : World) :
  let sc := getattr response "server_content" PNone in
  truthy (getattr response "tool_call" PNone) = false ->
  truthy (getattr sc "model_turn" PNone) = false ->
  truthy sc = true ->
  truthy (getattr sc "interrupted" (PBool false)) = true ->
  relay_response env response w
  = (Ok tt, {| out_q := [Interrupted];
               trace := trace w ++ map QGetNowait (out_q w) ++ [QPut Interrupted] |}).
Proof.
  intros sc Htc Hmt Hsc Hi. unfold relay_response, relay_tool_call, relay_model_turn.
  fold sc. rewrite Htc, Hmt, Hsc. simpl andb. cbv iota.
  unfold bind at 1. unfold ret at 1. unfold bind at 1. unfold ret at 1.
  now apply relay_interrupted_spec.
Qed.

(** A send leaves the queue alone and delivers nothing by itself. *)
Lemma send_json_world (env : Env) (obj : pyval) (w : World) :
  out_q (snd (send_json env obj w)) = out_q w
  /\ delivered (trace (snd (send_json env obj w))) = delivered (trace w).
Proof.
  unfold send_json.
  destruct (Json.json_dumps obj) as [encoded |]; [| now split].
  destruct obj; try now split.
  unfold perform.
  destruct (io_outcome env (trace w) (WsSendText encoded)); simpl;
    rewrite delivered_app; simpl; now rewrite List.app_nil_r.
Qed.

(** The delivery loop sees the queue from its head, in order. *)
Lemma gemini_to_client_prefix (env : Env) (n : nat) :
  forall w, exists k,
    delivered (trace (snd (gemini_to_client env n w)))
    = delivered (trace w) ++ firstn k (out_q w).
Proof.
  induction n as [| n IH]; intros w.
  - exists 0. simpl. now rewrite List.app_nil_r.
  - simpl. unfold bind at 1. unfold q_get.
    destruct w as [[| evt q] tr]; simpl.
    + exists 0. simpl. now rewrite List.app_nil_r.
    + unfold bind.
      destruct (send_json_world env evt {| out_q := q; trace := tr ++ [QGet evt] |})
        as [Hq Ht].
      destruct (send_json env evt {| out_q := q; trace := tr ++ [QGet evt] |})
        as [[[] | e] w2]; simpl in *.
      * destruct (IH w2) as [k Hk]. exists (S k).
        rewrite Hk, Ht, Hq, delivered_app. simpl.
        now rewrite <- List.app_assoc.
      * exists 1. rewrite Ht, delivered_app. reflexivity.
Qed.

(** When every send goes through, the loop delivers the whole queue. *)
Lemma gemini_to_client_all (env : Env) :
  (forall tr e, io_outcome env tr e = None) ->
  forall q tr,
    Forall (fun evt => isinstance_dict evt = true /\ Json.json_dumps evt <> None) q ->
    delivered (trace (snd (gemini_to_client env (List.length q)
                             {| out_q := q; trace := tr |})))
    = delivered tr ++ q.
Proof.
  intros Hio q. induction q as [| evt q IH]; intros tr Hq.
  - simpl. now rewrite List.app_nil_r.
  - inversion Hq as [| ? ? [Hdict Hevt] Hq']; subst. simpl.
    unfold bind at 1. unfold q_get. simpl. unfold bind, send_json.
    destruct (Json.json_dumps evt) as [encoded |]; [| congruence].
    destruct evt; try discriminate Hdict.
    unfold perform. rewrite Hio. simpl. unfold log_call. simpl.
    rewrite IH by assumption. rewrite !delivered_app. simpl.
    rewrite List.app_nil_r. now rewrite <- List.app_assoc.
Qed.

(** ** The tool-dispatch loop, one request at a time *)

Lemma has_id_true (fc : pyval) :
  has_id fc = true <-> exists c s, getattr fc "id" PNone = PStr (c :: s).
Proof.
  unfold has_id. destruct (getattr fc "id" PNone) as [| | | | [| c s] | | | |];
    simpl; split; intros H; try discriminate; try (now destruct H as (? & ? & ?));
    eauto.
Qed.

Lemma has_name_true (fc : pyval) :
  has_name fc = true <-> exists c s, getattr fc "name" PNone = PStr (c :: s).
Proof.
  unfold has_name. destruct (getattr fc "name" PNone) as [| | | | [| c s] | | | |];
    simpl; split; intros H; try discriminate; try (now destruct H as (? & ? & ?));
    eauto.
Qed.

Lemma dispatch_without_id (env : Env) (fc : pyval) (frs : list pyval) (w : World) :
  has_id fc = false ->
  let evt :=
    ErrorEvent (lit "Tool call missing id: " ++ py_str env (getattr fc "name" PNone)) in
  dispatch_function_call env fc frs w
  = (Ok frs, {| out_q := out_q w ++ [evt]; trace := trace w ++ [QPut evt] |}).
Proof.
  intros H evt. unfold dispatch_function_call. unfold has_id in H.
  rewrite <- negb_andb, H. reflexivity.
Qed.

Lemma dispatch_without_name (env : Env) (fc : pyval) (frs : list pyval) (w : World) :
  has_id fc = true ->
  has_name fc = false ->
  dispatch_function_call env fc frs w
  = (Ok (frs ++ [reply_entry (getattr fc "id" PNone)
                   (py_or (getattr fc "name" PNone) (pstr "unknown_tool"))
                   (PDict [item "error" (pstr "missing_function_name")])]), w).
Proof.
  intros Hid Hname. unfold dispatch_function_call. unfold has_id in Hid.
  unfold has_name in Hname. rewrite <- !negb_andb, Hid, Hname. reflexivity.
Qed.

Lemma dispatch_with_call (env : Env) (fc : pyval) (frs : list pyval) (w : World) :
  has_id fc = true ->
  has_name fc = true ->
  let fn_id := getattr fc "id" PNone in
  let fn_name := getattr fc "name" PNone in
  let response :=
    match call_tool_outcome env (trace w) fn_name (call_args fc) with
    | inl mcp_result =>
        match mcp_result_to_payload env mcp_result with
        | Ok payload => PDict [item "output" payload]
        | Raise e => PDict [item "error" (PStr (exn_str e))]
        end
    | inr e => PDict [item "error" (PStr (exn_str e))]
    end in
  dispatch_function_call env fc frs w
  = (Ok (frs ++ [reply_entry fn_id fn_name response]),
     log_call (McpCallTool fn_name (call_args fc)) w).
Proof.
  intros Hid Hname fn_id fn_name response. unfold dispatch_function_call.
  unfold has_id in Hid. unfold has_name in Hname.
  rewrite <- !negb_andb, Hid, Hname. cbn [negb]. cbv beta iota.
  unfold try_except, bind, mcp_call_tool, lift, ret.
  subst response fn_id fn_name. unfold call_args.
  destruct (call_tool_outcome env (trace w) (getattr fc "name" PNone) _)
    as [mcp_result | e]; [| reflexivity].
  destruct (mcp_result_to_payload env mcp_result); reflexivity.
Qed.

(** The whole batch: it never raises, every request with an identifier
    leaves one reply entry, every request with an identifier and a name is
    one gateway call, and nothing is sent upstream meanwhile. *)
Lemma dispatch_function_calls_spec (env : Env) (fcs : list pyval) :
  forall (frs : list pyval) (w : World),
  exists frs' t,
    dispatch_function_calls env fcs frs w
    = (Ok frs', {| out_q := out_q w ++ enqueued t; trace := trace w ++ t |})
    /\ List.length frs' = List.length frs + List.length (filter has_id fcs)
    /\ Forall (fun e => is_upstream_send e = false) t
    /\ List.length (filter is_call_tool t)
       = List.length (filter (fun fc => has_id fc && has_name fc) fcs).
Proof.
  induction fcs as [| fc fcs IH]; intros frs w.
  - exists frs, []. simpl. rewrite !List.app_nil_r. destruct w.
    repeat split; auto.
  - simpl dispatch_function_calls. unfold bind.
    destruct (has_id fc) eqn:Hid; [destruct (has_name fc) eqn:Hname |].
    + rewrite dispatch_with_call by assumption.
      edestruct IH as (frs' & t & E & L & F & C). rewrite E. clear E.
      exists frs', (McpCallTool (getattr fc "name" PNone) (call_args fc) :: t).
      rewrite length_app in L. simpl in *. rewrite Hid, Hname. simpl.
      rewrite <- List.app_assoc. repeat split; auto; lia.
    + rewrite dispatch_without_name by assumption.
      edestruct IH as (frs' & t & E & L & F & C). rewrite E. clear E.
      exists frs', t.
      rewrite length_app in L. simpl in *. rewrite Hid, Hname. simpl.
      repeat split; auto; lia.
    + rewrite dispatch_without_id by assumption.
      edestruct IH as (frs' & t & E & L & F & C). rewrite E. clear E.
      eexists frs', (QPut _ :: t).
      simpl in *. rewrite Hid. simpl.
      rewrite <- !List.app_assoc. simpl. repeat split; auto.
Qed.

(** C1: [GeminiLiveBridge.recv_loop] against the flush property.  With
    [A, B, C] buffered, an interruption and then an enqueue of [D], the
    bridge of [gemini_live.py] leaves [D] alone in the queue: the buffered
    events are drained but no [interrupted] event is enqueued, and any
    delivery sees a prefix of [[D]].  The loop of [main.py] leaves
    [[Interrupted; D]] on the same input. *)
Theorem bridge_flush_enqueues_no_marker (A B C D : pyval) :
  let interruption :=
    PObj [item "server_content" (PObj [item "interrupted" (PBool true)])] in
  let buffered := {| out_q := [A; B; C]; trace := [] |} in
  (out_q (snd (bind (recv_loop true {| responses := [interruption]; fault := None |})
                 (fun _ => q_put D) buffered)) = [D]
   /\ forall env n, exists k,
        delivered
          (trace (snd (bind (recv_loop true {| responses := [interruption];
                                               fault := None |})
                         (fun _ => bind (q_put D)
                                     (fun _ => gemini_to_client env n)) buffered)))
        = firstn k [D])
  /\ forall env,
       out_q (snd (bind (gemini_recv_loop env {| responses := [interruption];
                                                 fault := None |})
                     (fun _ => q_put D) buffered)) = [Interrupted; D].
Proof.
  intros interruption buffered. split; [split |].
  - reflexivity.
  - intros env n.
    destruct (gemini_to_client_prefix env n
                {| out_q := [D];
                   trace := [QGetNowait A; QGetNowait B; QGetNowait C; QPut D] |})
      as [k Hk].
    exists k. exact Hk.
  - intros env. reflexivity.
Qed.

(** The flush property on the loop of [main.py]: whatever is buffered, an
    interruption followed by an enqueue of [D] leaves [[Interrupted; D]],
    and the delivery loop sees a prefix of it. *)
Lemma gemini_recv_loop_flush (env : Env) (q : list pyval) (D : pyval) (tr : list effect) :
  let interruption :=
    PObj [item "server_content" (PObj [item "interrupted" (PBool true)])] in
  let after :=
    snd (bind (gemini_recv_loop env {| responses := [interruption]; fault := None |})
           (fun _ => q_put D) {| out_q := q; trace := tr |}) in
  out_q after = [Interrupted; D]
  /\ enqueued (trace after) = enqueued tr ++ [Interrupted; D]
  /\ forall n, exists k,
       delivered (trace (snd (gemini_to_client env n after)))
       = delivered tr ++ firstn k [Interrupted; D].
Proof.
  intros interruption after.
  assert (E : after = {| out_q := [Interrupted; D];
                         trace := tr ++ map QGetNowait q ++ [QPut Interrupted; QPut D] |}).
  { subst after. unfold gemini_recv_loop, read_upstream, try_except, bind.
    simpl relay_responses. unfold bind.
    rewrite relay_response_interruption by reflexivity.
    unfold ret, q_put. simpl. f_equal. rewrite <- !List.app_assoc. reflexivity. }
  rewrite E. simpl. split; [reflexivity | split].
  - rewrite !enqueued_app, enqueued_drained. reflexivity.
  - intros n.
    destruct (gemini_to_client_prefix env n
                {| out_q := [Interrupted; D];
                   trace := tr ++ map QGetNowait q ++ [QPut Interrupted; QPut D] |})
      as [k Hk].
    exists k. rewrite Hk. simpl. f_equal.
    rewrite !delivered_app, delivered_drained. simpl.
    now rewrite List.app_nil_r.
Qed.

(** C2: a request whose identifier is missing, not a string or empty is
    never handed to the Tool Gateway: the only call made for it is the
    enqueue of one [error] event naming the request, and the reply batch
    collected so far is returned unchanged, at any point of any batch. *)
Theorem tool_call_without_id_rejected (env : Env) (fc : pyval)
    (function_responses : list pyval) (w : World) :
  (forall c s, getattr fc "id" PNone <> PStr (c :: s)) ->
  let evt :=
    ErrorEvent (lit "Tool call missing id: " ++ py_str env (getattr fc "name" PNone)) in
  let w' := {| out_q := out_q w ++ [evt]; trace := trace w ++ [QPut evt] |} in
  dispatch_function_call env fc function_responses w = (Ok function_responses, w')
  /\ forall rest,
       dispatch_function_calls env (fc :: rest) function_responses w
       = dispatch_function_calls env rest function_responses w'.
Proof.
  intros Hid evt w'.
  assert (H : has_id fc = false).
  { destruct (has_id fc) eqn:E; trivial.
    apply has_id_true in E. destruct E as (c & s & E). now apply Hid in E. }
  split.
  - now apply dispatch_without_id.
  - intros rest. simpl. unfold bind. now rewrite dispatch_without_id.
Qed.

Lemma tool_call_without_id_rejected_witness :
  dispatch_function_call sample_env (PObj [item "name" (pstr "list_products")]) [] idle
  = (Ok [],
     {| out_q := [ErrorEvent (lit "Tool call missing id: list_products")];
        trace := [QPut (ErrorEvent (lit "Tool call missing id: list_products"))] |}).
Proof.
  apply (tool_call_without_id_rejected sample_env
           (PObj [item "name" (pstr "list_products")]) [] idle).
  intros c s H. vm_compute in H. discriminate H.
Defined.

(** C3: a request with a non-empty identifier whose name is missing, empty
    or not a string is not handed to the Tool Gateway and enqueues nothing:
    the world is unchanged, and the reply batch gains the entry
    [{id, name or "unknown_tool", response: {error: missing_function_name}}]
    for that identifier. *)
Theorem tool_call_without_name_synthesized (env : Env) (fc : pyval)
    (function_responses : list pyval) (w : World) (c : N) (s : pystr) :
  getattr fc "id" PNone = PStr (c :: s) ->
  (forall c' s', getattr fc "name" PNone <> PStr (c' :: s')) ->
  let entry :=
    reply_entry (PStr (c :: s))
      (py_or (getattr fc "name" PNone) (pstr "unknown_tool"))
      (PDict [item "error" (pstr "missing_function_name")]) in
  dispatch_function_call env fc function_responses w
  = (Ok (function_responses ++ [entry]), w)
  /\ field entry "id" = PStr (c :: s)
  /\ field entry "response" = PDict [item "error" (pstr "missing_function_name")].
Proof.
  intros Hid Hname entry.
  assert (H1 : has_id fc = true) by (apply has_id_true; eauto).
  assert (H2 : has_name fc = false).
  { destruct (has_name fc) eqn:E; trivial.
    apply has_name_true in E. destruct E as (c' & s' & E). now apply Hname in E. }
  split; [| split; reflexivity].
  rewrite dispatch_without_name by assumption. subst entry. now rewrite Hid.
Qed.

Lemma tool_call_without_name_synthesized_witness :
  dispatch_function_call sample_env (function_call (pstr "call-1") (PStr [])) [] idle
  = (Ok [reply_entry (pstr "call-1") (pstr "unknown_tool")
           (PDict [item "error" (pstr "missing_function_name")])], idle).
Proof.
  apply (tool_call_without_name_synthesized sample_env
           (function_call (pstr "call-1") (PStr [])) [] idle
           (c := 99%N) (s := lit "all-1")).
  - reflexivity.
  - intros c' s' H. vm_compute in H. discriminate H.
Defined.

(** C4: when the Tool Gateway raises for a request with a non-empty
    identifier and name, the request is resolved by the reply entry
    [{id, name, response: {error: str(e)}}]; the only call made is the
    gateway call, so the queue to the client is untouched, and the loop goes
    on with the rest of the batch instead of raising. *)
Theorem gateway_failure_reported_upstream (env : Env) (fc : pyval)
    (function_responses : list pyval) (w : World)
    (c c' : N) (s s' : pystr) (e : exn) :
  getattr fc "id" PNone = PStr (c :: s) ->
  getattr fc "name" PNone = PStr (c' :: s') ->
  call_tool_outcome env (trace w) (PStr (c' :: s')) (call_args fc) = inr e ->
  let entry :=
    reply_entry (PStr (c :: s)) (PStr (c' :: s'))
      (PDict [item "error" (PStr (exn_str e))]) in
  let w' :=
    {| out_q := out_q w;
       trace := trace w ++ [McpCallTool (PStr (c' :: s')) (call_args fc)] |} in
  dispatch_function_call env fc function_responses w
  = (Ok (function_responses ++ [entry]), w')
  /\ forall rest,
       dispatch_function_calls env (fc :: rest) function_responses w
       = dispatch_function_calls env rest (function_responses ++ [entry]) w'.
Proof.
  intros Hid Hname Hcall entry w'.
  assert (H1 : has_id fc = true) by (apply has_id_true; eauto).
  assert (H2 : has_name fc = true) by (apply has_name_true; eauto).
  assert (E : dispatch_function_call env fc function_responses w
              = (Ok (function_responses ++ [entry]), w')).
  { rewrite dispatch_with_call by assumption. rewrite Hid, Hname, Hcall.
    reflexivity. }
  split; [exact E |].
  intros rest. simpl. unfold bind. now rewrite E.
Qed.

Lemma gateway_failure_reported_upstream_witness :
  dispatch_function_call sample_env
    (function_call (pstr "call-2") (pstr "book")) [] idle
  = (Ok [reply_entry (pstr "call-2") (pstr "book")
           (PDict [item "error" (pstr "Unknown tool")])],
     {| out_q := []; trace := [McpCallTool (pstr "book") (PDict [])] |}).
Proof.
  apply (gateway_failure_reported_upstream sample_env
           (function_call (pstr "call-2") (pstr "book")) [] idle
           (c := 99%N) (c' := 98%N) (s := lit "all-2") (s' := lit "ook")
           (e := Exn "McpError" (lit "Unknown tool"))); reflexivity.
Defined.

(** ** The reply to a tool-call batch *)

Lemma getattr_default (o : pyval) (name : string) (d1 d2 v : pyval) :
  getattr o name d1 = v -> v <> d1 -> getattr o name d2 = v.
Proof.
  unfold getattr. destruct o; try congruence.
  destruct (assoc (lit name) attrs); congruence.
Qed.

(** C5: for a tool-call notification carrying the requests [fcs], the
    calls made while the batch is processed ([t]) contain one gateway call
    per request with an identifier and a name and no upstream send; the
    reply entries number one per request with an identifier; and what the
    notification adds to the trace is [t] followed by a single
    [send_tool_response] of all the entries when there is at least one, and
    by nothing when there is none. *)
Theorem tool_response_sent_once_after_batch (env : Env) (response : pyval)
    (fcs : list pyval) (w : World) :
  getattr (getattr response "tool_call" PNone) "function_calls" PNone = PList fcs ->
  exists function_responses t,
    dispatch_function_calls env fcs [] w
    = (Ok function_responses,
       {| out_q := out_q w ++ enqueued t; trace := trace w ++ t |})
    /\ Forall (fun e => is_upstream_send e = false) t
    /\ List.length (filter is_call_tool t)
       = List.length (filter (fun fc => has_id fc && has_name fc) fcs)
    /\ List.length function_responses = List.length (filter has_id fcs)
    /\ trace (snd (relay_tool_call env response w))
       = trace w ++ t
         ++ match function_responses with
            | [] => []
            | _ :: _ => [SendToolResponse function_responses]
            end.
Proof.
  intros Hfcs.
  destruct (dispatch_function_calls_spec env fcs [] w) as (frs & t & E & L & F & C).
  exists frs, t. repeat split; trivial.
  unfold relay_tool_call.
  assert (Htc : truthy (getattr response "tool_call" PNone) = true).
  { destruct (getattr response "tool_call" PNone); try discriminate Hfcs.
    reflexivity. }
  rewrite Htc, Hfcs. simpl andb.
  destruct fcs as [| fc fcs].
  - simpl. simpl in E. unfold ret in E. injection E as <- Hw.
    apply (f_equal trace) in Hw. simpl in Hw. now rewrite List.app_nil_r.
  - rewrite (getattr_default _ _ (PList []) Hfcs) by discriminate.
    change (trace (snd (bind (dispatch_function_calls env (fc :: fcs) [])
                          (fun frs => match frs with
                                      | [] => ret tt
                                      | _ :: _ => perform env (SendToolResponse frs)
                                      end) w)) = trace w ++ t ++
              match frs with [] => [] | _ :: _ => [SendToolResponse frs] end).
    unfold bind. rewrite E. destruct frs as [| fr frs].
    + simpl. now rewrite List.app_nil_r.
    + unfold perform. simpl.
      destruct (io_outcome env (trace w ++ t) (SendToolResponse (fr :: frs)));
        simpl; now rewrite List.app_assoc.
Qed.

Lemma tool_response_sent_once_after_batch_witness :
  trace (snd (relay_tool_call sample_env
                (PObj [item "tool_call"
                         (PObj [item "function_calls"
                                  (PList [function_call (pstr "call-1") (pstr "list_products");
                                          function_call (pstr "call-2") (PStr [])])])])
                idle))
  = [McpCallTool (pstr "list_products") (PDict []);
     SendToolResponse
       [reply_entry (pstr "call-1") (pstr "list_products")
          (PDict [item "output" (PDict [item "products" (PList [pstr "shampoo"])])]);
        reply_entry (pstr "call-2") (pstr "unknown_tool")
          (PDict [item "error" (pstr "missing_function_name")])]].
Proof.
  destruct (tool_response_sent_once_after_batch sample_env
              (PObj [item "tool_call"
                       (PObj [item "function_calls"
                                (PList [function_call (pstr "call-1") (pstr "list_products");
                                        function_call (pstr "call-2") (PStr [])])])])
              (fcs := [function_call (pstr "call-1") (pstr "list_products");
                       function_call (pstr "call-2") (PStr [])])
              idle eq_refl)
    as (frs & t & E & _ & _ & _ & H).
  vm_compute in E. injection E as Hf _ Ht. subst frs t. exact H.
Defined.

(** ** Response normalization *)

(** C6, as the specification states it, fails on the code: the
    normalization looks at the first content item only, so a text carried
    by a later item is not parsed (first inequality), and a text that is an
    integer of 4301 digits is neither parsed nor wrapped, [json.loads]
    raising [ValueError], which the handler of [JSONDecodeError] lets
    through (second one). *)
Lemma normalization_reads_first_item_only :
  mcp_result_to_payload sample_env
    (PObj [item "content"
             (PList [PObj [item "type" (pstr "image")];
                     PObj [item "text" (pstr "[1, 2]")]])])
  <> Ok (normalization_policy sample_env
           (PObj [item "content"
                    (PList [PObj [item "type" (pstr "image")];
                            PObj [item "text" (pstr "[1, 2]")]])]))
  /\ mcp_result_to_payload sample_env
       (PObj [item "content" (PList [PObj [item "text" (PStr (repeat 49%N 4301))]])])
     <> Ok (normalization_policy sample_env
              (PObj [item "content"
                       (PList [PObj [item "text" (PStr (repeat 49%N 4301))]])])).
Proof. split; vm_compute; discriminate. Qed.

(** C6, amended: [mcp_result_to_payload] applies its four steps in order,
    on the first content item: (1) a structured result is returned as it
    is; (2) otherwise, when the first content item has a [str] text that
    [json.loads] parses, the parse is returned; (3) when [json.loads]
    rejects that text as no JSON, the text is wrapped as [{text: ...}];
    (4) with no content, or with a first item that has no [str] text, the
    result is the [empty_tool_response] error with the stringified result.
    For a content that is absent or a list these steps are all there is, as
    long as [json.loads] raises nothing but [JSONDecodeError]; and the
    outcome depends on the result only through its structured content, its
    content and its string form. *)
Theorem mcp_result_to_payload_policy (env : Env) (result : pyval) :
  let structured := getattr result "structuredContent" PNone in
  let content := getattr result "content" PNone in
  (structured <> PNone -> mcp_result_to_payload env result = Ok structured)
  /\ (forall first rest text parsed,
        structured = PNone ->
        content = PList (first :: rest) ->
        getattr first "text" PNone = PStr text ->
        Json.json_loads text = Some parsed ->
        mcp_result_to_payload env result = Ok parsed)
  /\ (forall first rest text,
        structured = PNone ->
        content = PList (first :: rest) ->
        getattr first "text" PNone = PStr text ->
        Json.loads text = inr Json.JSONDecodeError ->
        mcp_result_to_payload env result = Ok (PDict [item "text" (PStr text)]))
  /\ (structured = PNone ->
      truthy content = false
      \/ (exists first rest,
            content = PList (first :: rest)
            /\ isinstance_str (getattr first "text" PNone) = false) ->
      mcp_result_to_payload env result
      = Ok (PDict [item "error" (pstr "empty_tool_response");
                   item "raw" (PStr (py_str env result))]))
  /\ (content = PNone \/ (exists items, content = PList items) ->
      (forall first rest text,
          content = PList (first :: rest) ->
          getattr first "text" PNone = PStr text ->
          Json.json_loads text <> None
          \/ Json.loads text = inr Json.JSONDecodeError) ->
      exists payload, mcp_result_to_payload env result = Ok payload)
  /\ (forall result',
        getattr result' "structuredContent" PNone = structured ->
        getattr result' "content" PNone = content ->
        py_str env result' = py_str env result ->
        mcp_result_to_payload env result' = mcp_result_to_payload env result).
Proof.
  intros structured content. unfold mcp_result_to_payload.
  fold structured. fold content.
  split; [| split; [| split; [| split; [| split]]]].
  - intros H. destruct structured; try reflexivity. congruence.
  - intros first rest text parsed Hs Hc Ht Hp. rewrite Hs, Hc. simpl.
    now rewrite Ht, Hp.
  - intros first rest text Hs Hc Ht Hp. rewrite Hs, Hc. simpl. rewrite Ht.
    unfold Json.json_loads, Json.loads_failure. now rewrite Hp.
  - intros Hs [Hc | (first & rest & Hc & Ht)]; rewrite Hs; simpl.
    + unfold py_or. rewrite Hc. reflexivity.
    + rewrite Hc. simpl.
      destruct (getattr first "text" PNone); try reflexivity. discriminate Ht.
  - intros Hshape Hloads.
    destruct (negb (is_none structured)); [eexists; reflexivity |].
    destruct Hshape as [Hc | (items & Hc)]; rewrite Hc in *;
      [eexists; reflexivity |].
    destruct items as [| first rest]; [eexists; reflexivity |]. simpl.
    destruct (getattr first "text" PNone) as [| | | | text | | | |] eqn:Ht;
      try (eexists; reflexivity).
    destruct (Hloads first rest text eq_refl Ht) as [Hp | Hp].
    + destruct (Json.json_loads text); [eexists; reflexivity | congruence].
    + unfold Json.json_loads, Json.loads_failure. rewrite Hp.
      eexists; reflexivity.
  - intros result' Hs Hc Hstr. rewrite Hs, Hc, Hstr. reflexivity.
Qed.

Lemma mcp_result_to_payload_policy_witness :
  mcp_result_to_payload sample_env
    (PObj [item "structuredContent" (PDict [item "ok" (PBool true)])])
  = Ok (PDict [item "ok" (PBool true)])
  /\ mcp_result_to_payload sample_env
       (PObj [item "content" (PList [PObj [item "text" (pstr "[1, 2]")]])])
     = Ok (PList [PInt 1; PInt 2])
  /\ mcp_result_to_payload sample_env
       (PObj [item "content" (PList [PObj [item "text" (pstr "no data")]])])
     = Ok (PDict [item "text" (pstr "no data")])
  /\ mcp_result_to_payload sample_env (PObj [item "content" (PList [])])
     = Ok (PDict [item "error" (pstr "empty_tool_response");
                  item "raw" (pstr "<object>")]).
Proof.
  split; [| split; [| split]].
  - apply (proj1 (mcp_result_to_payload_policy sample_env
             (PObj [item "structuredContent" (PDict [item "ok" (PBool true)])]))).
    vm_compute. discriminate.
  - apply (proj1 (proj2 (mcp_result_to_payload_policy sample_env
             (PObj [item "content" (PList [PObj [item "text" (pstr "[1, 2]")]])])))
             (PObj [item "text" (pstr "[1, 2]")]) [] (lit "[1, 2]"));
      reflexivity.
  - apply (proj1 (proj2 (proj2 (mcp_result_to_payload_policy sample_env
             (PObj [item "content" (PList [PObj [item "text" (pstr "no data")]])]))))
             (PObj [item "text" (pstr "no data")]) [] (lit "no data"));
      reflexivity.
  - apply (proj1 (proj2 (proj2 (proj2 (mcp_result_to_payload_policy sample_env
             (PObj [item "content" (PList [])])))))).
    + reflexivity.
    + left. reflexivity.
Defined.

(** ** Establishing the upstream session *)

Lemma str_eqb_eq (a b : pystr) : str_eqb a b = true <-> a = b.
Proof.
  revert b. induction a as [| x a IH]; intros [| y b]; simpl; split;
    try congruence; try discriminate.
  - intros H. apply andb_prop in H. destruct H as [H1 H2].
    apply N.eqb_eq in H1. apply IH in H2. congruence.
  - intros H. injection H as -> ->. rewrite N.eqb_refl. now apply IH.
Qed.

Lemma str_eqb_refl (a : pystr) : str_eqb a a = true.
Proof. now apply str_eqb_eq. Qed.

(** The minimal configuration holds exactly the entries of the full one
    under the three kept keys. *)
Lemma minimal_cfg_entries (cfg : list (pystr * pyval)) (k : pystr) (v : pyval) :
  In (k, v) (minimal_cfg cfg)
  <-> In (k, v) cfg
      /\ (k = lit "response_modalities" \/ k = lit "system_instruction"
          \/ k = lit "tools").
Proof.
  unfold minimal_cfg. rewrite filter_In. unfold minimal_key. simpl fst.
  rewrite !orb_true_iff, !str_eqb_eq. tauto.
Qed.

(** At most two connection attempts are ever made. *)
Lemma establish_upstream_attempts (env : Env) (model : pystr)
    (cfg : list (pystr * pyval)) (w : World) :
  let full := LiveConnect model (PDict cfg) in
  let reduced := LiveConnect model (PDict (minimal_cfg cfg)) in
  exists t,
    trace (snd (establish_upstream env model cfg w)) = trace w ++ t
    /\ (t = [full] \/ t = [full; reduced]).
Proof.
  intros full reduced. unfold establish_upstream, try_except, bind, perform, ret.
  fold full. fold reduced.
  destruct (io_outcome env (trace w) full); simpl.
  - exists [full; reduced].
    destruct (io_outcome env (trace w ++ [full]) reduced); simpl;
      rewrite <- List.app_assoc; auto.
  - exists [full]. auto.
Qed.

Lemma ready_serializable (model : pystr) :
  exists encoded, Json.json_dumps (Ready model) = Some encoded.
Proof. eexists. reflexivity. Qed.

(** C7: when the connection with the full configuration raises and the
    one retry with the minimal configuration goes through, the bridge
    reaches [ACTIVE] on the session opened with the minimal configuration;
    the calls made are the two connection attempts and the send of the
    encoded [ready] event, so no error event goes to the client.  The
    minimal configuration holds exactly the entries of the full one under
    [response_modalities], [system_instruction] and [tools], and there is
    never a third attempt. *)
Theorem upstream_retry_with_minimal_config (env : Env) (model : pystr)
    (cfg : list (pystr * pyval)) (pending_first_message : pyval) (w : World)
    (e : exn) :
  let full := LiveConnect model (PDict cfg) in
  let reduced := LiveConnect model (PDict (minimal_cfg cfg)) in
  io_outcome env (trace w) full = Some e ->
  io_outcome env (trace w ++ [full]) reduced = None ->
  (forall encoded,
      io_outcome env (trace w ++ [full; reduced]) (WsSendText encoded) = None) ->
  (exists encoded,
      Json.json_dumps (Ready model) = Some encoded
      /\ open_session env model cfg pending_first_message w
         = (Ok (ACTIVE model (minimal_cfg cfg) pending_first_message),
            {| out_q := out_q w;
               trace := trace w ++ [full; reduced; WsSendText encoded] |}))
  /\ (forall k v,
        In (k, v) (minimal_cfg cfg)
        <-> In (k, v) cfg
            /\ (k = lit "response_modalities" \/ k = lit "system_instruction"
                \/ k = lit "tools"))
  /\ (forall w0, exists t,
        trace (snd (establish_upstream env model cfg w0)) = trace w0 ++ t
        /\ (t = [full] \/ t = [full; reduced])).
Proof.
  intros full reduced Hfull Hreduced Hready.
  split; [| split; [apply minimal_cfg_entries | apply establish_upstream_attempts]].
  destruct (ready_serializable model) as [encoded Henc].
  exists encoded. split; [exact Henc |].
  unfold open_session, establish_upstream, announce_ready, send_json.
  fold (Ready model). rewrite Henc.
  unfold try_except, bind, perform, ret, log_call. fold full. fold reduced.
  rewrite Hfull. cbn [trace out_q]. rewrite Hreduced. cbn [trace out_q].
  rewrite <- List.app_assoc. cbn [app]. rewrite Hready. cbn [trace out_q].
  rewrite <- List.app_assoc. reflexivity.
Qed.

Lemma upstream_retry_with_minimal_config_witness :
  exists encoded,
    Json.json_dumps (Ready DEFAULT_MODEL) = Some encoded
    /\ open_session sample_env DEFAULT_MODEL DEFAULT_CONFIG PNone idle
       = (Ok (ACTIVE DEFAULT_MODEL (minimal_cfg DEFAULT_CONFIG) PNone),
          {| out_q := [];
             trace := [LiveConnect DEFAULT_MODEL (PDict DEFAULT_CONFIG);
                       LiveConnect DEFAULT_MODEL (PDict (minimal_cfg DEFAULT_CONFIG));
                       WsSendText encoded] |}).
Proof.
  apply (proj1 (upstream_retry_with_minimal_config sample_env DEFAULT_MODEL
                  DEFAULT_CONFIG PNone idle
                  (e := Exn "APIError" (lit "unsupported configuration"))
                  eq_refl eq_refl (fun _ => eq_refl))).
Defined.

(** ** The mime type of relayed audio *)

Lemma puts_enqueued (Q : pyval -> Prop) (t : list effect) :
  Forall (puts Q) t -> Forall Q (enqueued t).
Proof.
  induction 1 as [| e t He _ IH]; simpl; [constructor |].
  apply Forall_app. split; [| exact IH].
  destruct e; simpl; auto.
Qed.

(** The receive loops enqueue four kinds of events; what holds of the four
    holds of everything they enqueue. *)
Section RelayedEvents.

Variable Q : pyval -> Prop.
Hypothesis QError : forall message, Q (ErrorEvent message).
Hypothesis QAudio : forall data, Q (AudioEvent data (lit "audio/pcm;rate=24000")).
Hypothesis QText : forall text, Q (TextEvent text).
Hypothesis QInterrupted : Q Interrupted.

Lemma relay_part_puts (part : pyval) : emits (puts Q) (relay_part part).
Proof.
  unfold relay_part. apply emits_bind.
  - destruct (truthy (getattr part "inline_data" PNone)); [| apply emits_ret].
    destruct (getattr (getattr part "inline_data" PNone) "data" PNone);
      try apply emits_ret.
    apply emits_bind; [apply emits_call_b64e |].
    intros encoded. apply emits_q_put. apply QAudio.
  - intros _. destruct (getattr part "text" PNone); try apply emits_ret.
    destruct (truthy (PStr (strip s))); [| apply emits_ret].
    apply emits_q_put. apply QText.
Qed.

Lemma relay_model_turn_puts (sc : pyval) : emits (puts Q) (relay_model_turn sc).
Proof.
  unfold relay_model_turn.
  destruct (truthy sc && truthy (getattr sc "model_turn" PNone));
    [| apply emits_ret].
  apply emits_bind; [apply emits_py_attr |]. intros model_turn.
  apply emits_bind; [apply emits_iterate |]. intros parts.
  induction parts as [| part parts IH]; simpl; [apply emits_ret |].
  apply emits_bind; [apply relay_part_puts | intros _; exact IH].
Qed.

Lemma dispatch_function_calls_puts (env : Env) (fcs : list pyval) :
  forall frs, emits (puts Q) (dispatch_function_calls env fcs frs).
Proof.
  induction fcs as [| fc fcs IH]; intros frs; simpl; [apply emits_ret |].
  apply emits_bind; [| intros frs'; apply IH].
  unfold dispatch_function_call.
  destruct (negb (isinstance_str (getattr fc "id" PNone))
            || negb (truthy (getattr fc "id" PNone))).
  - apply emits_bind; [| intros _; apply emits_ret].
    apply emits_q_put. apply QError.
  - destruct (negb (isinstance_str (getattr fc "name" PNone))
              || negb (truthy (getattr fc "name" PNone))); [apply emits_ret |].
    apply emits_try_except; [| intros e; apply emits_ret].
    apply emits_bind; [now apply emits_mcp_call_tool |]. intros mcp_result.
    apply emits_bind; [apply emits_lift | intros payload; apply emits_ret].
Qed.

Lemma relay_response_puts (env : Env) (response : pyval) :
  emits (puts Q) (relay_response env response).
Proof.
  unfold relay_response. apply emits_bind; [| intros _; apply emits_bind].
  - unfold relay_tool_call.
    destruct (truthy (getattr response "tool_call" PNone)
              && truthy (getattr (getattr response "tool_call" PNone)
                           "function_calls" PNone)); [| apply emits_ret].
    apply emits_bind; [apply emits_iterate |]. intros fcs.
    apply emits_bind; [apply dispatch_function_calls_puts |].
    intros [| fr frs]; [apply emits_ret | now apply emits_perform].
  - apply relay_model_turn_puts.
  - intros _. unfold relay_interrupted.
    destruct (truthy _); [| apply emits_ret].
    apply emits_bind; [now apply emits_drain_queue |]. intros _.
    apply emits_q_put. apply QInterrupted.
Qed.

Lemma bridge_response_puts (resp : pyval) : emits (puts Q) (bridge_response resp).
Proof.
  unfold bridge_response. apply emits_bind; [apply relay_model_turn_puts |].
  intros _. unfold bridge_interrupted.
  destruct (truthy _); [now apply emits_drain_queue | apply emits_ret].
Qed.

Lemma read_upstream_puts (body : pyval -> M unit) (up : Upstream) :
  (forall response, emits (puts Q) (body response)) ->
  emits (puts Q) (read_upstream body up).
Proof.
  intros Hbody. unfold read_upstream. apply emits_bind.
  - induction (responses up) as [| response rest IH]; simpl; [apply emits_ret |].
    apply emits_bind; [apply Hbody | intros _; exact IH].
  - intros _. destruct (fault up); [apply emits_raise | apply emits_ret].
Qed.

Lemma gemini_recv_loop_puts (env : Env) (up : Upstream) :
  emits (puts Q) (gemini_recv_loop env up).
Proof.
  unfold gemini_recv_loop. apply emits_try_except.
  - apply read_upstream_puts. apply relay_response_puts.
  - intros e. apply emits_q_put. apply QError.
Qed.

Lemma recv_loop_puts (session_started : bool) (up : Upstream) :
  emits (puts Q) (recv_loop session_started up).
Proof.
  unfold recv_loop. destruct (negb session_started); [apply emits_raise |].
  apply read_upstream_puts. apply bridge_response_puts.
Qed.

End RelayedEvents.

(** Both loops only enqueue events that the wire format carries. *)
Lemma relayed_events_representable (env : Env) (up : Upstream)
    (session_started : bool) (w : World) :
  Forall representable
    (enqueued (skipn (List.length (trace w))
                 (trace (snd (gemini_recv_loop env up w)))))
  /\ Forall representable
       (enqueued (skipn (List.length (trace w))
                    (trace (snd (recv_loop session_started up w))))).
Proof.
  assert (HQ : (forall message, representable (ErrorEvent message))
               /\ (forall data, representable
                                  (AudioEvent data (lit "audio/pcm;rate=24000")))
               /\ (forall text, representable (TextEvent text))
               /\ representable Interrupted).
  { repeat split; try (eexists; reflexivity);
      repeat constructor; simpl; intuition discriminate. }
  destruct HQ as (H1 & H2 & H3 & H4).
  split.
  - destruct (@gemini_recv_loop_puts representable H1 H2 H3 H4 env up w) as (t & E & F).
    rewrite E, skipn_app, skipn_all, Nat.sub_diag. simpl.
    now apply puts_enqueued.
  - destruct (@recv_loop_puts representable H2 H3 session_started up w) as (t & E & F).
    rewrite E, skipn_app, skipn_all, Nat.sub_diag. simpl.
    now apply puts_enqueued.
Qed.

(** C9: whatever the upstream stream holds, every event enqueued by the
    receive loop of [main.py] and by the one of [gemini_live.py] whose
    [type] is [audio] has the [mime_type] [audio/pcm;rate=24000]. *)
Theorem audio_events_carry_output_mime (env : Env) (up : Upstream)
    (session_started : bool) (w : World) :
  (exists t,
      trace (snd (gemini_recv_loop env up w)) = trace w ++ t
      /\ Forall audio_mime_ok (enqueued t))
  /\ (exists t,
        trace (snd (recv_loop session_started up w)) = trace w ++ t
        /\ Forall audio_mime_ok (enqueued t)).
Proof.
  assert (H1 : forall message, audio_mime_ok (ErrorEvent message))
    by (intros message H; discriminate H).
  assert (H2 : forall data, audio_mime_ok (AudioEvent data (lit "audio/pcm;rate=24000")))
    by (intros data _; reflexivity).
  assert (H3 : forall text, audio_mime_ok (TextEvent text))
    by (intros text H; discriminate H).
  assert (H4 : audio_mime_ok Interrupted) by (intros H; discriminate H).
  split.
  - destruct (@gemini_recv_loop_puts audio_mime_ok H1 H2 H3 H4 env up w) as (t & E & F).
    exists t. split; trivial. now apply puts_enqueued.
  - destruct (@recv_loop_puts audio_mime_ok H2 H3 session_started up w) as (t & E & F).
    exists t. split; trivial. now apply puts_enqueued.
Qed.

(** The mime type of the upstream part is not looked at. *)
Lemma relay_part_audio_example :
  enqueued
    (trace (snd (relay_part
                   (PObj [item "inline_data"
                            (PObj [item "data" (PBytes ["a"%byte]);
                                   item "mime_type" (pstr "audio/ogg")])])
                   idle)))
  = [AudioEvent (lit "YQ==") (lit "audio/pcm;rate=24000")].
Proof. reflexivity. Qed.

(** ** Client audio without string data *)

(** C10: an [audio] message whose [data] is missing or is not a string
    changes nothing: no call is made (no upstream send, no frame to the
    client), no exception is raised ([b64d] is not reached), and the
    session goes on: once the message is handled, the loop over the
    client's frames is where it would be without it, whether the message
    came as a frame or as the pending first message. *)
Theorem audio_without_string_data_ignored (env : Env)
    (msg : list (pystr * pyval)) (w : World) :
  assoc (lit "type") msg = Some (pstr "audio") ->
  (forall s, assoc (lit "data") msg <> Some (PStr s)) ->
  handle_client_msg env (PDict msg) w = (Ok tt, w)
  /\ (forall rest,
        bind (handle_client_msg env (PDict msg)) (fun _ => client_frames env rest) w
        = client_frames env rest w)
  /\ (forall frames,
        client_to_gemini env frames (Some (PDict msg)) w
        = client_to_gemini env frames None w).
Proof.
  intros Ht Hd.
  assert (E : handle_client_msg env (PDict msg) w = (Ok tt, w)).
  { unfold handle_client_msg, py_get, bind, ret. rewrite Ht.
    change (eq_lit (pstr "audio") "audio") with true. cbv iota.
    destruct (assoc (lit "data") msg) as [[] |]; try reflexivity.
    now elim (Hd s). }
  split; [exact E |]. split.
  - intros rest. unfold bind. now rewrite E.
  - intros frames. unfold client_to_gemini, try_except, bind. rewrite E.
    reflexivity.
Qed.

Lemma audio_without_string_data_ignored_witness :
  handle_client_msg sample_env
    (PDict [item "type" (pstr "audio"); item "data" (PInt 5)]) idle
  = (Ok tt, idle).
Proof.
  apply (proj1 (audio_without_string_data_ignored sample_env
                  [item "type" (pstr "audio"); item "data" (PInt 5)] idle
                  eq_refl
                  (fun s H => eq_ind (Some (PInt 5))
                     (fun o => match o with Some (PInt _) => True | _ => False end)
                     I (Some (PStr s)) H))).
Defined.

(* ===================================================================== *)
(** * The wire encoding *)
(* ===================================================================== *)

(** ** Base64 *)

Lemma all_below_spec (n : nat) (P : N -> bool) :
  all_below n P = true -> forall x, (x < N.of_nat n)%N -> P x = true.
Proof.
  unfold all_below, below. intros H x Hx.
  rewrite forallb_forall in H. apply H.
  apply in_map_iff. exists (N.to_nat x). split; [apply N2Nat.id |].
  apply in_seq. lia.
Qed.

Ltac unbool :=
  repeat match goal with
         | H : (_ && _) = true |- _ => apply andb_prop in H; destruct H
         | H : (_ <? _)%N = true |- _ => apply N.ltb_lt in H
         | H : (_ =? _)%N = true |- _ => apply N.eqb_eq in H
         end.

Lemma byte_of_to_N (x : byte) : Base64.byte_of_N (Byte.to_N x) = x.
Proof.
  unfold Base64.byte_of_N. pose proof (Byte.to_N_bounded x) as H.
  rewrite N.mod_small by lia. now rewrite Byte.of_to_N.
Qed.

Lemma to_N_lt_256 (x : byte) : (Byte.to_N x < 256)%N.
Proof. pose proof (Byte.to_N_bounded x). lia. Qed.

(** The two tables are inverse on the sextets, and no sextet is written as
    the pad or outside ASCII. *)
Lemma table_a2b_b2a (v : N) :
  (v < 64)%N ->
  Base64.table_a2b (Base64.table_b2a v) = Some v
  /\ Byte.eqb (Base64.table_b2a v) Base64.BASE64_PAD = false
  /\ (Byte.to_N (Base64.table_b2a v) <? 128)%N = true.
Proof.
  intros Hv.
  assert (H : (match Base64.table_a2b (Base64.table_b2a v) with
               | Some v' => N.eqb v' v
               | None => false
               end
               && negb (Byte.eqb (Base64.table_b2a v) Base64.BASE64_PAD)
               && (Byte.to_N (Base64.table_b2a v) <? 128)%N) = true).
  { revert v Hv. apply (all_below_spec 64). vm_compute. reflexivity. }
  apply andb_prop in H. destruct H as [H H3]. apply andb_prop in H.
  destruct H as [H1 H2]. repeat split; trivial.
  - destruct (Base64.table_a2b (Base64.table_b2a v)); [| discriminate].
    apply N.eqb_eq in H1. now subst.
  - now apply negb_true_iff.
Qed.

(** A byte splits into the parts the sextets are made of, and is put back
    together from them. *)
Lemma byte_parts (b : N) :
  (b < 256)%N ->
  (N.shiftr b 2 < 64 /\ N.land b 3 < 4 /\ N.shiftr b 4 < 16
   /\ N.land b 15 < 16 /\ N.shiftr b 6 < 4 /\ N.land b 63 < 64
   /\ N.lor (N.shiftl (N.shiftr b 2) 2) (N.land b 3) = b
   /\ N.lor (N.shiftl (N.shiftr b 4) 4) (N.land b 15) = b
   /\ N.lor (N.shiftl (N.shiftr b 6) 6) (N.land b 63) = b)%N.
Proof.
  intros Hb.
  assert (H : ((N.shiftr b 2 <? 64) && (N.land b 3 <? 4) && (N.shiftr b 4 <? 16)
               && (N.land b 15 <? 16) && (N.shiftr b 6 <? 4) && (N.land b 63 <? 64)
               && (N.lor (N.shiftl (N.shiftr b 2) 2) (N.land b 3) =? b)
               && (N.lor (N.shiftl (N.shiftr b 4) 4) (N.land b 15) =? b)
               && (N.lor (N.shiftl (N.shiftr b 6) 6) (N.land b 63) =? b))%N = true).
  { revert b Hb. apply (all_below_spec 256). vm_compute. reflexivity. }
  unbool. repeat split; assumption.
Qed.

(** Two bits above four bits make a sextet from which both come back. *)
Lemma join_high (q h : N) :
  (q < 4)%N -> (h < 16)%N ->
  let v := N.lor (N.shiftl q 4) h in
  (v < 64 /\ N.shiftr v 4 = q /\ N.land v 15 = h)%N.
Proof.
  intros Hq Hh v. subst v.
  assert (H : all_below 16
                (fun h => (N.lor (N.shiftl q 4) h <? 64)
                          && (N.shiftr (N.lor (N.shiftl q 4) h) 4 =? q)
                          && (N.land (N.lor (N.shiftl q 4) h) 15 =? h))%N = true).
  { revert q Hq. apply (all_below_spec 4). vm_compute. reflexivity. }
  apply all_below_spec with (x := h) in H; [| exact Hh].
  unbool. repeat split; assumption.
Qed.

(** Four bits above two bits likewise. *)
Lemma join_low (l t : N) :
  (l < 16)%N -> (t < 4)%N ->
  let v := N.lor (N.shiftl l 2) t in
  (v < 64 /\ N.shiftr v 2 = l /\ N.land v 3 = t)%N.
Proof.
  intros Hl Ht v. subst v.
  assert (H : all_below 4
                (fun t => (N.lor (N.shiftl l 2) t <? 64)
                          && (N.shiftr (N.lor (N.shiftl l 2) t) 2 =? l)
                          && (N.land (N.lor (N.shiftl l 2) t) 3 =? t))%N = true).
  { revert l Hl. apply (all_below_spec 16). vm_compute. reflexivity. }
  apply all_below_spec with (x := t) in H; [| exact Ht].
  unbool. repeat split; assumption.
Qed.

(** The decoder on one character of the alphabet. *)
Lemma a2b_loop_sextet (v : N) (rest : list byte) (quad_pos : nat)
    (leftchar : N) (pads : nat) (bin_data : list byte) :
  (v < 64)%N ->
  Base64.a2b_loop (Base64.table_b2a v :: rest) quad_pos leftchar pads bin_data
  = match quad_pos with
    | 0 => Base64.a2b_loop rest 1 v 0 bin_data
    | 1 =>
        Base64.a2b_loop rest 2 (N.land v 15) 0
          (bin_data ++ [Base64.byte_of_N (N.lor (N.shiftl leftchar 2) (N.shiftr v 4))])
    | 2 =>
        Base64.a2b_loop rest 3 (N.land v 3) 0
          (bin_data ++ [Base64.byte_of_N (N.lor (N.shiftl leftchar 4) (N.shiftr v 2))])
    | _ =>
        Base64.a2b_loop rest 0 0%N 0
          (bin_data ++ [Base64.byte_of_N (N.lor (N.shiftl leftchar 6) v)])
    end.
Proof.
  intros Hv. destruct (table_a2b_b2a Hv) as (Ht & Hp & _).
  simpl. now rewrite Hp, Ht.
Qed.

(** One full group: four characters give back the three bytes. *)
Lemma a2b_loop_group (x0 x1 x2 : byte) (rest : list byte) (leftchar : N)
    (pads : nat) (bin_data : list byte) :
  let b0 := Byte.to_N x0 in
  let b1 := Byte.to_N x1 in
  let b2 := Byte.to_N x2 in
  Base64.a2b_loop
    (Base64.table_b2a (sextet0 b0) :: Base64.table_b2a (sextet1 b0 b1)
     :: Base64.table_b2a (sextet2 b1 b2) :: Base64.table_b2a (sextet3 b2) :: rest)
    0 leftchar pads bin_data
  = Base64.a2b_loop rest 0 0%N 0 (bin_data ++ [x0; x1; x2]).
Proof.
  intros b0 b1 b2. unfold sextet0, sextet1, sextet2, sextet3.
  destruct (byte_parts (to_N_lt_256 x0)) as (P0 & Q0 & _ & _ & _ & _ & E0 & _ & _).
  destruct (byte_parts (to_N_lt_256 x1)) as (_ & _ & H1 & L1 & _ & _ & _ & E1 & _).
  destruct (byte_parts (to_N_lt_256 x2)) as (_ & _ & _ & _ & T2 & R2 & _ & _ & E2).
  fold b0 in P0, Q0, E0. fold b1 in H1, L1, E1. fold b2 in T2, R2, E2.
  destruct (join_high Q0 H1) as (V1 & S1 & M1).
  destruct (join_low L1 T2) as (V2 & S2 & M2).
  rewrite !a2b_loop_sextet by assumption.
  rewrite S1, M1, S2, M2, E0, E1, E2.
  subst b0 b1 b2. rewrite !byte_of_to_N, <- !List.app_assoc. reflexivity.
Qed.

(** Decoding what [b2a_base64] wrote, from the start of a quad. *)
Lemma a2b_loop_b2a (bin : list byte) :
  forall (leftchar : N) (pads : nat) (bin_data : list byte),
    Base64.a2b_loop (Base64.b2a_base64 bin) 0 leftchar pads bin_data
    = Some (bin_data ++ bin).
Proof.
  assert (H : forall bin,
             (forall lc pads out,
                 Base64.a2b_loop (Base64.b2a_base64 bin) 0 lc pads out
                 = Some (out ++ bin))
             /\ (forall x lc pads out,
                    Base64.a2b_loop (Base64.b2a_base64 (x :: bin)) 0 lc pads out
                    = Some (out ++ x :: bin))
             /\ (forall x y lc pads out,
                    Base64.a2b_loop (Base64.b2a_base64 (x :: y :: bin)) 0 lc pads out
                    = Some (out ++ x :: y :: bin))).
  { clear bin. induction bin as [| z bin (IH0 & IH1 & IH2)].
    - split; [| split].
      + intros. simpl. now rewrite List.app_nil_r.
      + intros x lc pads out.
        destruct (byte_parts (to_N_lt_256 x)) as (P0 & Q0 & _ & _ & _ & _ & E0 & _ & _).
        destruct (@join_high (N.land (Byte.to_N x) 3) 0 Q0 eq_refl) as (V1 & S1 & M1).
        rewrite N.lor_0_r in V1, S1, M1.
        cbn [Base64.b2a_base64]. rewrite !a2b_loop_sextet by assumption.
        rewrite S1, E0, byte_of_to_N. reflexivity.
      + intros x y lc pads out.
        destruct (byte_parts (to_N_lt_256 x)) as (P0 & Q0 & _ & _ & _ & _ & E0 & _ & _).
        destruct (byte_parts (to_N_lt_256 y)) as (_ & _ & H1 & L1 & _ & _ & _ & E1 & _).
        destruct (join_high Q0 H1) as (V1 & S1 & M1).
        destruct (@join_low (N.land (Byte.to_N y) 15) 0 L1 eq_refl) as (V2 & S2 & M2).
        rewrite N.lor_0_r in V2, S2, M2.
        cbn [Base64.b2a_base64]. rewrite !a2b_loop_sextet by assumption.
        rewrite S1, M1, S2, E0, E1, !byte_of_to_N, <- List.app_assoc. reflexivity.
    - split; [exact (IH1 z) | split; [intros x; exact (IH2 x z) |]].
      intros x y lc pads out. cbn [Base64.b2a_base64].
      fold (sextet0 (Byte.to_N x)). fold (sextet1 (Byte.to_N x) (Byte.to_N y)).
      fold (sextet2 (Byte.to_N y) (Byte.to_N z)). fold (sextet3 (Byte.to_N z)).
      rewrite a2b_loop_group, IH0, <- List.app_assoc. reflexivity. }
  apply H.
Qed.

Lemma list_ind3 (A : Type) (P : list A -> Prop) :
  P [] -> (forall x, P [x]) -> (forall x y, P [x; y]) ->
  (forall x y z l, P l -> P (x :: y :: z :: l)) ->
  forall l, P l.
Proof.
  intros H0 H1 H2 H3 l.
  assert (H : P l /\ (forall x, P (x :: l)) /\ (forall x y, P (x :: y :: l))).
  { induction l as [| z l (IH0 & IH1 & IH2)]; [auto |].
    split; [apply IH1 | split; [intros; apply IH2 | intros; now apply H3]]. }
  apply H.
Qed.

(** [b2a_base64] writes ASCII only. *)
Lemma b2a_base64_ascii (bin : list byte) :
  Forall (fun x => (Byte.to_N x <? 128)%N = true) (Base64.b2a_base64 bin).
Proof.
  induction bin as [| x | x y | x y z bin IH] using list_ind3;
    cbn [Base64.b2a_base64]; [constructor | | |].
  - destruct (byte_parts (to_N_lt_256 x)) as (P0 & Q0 & _).
    destruct (@join_high (N.land (Byte.to_N x) 3) 0 Q0 eq_refl) as (V1 & _).
    rewrite N.lor_0_r in V1.
    repeat constructor; now apply table_a2b_b2a.
  - destruct (byte_parts (to_N_lt_256 x)) as (P0 & Q0 & _).
    destruct (byte_parts (to_N_lt_256 y)) as (_ & _ & H1 & L1 & _).
    destruct (join_high Q0 H1) as (V1 & _).
    destruct (@join_low (N.land (Byte.to_N y) 15) 0 L1 eq_refl) as (V2 & _).
    rewrite N.lor_0_r in V2.
    repeat constructor; now apply table_a2b_b2a.
  - destruct (byte_parts (to_N_lt_256 x)) as (P0 & Q0 & _).
    destruct (byte_parts (to_N_lt_256 y)) as (_ & _ & H1 & L1 & _).
    destruct (byte_parts (to_N_lt_256 z)) as (_ & _ & _ & _ & T2 & R2 & _).
    destruct (join_high Q0 H1) as (V1 & _).
    destruct (join_low L1 T2) as (V2 & _).
    repeat (constructor; [now apply table_a2b_b2a |]). exact IH.
Qed.

Lemma decode_ascii_spec (l : list byte) :
  Forall (fun x => (Byte.to_N x <? 128)%N = true) l ->
  Base64.decode_ascii l = Some (map Byte.to_N l).
Proof.
  induction 1 as [| x l Hx _ IH]; simpl; [reflexivity |].
  now rewrite Hx, IH.
Qed.

Lemma encode_ascii_spec (l : list byte) :
  Forall (fun x => (Byte.to_N x <? 128)%N = true) l ->
  Base64.encode_ascii (map Byte.to_N l) = Some l.
Proof.
  induction 1 as [| x l Hx _ IH]; simpl; [reflexivity |].
  now rewrite Hx, IH, byte_of_to_N.
Qed.

(** [b64e] never raises, and [b64d] gives back what it encoded. *)
Lemma b64_round_trip (b : list byte) :
  exists s, b64e b = Some s /\ b64d s = Some b.
Proof.
  exists (map Byte.to_N (Base64.b2a_base64 b)). unfold b64e, b64d, Base64.b64encode.
  rewrite decode_ascii_spec, encode_ascii_spec by apply b2a_base64_ascii.
  split; [reflexivity |]. unfold Base64.b64decode, Base64.a2b_base64.
  now rewrite a2b_loop_b2a.
Qed.

(** ** JSON strings *)

Lemma N_lt_32_cases (c : N) :
  (c < 32)%N ->
  In c (below 32).
Proof.
  intros H. unfold below. apply in_map_iff. exists (N.to_nat c).
  split; [apply N2Nat.id | apply in_seq; lia].
Qed.

(** The decoder reads one escaped character back. *)
Lemma scanstring_escape_char (c : N) (tail : pystr) :
  Json.scanstring (Json.escape_char c ++ tail)
  = match Json.scanstring tail with
    | Some (content, r) => Some (c :: content, r)
    | None => None
    end.
Proof.
  destruct (N.ltb_spec c 32) as [Hc | Hc].
  - apply N_lt_32_cases in Hc. vm_compute in Hc.
    repeat (destruct Hc as [<- | Hc]; [reflexivity |]). contradiction.
  - unfold Json.escape_char.
    destruct (N.eqb_spec c Json.BACKSLASH) as [-> | H1]; [reflexivity |].
    destruct (N.eqb_spec c Json.QUOTE) as [-> | H2]; [reflexivity |].
    assert (H3 : (c <? 32)%N = false) by now apply N.ltb_ge.
    destruct (N.eqb_spec c 8); [lia |]. destruct (N.eqb_spec c 12); [lia |].
    destruct (N.eqb_spec c 10); [lia |]. destruct (N.eqb_spec c 13); [lia |].
    destruct (N.eqb_spec c 9); [lia |]. rewrite H3.
    cbn [app Json.scanstring].
    apply N.eqb_neq in H1, H2. now rewrite H1, H2, H3.
Qed.

(** [scanstring] undoes [encode_basestring]. *)
Lemma scanstring_encode (s rest : pystr) :
  Json.scanstring (flat_map Json.escape_char s ++ Json.QUOTE :: rest)
  = Some (s, rest).
Proof.
  induction s as [| c s IH]; [reflexivity |].
  cbn [flat_map]. rewrite <- List.app_assoc, scanstring_escape_char.
  now rewrite IH.
Qed.

(** ** JSON integers *)

Lemma uint_chars_digits (u : Decimal.uint) :
  Forall (fun c => Json.is_digit c = true) (Json.uint_chars u).
Proof. induction u; simpl; constructor; auto. Qed.

Lemma uint_of_chars_chars (u : Decimal.uint) :
  Json.uint_of_chars (Json.uint_chars u) = u.
Proof. induction u; simpl; congruence. Qed.

(** A delimiter is no part of a number and no whitespace. *)
Lemma delimited_head (c : N) (rest : pystr) :
  Json.delimited (c :: rest) ->
  Json.is_digit c = false /\ (c =? 46)%N = false /\ (c =? 101)%N = false
  /\ (c =? 69)%N = false /\ Json.is_ws c = false.
Proof. simpl. intros [-> | [-> | ->]]; repeat split. Qed.

Lemma span_digits_app (ds rest : pystr) :
  Forall (fun c => Json.is_digit c = true) ds ->
  Json.delimited rest ->
  Json.span_digits (ds ++ rest) = (ds, rest).
Proof.
  intros Hds Hrest. induction Hds as [| c ds Hc _ IH]; simpl.
  - destruct rest as [| c rest]; [reflexivity |].
    destruct (delimited_head Hrest) as (H & _). simpl. now rewrite H.
  - now rewrite Hc, IH.
Qed.

Lemma frac_part_delimited (rest : pystr) :
  Json.delimited rest -> Json.frac_part rest = ([], rest).
Proof.
  intros H. destruct rest as [| c [| d rest]]; try reflexivity.
  destruct (delimited_head H) as (_ & H46 & _). simpl. now rewrite H46.
Qed.

Lemma exp_part_delimited (rest : pystr) :
  Json.delimited rest -> Json.exp_part rest = ([], rest).
Proof.
  intros H. destruct rest as [| c rest]; try reflexivity.
  destruct (delimited_head H) as (_ & _ & H101 & H69 & _).
  simpl. now rewrite H101, H69.
Qed.

(** The decimal digits of a positive number start with a digit that is
    not zero. *)
Lemma to_uint_head (p : positive) :
  exists c ds,
    Json.uint_chars (Pos.to_uint p) = c :: ds /\ (49 <= c <= 57)%N.
Proof.
  assert (Hn : Decimal.unorm (Pos.to_uint p) = Pos.to_uint p).
  { rewrite <- DecimalPos.Unsigned.to_of, DecimalPos.Unsigned.of_to.
    reflexivity. }
  destruct (Pos.to_uint p) as [| u | u | u | u | u | u | u | u | u | u] eqn:E;
    simpl; try (eexists _, _; split; [reflexivity | lia]).
  - now elim (DecimalPos.Unsigned.to_uint_nonnil p).
  - exfalso. unfold Decimal.unorm in Hn. simpl in Hn.
    destruct (Decimal.nzhead u) as [| u0 | | | | | | | | |] eqn:Hu;
      try discriminate Hn.
    + injection Hn as <-. now elim (DecimalPos.Unsigned.to_uint_nonzero p).
    + now elim (DecimalFacts.nzhead_nonzero u u0).
Qed.

(** The digits of an integer, read back by the number scanner. *)
Lemma int_part_repr (p : positive) (rest : pystr) :
  Json.delimited rest ->
  Json.int_part (Json.uint_chars (Pos.to_uint p) ++ rest)
  = Some (Json.uint_chars (Pos.to_uint p), rest).
Proof.
  intros Hrest. pose proof (uint_chars_digits (Pos.to_uint p)) as Hd.
  destruct (to_uint_head p) as (c & ds & E & Hc). rewrite E in *.
  inversion Hd as [| ? ? _ Hds]; subst. simpl.
  replace ((49 <=? c)%N && (c <=? 57)%N) with true
    by (symmetry; apply andb_true_intro; split; apply N.leb_le; lia).
  now rewrite span_digits_app.
Qed.

Lemma match_number_repr (z : Z) (rest : pystr) :
  Json.delimited rest ->
  (List.length (Json.int_digits z) <= Json.MAX_STR_DIGITS)%nat ->
  Json.match_number (Json.int_repr z ++ rest) = Some (inl (PInt z, rest)).
Proof.
  intros Hrest Hlen. unfold Json.int_repr. unfold Json.int_digits in Hlen.
  apply Nat.ltb_ge in Hlen.
  pose proof (DecimalZ.of_to z) as Hz. destruct z as [| p | p]; simpl Z.to_int in *.
  - simpl. unfold Json.match_number. simpl.
    now rewrite frac_part_delimited, exp_part_delimited.
  - unfold Json.match_number.
    destruct (to_uint_head p) as (c & ds & E & Hc).
    assert (H45 : (c =? 45)%N = false) by (apply N.eqb_neq; lia).
    assert (Hsign : Json.sign_part (Json.uint_chars (Pos.to_uint p) ++ rest)
                    = (false, Json.uint_chars (Pos.to_uint p) ++ rest)).
    { rewrite E. simpl. now rewrite H45. }
    rewrite Hsign. rewrite int_part_repr by assumption.
    rewrite frac_part_delimited, exp_part_delimited by assumption.
    rewrite Hlen, uint_of_chars_chars. now rewrite Hz.
  - unfold Json.match_number.
    replace (Json.sign_part _)
      with (true, Json.uint_chars (Pos.to_uint p) ++ rest) by reflexivity.
    rewrite int_part_repr by assumption.
    rewrite frac_part_delimited, exp_part_delimited by assumption.
    rewrite Hlen, uint_of_chars_chars. now rewrite Hz.
Qed.

(** An integer starts with a minus sign or a digit. *)
Lemma int_repr_head (z : Z) :
  exists c t, Json.int_repr z = c :: t /\ (c = 45 \/ 48 <= c <= 57)%N.
Proof.
  unfold Json.int_repr. destruct z as [| p | p]; simpl Z.to_int.
  - exists 48%N, []. split; [reflexivity | lia].
  - destruct (to_uint_head p) as (c & ds & E & Hc). exists c, ds. split; [exact E | lia].
  - eexists _, _. split; [reflexivity | now left].
Qed.

(** ** JSON values *)

(** Induction on values, with the items of lists, dicts and objects. *)
Lemma pyval_induction (P : pyval -> Prop) :
  P PNone -> (forall b, P (PBool b)) -> (forall z, P (PInt z)) ->
  (forall literal, P (PFloat literal)) -> (forall s, P (PStr s)) ->
  (forall b, P (PBytes b)) ->
  (forall l, Forall P l -> P (PList l)) ->
  (forall d, Forall (fun kv => P (snd kv)) d -> P (PDict d)) ->
  (forall attrs, Forall (fun kv => P (snd kv)) attrs -> P (PObj attrs)) ->
  forall v, P v.
Proof.
  intros HNone HBool HInt HFloat HStr HBytes HList HDict HObj.
  exact
    (fix go (v : pyval) : P v :=
       match v with
       | PNone => HNone
       | PBool b => HBool b
       | PInt z => HInt z
       | PFloat literal => HFloat literal
       | PStr s => HStr s
       | PBytes b => HBytes b
       | PList l =>
           HList l
             ((fix items (l : list pyval) : Forall P l :=
                 match l with
                 | [] => Forall_nil P
                 | x :: l' => Forall_cons x (go x) (items l')
                 end) l)
       | PDict d =>
           HDict d
             ((fix members (d : list (pystr * pyval))
                 : Forall (fun kv => P (snd kv)) d :=
                 match d with
                 | [] => Forall_nil _
                 | kv :: d' => Forall_cons kv (go (snd kv)) (members d')
                 end) d)
       | PObj attrs =>
           HObj attrs
             ((fix members (d : list (pystr * pyval))
                 : Forall (fun kv => P (snd kv)) d :=
                 match d with
                 | [] => Forall_nil _
                 | kv :: d' => Forall_cons kv (go (snd kv)) (members d')
                 end) attrs)
       end).
Qed.

Lemma distinct_keys_list (l : list pyval) :
  distinct_keys (PList l) <-> Forall distinct_keys l.
Proof.
  induction l as [| x l IH]; simpl in *.
  - split; auto.
  - rewrite IH. split.
    + intros [Hx Hl]. now constructor.
    + intros H. inversion H. auto.
Qed.

Lemma distinct_keys_dict (d : list (pystr * pyval)) :
  distinct_keys (PDict d)
  <-> NoDup (map fst d) /\ Forall (fun kv => distinct_keys (snd kv)) d.
Proof.
  assert (H : (fix all (d : list (pystr * pyval)) : Prop :=
                 match d with
                 | [] => True
                 | (_, x) :: d' => distinct_keys x /\ all d'
                 end) d
              <-> Forall (fun kv => distinct_keys (snd kv)) d).
  { induction d as [| [k x] d IH]; simpl in *.
    - split; auto.
    - rewrite IH. split.
      + intros [Hx Hd]. now constructor.
      + intros H. inversion H. auto. }
  simpl. now rewrite H.
Qed.

Lemma dumps_list (room : nat) (x : pyval) (l : list pyval) :
  Json.dumps (S room) (PList (x :: l))
  = match Json.dumps room x with
    | inl sx =>
        match Json.dumps_items room l with
        | inl sl => inl (lit "[" ++ sx ++ sl ++ lit "]")
        | inr e => inr e
        end
    | inr e => inr e
    end.
Proof. reflexivity. Qed.

Lemma dumps_dict (room : nat) (k : pystr) (x : pyval) (d : list (pystr * pyval)) :
  Json.dumps (S room) (PDict ((k, x) :: d))
  = match Json.dumps room x with
    | inl sx =>
        match Json.dumps_members room d with
        | inl sd =>
            inl (lit "{" ++ Json.encode_basestring k ++ lit ": " ++ sx ++ sd
                 ++ lit "}")
        | inr e => inr e
        end
    | inr e => inr e
    end.
Proof. reflexivity. Qed.

Lemma size_list (l : list pyval) : Json.size (PList l) = S (Json.items_size l).
Proof. reflexivity. Qed.

Lemma size_dict (d : list (pystr * pyval)) :
  Json.size (PDict d) = S (Json.members_size d).
Proof. reflexivity. Qed.

(** One step of the decoder's loops. *)
Lemma scan_once_string (fuel room : nat) (rest : pystr) :
  Json.scan_once (S fuel) room (Json.QUOTE :: rest)
  = match Json.scanstring rest with
    | Some (str, r) => inl (PStr str, r)
    | None => inr Json.JSONDecodeError
    end.
Proof. reflexivity. Qed.

Lemma scan_once_array (fuel room : nat) (rest : pystr) :
  Json.scan_once (S fuel) (S room) (91%N :: rest)
  = match Json.skip_ws rest with
    | c1 :: r1 =>
        if (c1 =? 93)%N then inl (PList [], r1)
        else Json.array_loop fuel room (c1 :: r1) []
    | [] => inr Json.JSONDecodeError
    end.
Proof. reflexivity. Qed.

Lemma scan_once_object (fuel room : nat) (rest : pystr) :
  Json.scan_once (S fuel) (S room) (123%N :: rest)
  = match Json.skip_ws rest with
    | c1 :: r1 =>
        if (c1 =? 125)%N then inl (PDict [], r1)
        else if (c1 =? Json.QUOTE)%N then Json.object_loop fuel room r1 []
        else inr Json.JSONDecodeError
    | [] => inr Json.JSONDecodeError
    end.
Proof. reflexivity. Qed.

Lemma array_loop_step (fuel room : nat) (s : pystr) (values : list pyval) :
  Json.array_loop (S fuel) room s values
  = match Json.scan_once fuel room s with
    | inl (value, r) =>
        match Json.skip_ws r with
        | nextchar :: r1 =>
            if (nextchar =? 93)%N then inl (PList (values ++ [value]), r1)
            else if (nextchar =? 44)%N then
              Json.array_loop fuel room (Json.skip_ws r1) (values ++ [value])
            else inr Json.JSONDecodeError
        | [] => inr Json.JSONDecodeError
        end
    | inr e => inr e
    end.
Proof. reflexivity. Qed.

Lemma object_loop_step (fuel room : nat) (s : pystr)
    (pairs : list (pystr * pyval)) :
  Json.object_loop (S fuel) room s pairs
  = match Json.scanstring s with
    | Some (key, r) =>
        match Json.skip_ws r with
        | colon :: r1 =>
            if (colon =? 58)%N then
              match Json.scan_once fuel room (Json.skip_ws r1) with
              | inl (value, r2) =>
                  match Json.skip_ws r2 with
                  | nextchar :: r3 =>
                      if (nextchar =? 125)%N then
                        inl (PDict (dict_of_pairs (pairs ++ [(key, value)])), r3)
                      else if (nextchar =? 44)%N then
                        match Json.skip_ws r3 with
                        | q :: r4 =>
                            if (q =? Json.QUOTE)%N then
                              Json.object_loop fuel room r4
                                (pairs ++ [(key, value)])
                            else inr Json.JSONDecodeError
                        | [] => inr Json.JSONDecodeError
                        end
                      else inr Json.JSONDecodeError
                  | [] => inr Json.JSONDecodeError
                  end
              | inr e => inr e
              end
            else inr Json.JSONDecodeError
        | [] => inr Json.JSONDecodeError
        end
    | None => inr Json.JSONDecodeError
    end.
Proof. reflexivity. Qed.

(** [dict(pairs)] keeps pairs whose keys are distinct as they are. *)
Lemma dict_set_fresh (d : list (pystr * pyval)) (k : pystr) (v : pyval) :
  ~ In k (map fst d) -> dict_set d k v = d ++ [(k, v)].
Proof.
  induction d as [| [k' v'] d IH]; simpl; intros H; [reflexivity |].
  destruct (str_eqb k k') eqn:E.
  - apply str_eqb_eq in E. subst. tauto.
  - rewrite IH by tauto. reflexivity.
Qed.

Lemma dict_of_pairs_distinct (d acc : list (pystr * pyval)) :
  NoDup (map fst (acc ++ d)) ->
  fold_left (fun d kv => dict_set d (fst kv) (snd kv)) d acc = acc ++ d.
Proof.
  revert acc. induction d as [| [k v] d IH]; intros acc H; simpl.
  - now rewrite List.app_nil_r.
  - rewrite dict_set_fresh.
    + rewrite IH; rewrite <- List.app_assoc; [reflexivity | exact H].
    + rewrite map_app in H. simpl in H. apply NoDup_remove_2 in H.
      intros Hin. apply H. apply in_or_app. now left.
Qed.

Lemma skip_ws_space (t : pystr) : Json.skip_ws (32%N :: t) = Json.skip_ws t.
Proof. reflexivity. Qed.

Lemma skip_ws_head (c : N) (t : pystr) :
  Json.is_ws c = false -> Json.skip_ws (c :: t) = c :: t.
Proof. intros H. simpl. now rewrite H. Qed.

(** An encoding starts with a character that is neither whitespace nor a
    closing bracket. *)
Lemma dumps_head (room : nat) (v : pyval) (s : pystr) :
  Json.dumps room v = inl s ->
  exists c t, s = c :: t /\ Json.is_ws c = false /\ (c =? 93)%N = false.
Proof.
  intros H.
  destruct v as [| [|] | z | | str | | l | d |];
    try (cbn [Json.dumps] in H;
         first [discriminate H
               | injection H as <-; eexists _, _; repeat split; reflexivity]).
  - cbn [Json.dumps] in H. destruct (_ <? _)%nat in H; [discriminate H |].
    injection H as <-. destruct (int_repr_head z) as (c & t & -> & Hc).
    exists c, t. split; [reflexivity |].
    unfold Json.is_ws.
    destruct Hc as [-> | Hc]; [repeat split |].
    destruct (N.eqb_spec c 32); [lia |]. destruct (N.eqb_spec c 9); [lia |].
    destruct (N.eqb_spec c 10); [lia |]. destruct (N.eqb_spec c 13); [lia |].
    destruct (N.eqb_spec c 93); [lia |]. auto.
  - destruct room as [| room]; [discriminate H |].
    destruct l as [| x l];
      [injection H as <-; eexists _, _; repeat split; reflexivity |].
    rewrite dumps_list in H.
    destruct (Json.dumps room x); [| discriminate H].
    destruct (Json.dumps_items room l); [| discriminate H].
    injection H as <-. eexists _, _; repeat split; reflexivity.
  - destruct room as [| room]; [discriminate H |].
    destruct d as [| [k x] d];
      [injection H as <-; eexists _, _; repeat split; reflexivity |].
    rewrite dumps_dict in H.
    destruct (Json.dumps room x); [| discriminate H].
    destruct (Json.dumps_members room d); [| discriminate H].
    injection H as <-. eexists _, _; repeat split; reflexivity.
Qed.

Lemma skip_ws_dumps (room : nat) (v : pyval) (s tail : pystr) :
  Json.dumps room v = inl s -> Json.skip_ws (s ++ tail) = s ++ tail.
Proof.
  intros H. destruct (dumps_head room v H) as (c & t & -> & Hws & _).
  now apply skip_ws_head.
Qed.

(** The pieces of an encoding, as the decoder meets them. *)
Lemma encode_basestring_app (k tail : pystr) :
  Json.encode_basestring k ++ tail
  = Json.QUOTE :: flat_map Json.escape_char k ++ Json.QUOTE :: tail.
Proof.
  unfold Json.encode_basestring. simpl. now rewrite <- List.app_assoc.
Qed.

Lemma dumps_items_tail (room : nat) (l : list pyval) (sl rest : pystr) :
  Json.dumps_items room l = inl sl -> Json.delimited (sl ++ 93%N :: rest).
Proof.
  destruct l as [| x l]; simpl; intros H.
  - injection H as <-. simpl. auto.
  - destruct (Json.dumps room x); [| discriminate H].
    destruct (Json.dumps_items room l); [| discriminate H].
    injection H as <-. simpl. auto.
Qed.

Lemma dumps_members_tail (room : nat) (d : list (pystr * pyval))
    (sd rest : pystr) :
  Json.dumps_members room d = inl sd -> Json.delimited (sd ++ 125%N :: rest).
Proof.
  destruct d as [| [k x] d]; simpl; intros H.
  - injection H as <-. simpl. auto.
  - destruct (Json.dumps room x); [| discriminate H].
    destruct (Json.dumps_members room d); [| discriminate H].
    injection H as <-. simpl. auto.
Qed.

Lemma skip_ws_delimited (s : pystr) :
  Json.delimited s -> Json.skip_ws s = s.
Proof.
  destruct s as [| c s]; [reflexivity |]. intros H.
  apply skip_ws_head. now apply (delimited_head H).
Qed.

Lemma array_loop_items (l : list pyval) :
  Forall reads_back l -> Forall distinct_keys l ->
  forall room x sx sl values fuel rest,
    reads_back x -> distinct_keys x ->
    Json.dumps room x = inl sx ->
    Json.dumps_items room l = inl sl ->
    S (Json.size x) + Json.items_size l <= fuel ->
    Json.array_loop fuel room (sx ++ sl ++ 93%N :: rest) values
    = inl (PList (values ++ x :: l), rest).
Proof.
  induction 1 as [| y l Hy _ IH];
    intros Hdk room x sx sl values fuel rest Hx Hdx Ex El Hfuel;
    (destruct fuel as [| fuel]; [simpl in Hfuel; lia |]);
    rewrite array_loop_step.
  - simpl in El. injection El as <-. simpl in Hfuel. cbn [app].
    rewrite (Hx Hdx room sx fuel (93%N :: rest) Ex) by (simpl; auto; lia).
    reflexivity.
  - inversion Hdk as [| ? ? Hdy Hdl]; subst.
    pose proof (dumps_items_tail room (y :: l) rest El) as Htail.
    rewrite (Hx Hdx room sx fuel (sl ++ 93%N :: rest) Ex)
      by (trivial; simpl in Hfuel; lia).
    simpl in El. destruct (Json.dumps room y) as [sy |] eqn:Ey; [| discriminate El].
    destruct (Json.dumps_items room l) as [sl' |] eqn:El'; [| discriminate El].
    injection El as <-.
    cbn [app]. rewrite <- List.app_assoc.
    rewrite skip_ws_head by reflexivity.
    change ((44 =? 93)%N) with false. change ((44 =? 44)%N) with true. cbv iota.
    rewrite skip_ws_space, (skip_ws_dumps _ _ _ Ey).
    rewrite (IH Hdl room y sy sl' (values ++ [x]) fuel rest Hy Hdy Ey El')
      by (simpl in Hfuel; lia).
    now rewrite <- List.app_assoc.
Qed.

Lemma object_loop_members (d : list (pystr * pyval)) :
  Forall (fun kv => reads_back (snd kv)) d ->
  Forall (fun kv => distinct_keys (snd kv)) d ->
  forall room k x sx sd pairs fuel rest,
    reads_back x -> distinct_keys x ->
    Json.dumps room x = inl sx ->
    Json.dumps_members room d = inl sd ->
    S (Json.size x) + Json.members_size d <= fuel ->
    Json.object_loop fuel room
      (flat_map Json.escape_char k
       ++ Json.QUOTE :: 58%N :: 32%N :: sx ++ sd ++ 125%N :: rest) pairs
    = inl (PDict (dict_of_pairs (pairs ++ (k, x) :: d)), rest).
Proof.
  induction 1 as [| [k' y] d Hy _ IH];
    intros Hdk room k x sx sd pairs fuel rest Hx Hdx Ex Ed Hfuel;
    (destruct fuel as [| fuel]; [simpl in Hfuel; lia |]);
    rewrite object_loop_step, scanstring_encode;
    rewrite skip_ws_head by reflexivity;
    change ((58 =? 58)%N) with true; cbv iota;
    rewrite skip_ws_space, (skip_ws_dumps _ _ _ Ex).
  - simpl in Ed. injection Ed as <-. simpl in Hfuel. cbn [app].
    rewrite (Hx Hdx room sx fuel (125%N :: rest) Ex) by (simpl; auto; lia).
    reflexivity.
  - inversion Hdk as [| ? ? Hdy Hdl]; subst. simpl in Hy, Hdy.
    pose proof (dumps_members_tail room ((k', y) :: d) rest Ed) as Htail.
    rewrite (Hx Hdx room sx fuel (sd ++ 125%N :: rest) Ex)
      by (trivial; simpl in Hfuel; lia).
    simpl in Ed. destruct (Json.dumps room y) as [sy |] eqn:Ey; [| discriminate Ed].
    destruct (Json.dumps_members room d) as [sd' |] eqn:Ed'; [| discriminate Ed].
    injection Ed as <-.
    cbn [app]. rewrite <- !List.app_assoc.
    rewrite skip_ws_head by reflexivity.
    change ((44 =? 125)%N) with false. change ((44 =? 44)%N) with true. cbv iota.
    rewrite skip_ws_space. cbn [app].
    rewrite skip_ws_head by reflexivity. rewrite N.eqb_refl.
    rewrite <- !List.app_assoc.
    transitivity
      (@inl (pyval * pystr) Json.error
         (PDict (dict_of_pairs ((pairs ++ [(k, x)]) ++ (k', y) :: d)), rest)).
    + apply (IH Hdl room k' y sy sd' (pairs ++ [(k, x)]) fuel rest Hy Hdy Ey Ed').
      simpl in Hfuel. lia.
    + now rewrite <- List.app_assoc.
Qed.

(** A minus sign or a digit goes through the tests on the first character
    to the number scanner. *)
Lemma scan_once_number (fuel room : nat) (c : N) (rest : pystr)
    (res : pyval * pystr + Json.error) :
  (c = 45 \/ 48 <= c <= 57)%N ->
  Json.match_number (c :: rest) = Some res ->
  Json.scan_once (S fuel) room (c :: rest) = res.
Proof.
  intros Hc Hm.
  assert (H : forall n, (n <> 45 /\ (n < 48 \/ 57 < n))%N ->
                        (c =? n)%N = false /\ (n =? c)%N = false).
  { intros n Hn. split; apply N.eqb_neq; lia. }
  cbn [Json.scan_once]. unfold Json.QUOTE.
  rewrite (proj1 (H 34%N ltac:(lia))), (proj1 (H 123%N ltac:(lia))),
    (proj1 (H 91%N ltac:(lia))).
  change (Json.starts_with (lit "null") (c :: rest))
    with (if (110 =? c)%N then Json.starts_with (lit "ull") rest else None).
  change (Json.starts_with (lit "true") (c :: rest))
    with (if (116 =? c)%N then Json.starts_with (lit "rue") rest else None).
  change (Json.starts_with (lit "false") (c :: rest))
    with (if (102 =? c)%N then Json.starts_with (lit "alse") rest else None).
  rewrite (proj2 (H 110%N ltac:(lia))), (proj2 (H 116%N ltac:(lia))),
    (proj2 (H 102%N ltac:(lia))).
  now rewrite Hm.
Qed.

Lemma scan_once_int (z : Z) (fuel room : nat) (rest : pystr) :
  Json.delimited rest ->
  (List.length (Json.int_digits z) <= Json.MAX_STR_DIGITS)%nat ->
  Json.scan_once (S fuel) room (Json.int_repr z ++ rest) = inl (PInt z, rest).
Proof.
  intros Hrest Hlen. pose proof (@match_number_repr z rest Hrest Hlen) as Hm.
  destruct (int_repr_head z) as (c & t & E & Hc). rewrite E in *.
  now apply scan_once_number.
Qed.

(** Every value without floats is read back from its encoding, with the
    room its encoding took. *)
Lemma reads_back_all (v : pyval) : reads_back v.
Proof.
  induction v as [| b | z | literal | str | b | l IH | d IH | attrs IH]
    using pyval_induction;
    intros Hdk room s fuel rest Hs Hfuel Hrest;
    try discriminate Hs;
    (destruct fuel as [| fuel]; [simpl in Hfuel; lia |]).
  - injection Hs as <-. reflexivity.
  - destruct b; injection Hs as <-; reflexivity.
  - cbn [Json.dumps] in Hs.
    destruct (_ <? _)%nat eqn:Hlen in Hs; [discriminate Hs |].
    injection Hs as <-. apply scan_once_int; [assumption |].
    now apply Nat.ltb_ge.
  - injection Hs as <-. rewrite encode_basestring_app.
    now rewrite scan_once_string, scanstring_encode.
  - destruct room as [| room]; [discriminate Hs |].
    destruct l as [| x l]; [injection Hs as <-; reflexivity |].
    rewrite dumps_list in Hs.
    destruct (Json.dumps room x) as [sx |] eqn:Ex; [| discriminate Hs].
    destruct (Json.dumps_items room l) as [sl |] eqn:El; [| discriminate Hs].
    injection Hs as <-. apply distinct_keys_list in Hdk.
    inversion IH as [| ? ? Hx Hl]; subst. inversion Hdk as [| ? ? Hdx Hdl]; subst.
    rewrite size_list in Hfuel. cbn [Json.items_size] in Hfuel.
    change (lit "[") with [91%N]. change (lit "]") with [93%N].
    cbn [app]. rewrite <- !List.app_assoc. cbn [app].
    rewrite scan_once_array, (skip_ws_dumps _ _ _ Ex).
    destruct (dumps_head room x Ex) as (c & t & -> & _ & H93).
    cbn [app]. rewrite H93.
    change (c :: t ++ sl ++ 93%N :: rest) with ((c :: t) ++ sl ++ 93%N :: rest).
    change (PList (x :: l)) with (PList ([] ++ x :: l)).
    apply array_loop_items; trivial. lia.
  - destruct room as [| room]; [discriminate Hs |].
    destruct d as [| [k x] d]; [injection Hs as <-; reflexivity |].
    rewrite dumps_dict in Hs.
    destruct (Json.dumps room x) as [sx |] eqn:Ex; [| discriminate Hs].
    destruct (Json.dumps_members room d) as [sd |] eqn:Ed; [| discriminate Hs].
    injection Hs as <-. apply distinct_keys_dict in Hdk. destruct Hdk as [Hnd Hdk].
    inversion IH as [| ? ? Hx Hl]; subst. inversion Hdk as [| ? ? Hdx Hdl]; subst.
    simpl in Hx, Hdx.
    rewrite size_dict in Hfuel. cbn [Json.members_size] in Hfuel.
    change (lit "{") with [123%N]. change (lit "}") with [125%N].
    change (lit ": ") with [58%N; 32%N].
    unfold Json.encode_basestring.
    repeat (progress (cbn [app]; rewrite <- ?List.app_assoc)).
    rewrite scan_once_object, skip_ws_head by reflexivity.
    change ((Json.QUOTE =? 125)%N) with false. rewrite N.eqb_refl. cbv iota.
    transitivity
      (@inl (pyval * pystr) Json.error
         (PDict (dict_of_pairs ([] ++ (k, x) :: d)), rest)).
    + apply object_loop_members; trivial. lia.
    + cbn [app]. unfold dict_of_pairs.
      now rewrite (dict_of_pairs_distinct ((k, x) :: d) []).
Qed.

Lemma dumps_items_length (room : nat) (l : list pyval) :
  Forall (fun x => forall room s, Json.dumps room x = inl s ->
                                  Json.size x <= List.length s) l ->
  forall sl, Json.dumps_items room l = inl sl ->
             Json.items_size l <= List.length sl.
Proof.
  induction 1 as [| x l Hx _ IHl]; intros sl Hsl; simpl in *.
  - lia.
  - destruct (Json.dumps room x) as [sx |] eqn:Ex; [| discriminate Hsl].
    destruct (Json.dumps_items room l) as [sl' |]; [| discriminate Hsl].
    injection Hsl as <-. specialize (Hx room sx Ex).
    specialize (IHl sl' eq_refl). simpl. rewrite length_app. lia.
Qed.

Lemma dumps_members_length (room : nat) (d : list (pystr * pyval)) :
  Forall (fun kv => forall room s, Json.dumps room (snd kv) = inl s ->
                                   Json.size (snd kv) <= List.length s) d ->
  forall sd, Json.dumps_members room d = inl sd ->
             Json.members_size d <= List.length sd.
Proof.
  induction 1 as [| [k x] d Hx _ IHd]; intros sd Hsd; simpl in *.
  - lia.
  - destruct (Json.dumps room x) as [sx |] eqn:Ex; [| discriminate Hsd].
    destruct (Json.dumps_members room d) as [sd' |]; [| discriminate Hsd].
    injection Hsd as <-. specialize (Hx room sx Ex).
    specialize (IHd sd' eq_refl). simpl. rewrite !length_app. simpl.
    rewrite !length_app. lia.
Qed.

(** The fuel [json_loads] starts with is enough for an encoding, which is
    at least as long as the size of its value. *)
Lemma dumps_length (v : pyval) :
  forall room s, Json.dumps room v = inl s -> Json.size v <= List.length s.
Proof.
  induction v as [| b | z | literal | str | b | l IH | d IH | attrs IH]
    using pyval_induction;
    intros room s Hs; try discriminate Hs.
  - injection Hs as <-. simpl. lia.
  - destruct b; injection Hs as <-; simpl; lia.
  - cbn [Json.dumps] in Hs. destruct (_ <? _)%nat in Hs; [discriminate Hs |].
    injection Hs as <-. destruct (int_repr_head z) as (c & t & -> & _).
    simpl. lia.
  - injection Hs as <-. simpl. lia.
  - destruct room as [| room]; [discriminate Hs |].
    destruct l as [| x l]; [injection Hs as <-; simpl; lia |].
    rewrite dumps_list in Hs. inversion IH as [| ? ? Hx Hl]; subst.
    destruct (Json.dumps room x) as [sx |] eqn:Ex; [| discriminate Hs].
    destruct (Json.dumps_items room l) as [sl |] eqn:El; [| discriminate Hs].
    injection Hs as <-. specialize (Hx room sx Ex).
    pose proof (dumps_items_length room Hl El) as Hsl.
    rewrite size_list. cbn [Json.items_size].
    change (lit "[") with [91%N]. change (lit "]") with [93%N].
    cbn [app List.length]. rewrite !length_app. cbn [List.length]. lia.
  - destruct room as [| room]; [discriminate Hs |].
    destruct d as [| [k x] d]; [injection Hs as <-; simpl; lia |].
    rewrite dumps_dict in Hs. inversion IH as [| ? ? Hx Hd]; subst.
    simpl in Hx.
    destruct (Json.dumps room x) as [sx |] eqn:Ex; [| discriminate Hs].
    destruct (Json.dumps_members room d) as [sd |] eqn:Ed; [| discriminate Hs].
    injection Hs as <-. specialize (Hx room sx Ex).
    pose proof (dumps_members_length room Hd Ed) as Hsd.
    rewrite size_dict. cbn [Json.members_size].
    change (lit "{") with [123%N]. change (lit "}") with [125%N].
    cbn [app List.length]. rewrite !length_app. cbn [List.length].
    rewrite !length_app. lia.
Qed.

(** [json.loads(json.dumps(obj)) == obj]: what the encoder accepts is
    within the limits of the decoder. *)
Lemma json_round_trip (obj : pyval) (encoded : pystr) :
  distinct_keys obj ->
  Json.json_dumps obj = Some encoded ->
  Json.json_loads encoded = Some obj.
Proof.
  intros Hdk Hs. unfold Json.json_dumps in Hs.
  destruct (Json.dumps Json.RECURSION_LIMIT obj) as [s |] eqn:Es;
    [| discriminate Hs].
  injection Hs as ->.
  unfold Json.json_loads, Json.loads.
  pose proof (dumps_length obj _ Es) as Hlen.
  pose proof (@reads_back_all obj Hdk Json.RECURSION_LIMIT encoded
                (S (2 * List.length encoded)) [] Es) as H.
  rewrite List.app_nil_r in H.
  rewrite <- (List.app_nil_r encoded) at 2.
  rewrite (skip_ws_dumps _ _ _ Es), List.app_nil_r, H by (simpl; auto; lia).
  reflexivity.
Qed.

(** C8: the wire encoding loses nothing.  What [send_json] writes for an
    event (a [dict] that [json.dumps] accepts, with the distinct keys of a
    [dict] throughout) is read back by [recv_json] as the same event, and
    [b64d] gives back the bytes that [b64e] encoded, for every byte
    string. *)
Theorem event_encoding_round_trip :
  (forall (env : Env) (e : list (pystr * pyval)) (encoded : pystr),
      distinct_keys (PDict e) ->
      Json.json_dumps (PDict e) = Some encoded ->
      (forall w,
          trace (snd (send_json env (PDict e) w)) = trace w ++ [WsSendText encoded])
      /\ recv_json env (inl encoded) = Ok (PDict e))
  /\ (forall b : list byte, exists s, b64e b = Some s /\ b64d s = Some b).
Proof.
  split; [| exact b64_round_trip].
  intros env e encoded Hdk He. split.
  - intros w. unfold send_json. rewrite He. unfold perform.
    destruct (io_outcome env (trace w) (WsSendText encoded)); reflexivity.
  - unfold recv_json. now rewrite (json_round_trip (PDict e) Hdk He).
Qed.

Lemma event_encoding_round_trip_witness :
  recv_json sample_env
    (inl (lit "{" ++ Json.encode_basestring (lit "type") ++ lit ": "
          ++ Json.encode_basestring (lit "audio") ++ lit ", "
          ++ Json.encode_basestring (lit "data") ++ lit ": "
          ++ Json.encode_basestring (lit "aGVs") ++ lit ", "
          ++ Json.encode_basestring (lit "mime_type") ++ lit ": "
          ++ Json.encode_basestring (lit "audio/pcm;rate=24000") ++ lit "}"))
  = Ok (AudioEvent (lit "aGVs") (lit "audio/pcm;rate=24000"))
  /\ b64d (lit "aGVs") = Some ["h"%byte; "e"%byte; "l"%byte].
Proof.
  split.
  - apply (proj1 event_encoding_round_trip sample_env
             [item "type" (pstr "audio"); item "data" (pstr "aGVs");
              item "mime_type" (pstr "audio/pcm;rate=24000")]).
    + simpl. repeat constructor; simpl; intuition discriminate.
    + reflexivity.
  - destruct (proj2 event_encoding_round_trip ["h"%byte; "e"%byte; "l"%byte])
      as (s & Hs & Hd).
    vm_compute in Hs. injection Hs as <-. exact Hd.
Defined.

(* ===================================================================== *)
(** * The client side *)
(* ===================================================================== *)

Unset Implicit Arguments.

(** Reporting an error to the client never raises: a failed send is
    swallowed. *)
Lemma send_error_swallowed (env : Env) (message : pystr) (w : World) :
  exists encoded,
    Json.json_dumps (ErrorEvent message) = Some encoded
    /\ try_except (send_json env (ErrorEvent message)) (fun _ => ret tt) w
       = (Ok tt, log_call (WsSendText encoded) w).
Proof.
  assert (H : exists encoded, Json.json_dumps (ErrorEvent message) = Some encoded)
    by (eexists; reflexivity).
  destruct H as [encoded H]. exists encoded. split; [exact H |].
  unfold try_except, send_json. rewrite H. unfold ErrorEvent, perform, ret.
  destruct (io_outcome env (trace w) (WsSendText encoded)); reflexivity.
Qed.

Lemma b64e_b64d (b : list byte) (s : pystr) : b64e b = Some s -> b64d s = Some b.
Proof.
  intros H. destruct (b64_round_trip b) as (s' & H1 & H2). congruence.
Qed.

(** X1: an [audio] message whose data is the base64 text of the bytes [b]
    makes exactly one call: the upstream send of [b] itself with the
    message's mime type, or with [audio/pcm;rate=16000] when it names
    none. *)
Theorem client_audio_reaches_upstream (env : Env) (msg : list (pystr * pyval))
    (w : World) (b : list byte) (s : pystr) :
  assoc (lit "type") msg = Some (pstr "audio") ->
  assoc (lit "data") msg = Some (PStr s) ->
  b64e b = Some s ->
  let mime_type :=
    match assoc (lit "mime_type") msg with
    | Some m => m
    | None => pstr "audio/pcm;rate=16000"
    end in
  let call :=
    SendRealtimeInput "audio"
      (PDict [item "data" (PBytes b); item "mime_type" mime_type]) in
  snd (handle_client_msg env (PDict msg) w) = log_call call w
  /\ (io_outcome env (trace w) call = None ->
      handle_client_msg env (PDict msg) w = (Ok tt, log_call call w)).
Proof.
  intros Ht Hd Hb mime_type call. apply b64e_b64d in Hb.
  assert (E : handle_client_msg env (PDict msg) w = perform env call w).
  { unfold handle_client_msg, py_get, bind, ret. rewrite Ht.
    change (eq_lit (pstr "audio") "audio") with true. cbv iota.
    rewrite Hd. unfold call_b64d. rewrite Hb. reflexivity. }
  rewrite E. unfold perform.
  split; [destruct (io_outcome env (trace w) call); reflexivity |].
  now intros ->.
Qed.

Lemma client_audio_reaches_upstream_witness :
  handle_client_msg sample_env
    (PDict [item "type" (pstr "audio"); item "data" (pstr "aGVs")]) idle
  = (Ok tt,
     {| out_q := [];
        trace := [SendRealtimeInput "audio"
                    (PDict [item "data" (PBytes ["h"%byte; "e"%byte; "l"%byte]);
                            item "mime_type" (pstr "audio/pcm;rate=16000")])] |}).
Proof.
  apply (proj2 (client_audio_reaches_upstream sample_env
                  [item "type" (pstr "audio"); item "data" (pstr "aGVs")] idle
                  ["h"%byte; "e"%byte; "l"%byte] (lit "aGVs")
                  eq_refl eq_refl eq_refl)).
  reflexivity.
Defined.

(** X2: an [audio] message whose data is a string that [b64d] rejects
    ends the client loop: nothing is sent upstream, one
    [Gemini send error] frame is sent to the client (a failure of that
    send is swallowed), the frames that follow are never read, and the
    coroutine returns without raising. *)
Theorem client_bad_base64_ends_loop (env : Env) (msg : list (pystr * pyval))
    (w : World) (s raw : pystr) (rest : list frame) :
  assoc (lit "type") msg = Some (pstr "audio") ->
  assoc (lit "data") msg = Some (PStr s) ->
  b64d s = None ->
  Json.json_loads raw = Some (PDict msg) ->
  exists message encoded,
    Json.json_dumps (ErrorEvent (lit "Gemini send error: " ++ message))
    = Some encoded
    /\ client_to_gemini env (inl raw :: rest) None w
       = (Ok tt, log_call (WsSendText encoded) w).
Proof.
  intros Ht Hd Hb Hraw.
  destruct (send_error_swallowed env
              (lit "Gemini send error: " ++ b64_error_str env s) w)
    as (encoded & He & Hsend).
  exists (b64_error_str env s), encoded. split; [exact He |].
  unfold client_to_gemini. unfold try_except at 1.
  assert (E : handle_client_msg env (PDict msg) w
              = (Raise (Exn (match Base64.encode_ascii s with
                             | Some _ => "binascii.Error"
                             | None => "UnicodeEncodeError"
                             end) (b64_error_str env s)), w)).
  { unfold handle_client_msg, py_get, bind, ret. rewrite Ht.
    change (eq_lit (pstr "audio") "audio") with true. cbv iota.
    rewrite Hd. unfold call_b64d. rewrite Hb. reflexivity. }
  unfold bind at 1. unfold ret at 1. simpl client_frames.
  unfold recv_json. rewrite Hraw. unfold bind at 1. rewrite E.
  exact Hsend.
Qed.

Lemma client_bad_base64_ends_loop_witness :
  exists encoded,
    client_to_gemini sample_env
      [inl (lit "{" ++ Json.encode_basestring (lit "type") ++ lit ": "
            ++ Json.encode_basestring (lit "audio") ++ lit ", "
            ++ Json.encode_basestring (lit "data") ++ lit ": "
            ++ Json.encode_basestring (lit "a") ++ lit "}");
       inl (lit "{" ++ Json.encode_basestring (lit "type") ++ lit ": "
            ++ Json.encode_basestring (lit "ping") ++ lit "}")]
      None idle
    = (Ok tt, {| out_q := []; trace := [WsSendText encoded] |}).
Proof.
  destruct (client_bad_base64_ends_loop sample_env
              [item "type" (pstr "audio"); item "data" (pstr "a")] idle
              (lit "a")
              (lit "{" ++ Json.encode_basestring (lit "type") ++ lit ": "
               ++ Json.encode_basestring (lit "audio") ++ lit ", "
               ++ Json.encode_basestring (lit "data") ++ lit ": "
               ++ Json.encode_basestring (lit "a") ++ lit "}")
              [inl (lit "{" ++ Json.encode_basestring (lit "type") ++ lit ": "
                    ++ Json.encode_basestring (lit "ping") ++ lit "}")]
              eq_refl eq_refl eq_refl eq_refl)
    as (message & encoded & _ & H).
  exists encoded. exact H.
Defined.

(** X3: a [text] message is passed on upstream, as one send and as it is,
    exactly when its text is a non-empty string; a missing, empty or
    non-string text changes nothing. *)
Theorem client_text_forwarded_iff_nonempty (env : Env)
    (msg : list (pystr * pyval)) (w : World) :
  assoc (lit "type") msg = Some (pstr "text") ->
  let text :=
    match assoc (lit "text") msg with Some v => v | None => PStr [] end in
  (forall c s, text = PStr (c :: s) ->
     snd (handle_client_msg env (PDict msg) w)
     = log_call (SendRealtimeInput "text" text) w)
  /\ ((forall c s, text <> PStr (c :: s)) ->
      handle_client_msg env (PDict msg) w = (Ok tt, w)).
Proof.
  intros Ht text.
  assert (E : handle_client_msg env (PDict msg) w
              = (if isinstance_str text && truthy text
                 then perform env (SendRealtimeInput "text" text)
                 else ret tt) w).
  { unfold handle_client_msg, py_get, bind, ret. rewrite Ht.
    change (eq_lit (pstr "text") "audio") with false.
    change (eq_lit (pstr "text") "text") with true. cbv iota. reflexivity. }
  rewrite E. split.
  - intros c s ->. simpl. unfold perform.
    destruct (io_outcome env (trace w) _); reflexivity.
  - intros H. destruct text as [| | | | [| c s] | | | |]; try reflexivity.
    now elim (H c s).
Qed.

Lemma client_text_forwarded_iff_nonempty_witness :
  snd (handle_client_msg sample_env
         (PDict [item "type" (pstr "text"); item "text" (pstr "hello")]) idle)
  = {| out_q := []; trace := [SendRealtimeInput "text" (pstr "hello")] |}
  /\ handle_client_msg sample_env
       (PDict [item "type" (pstr "text"); item "text" (PInt 7)]) idle
     = (Ok tt, idle).
Proof.
  split.
  - apply (proj1 (client_text_forwarded_iff_nonempty sample_env
                    [item "type" (pstr "text"); item "text" (pstr "hello")] idle
                    eq_refl) 104%N (lit "ello")).
    reflexivity.
  - apply (proj2 (client_text_forwarded_iff_nonempty sample_env
                    [item "type" (pstr "text"); item "text" (PInt 7)] idle
                    eq_refl)).
    intros c s H. discriminate H.
Defined.

(** X4: an [interrupt] message makes one [activity_end] send upstream and
    returns normally whether or not that send raises. *)
Theorem client_interrupt_never_raises (env : Env) (msg : list (pystr * pyval))
    (w : World) :
  assoc (lit "type") msg = Some (pstr "interrupt") ->
  handle_client_msg env (PDict msg) w
  = (Ok tt, log_call (SendRealtimeInput "activity_end" (PDict [])) w).
Proof.
  intros Ht. unfold handle_client_msg, py_get, bind, ret. rewrite Ht.
  change (eq_lit (pstr "interrupt") "audio") with false.
  change (eq_lit (pstr "interrupt") "text") with false.
  change (eq_lit (pstr "interrupt") "interrupt") with true. cbv iota.
  unfold try_except, perform.
  destruct (io_outcome env (trace w) _); reflexivity.
Qed.

Lemma client_interrupt_never_raises_witness :
  handle_client_msg failing_env (PDict [item "type" (pstr "interrupt")]) idle
  = (Ok tt,
     {| out_q := []; trace := [SendRealtimeInput "activity_end" (PDict [])] |}).
Proof.
  apply (client_interrupt_never_raises failing_env
           [item "type" (pstr "interrupt")] idle eq_refl).
Defined.

Lemma emits_send_json (env : Env) (P : effect -> Prop) (obj : pyval) :
  (forall encoded, P (WsSendText encoded)) -> emits P (send_json env obj).
Proof.
  intros HP. unfold send_json.
  destruct (Json.json_dumps obj) as [encoded |]; [| apply emits_raise].
  destruct obj; try apply emits_raise. now apply emits_perform.
Qed.

(** X5: a client message whose type is not [audio], [text] or [interrupt]
    (a [ping], a late [config], an unknown or missing type) never causes a
    send to the upstream session, and never touches the outbound queue. *)
Theorem only_media_messages_reach_upstream (env : Env)
    (msg : list (pystr * pyval)) (w : World) :
  upstream_type (field (PDict msg) "type") = false ->
  exists t,
    trace (snd (handle_client_msg env (PDict msg) w)) = trace w ++ t
    /\ Forall (fun e => is_upstream_send e = false) t
    /\ out_q (snd (handle_client_msg env (PDict msg) w)) = out_q w.
Proof.
  intros H. unfold upstream_type, field in H.
  apply orb_false_elim in H. destruct H as [H H3].
  apply orb_false_elim in H. destruct H as [H1 H2].
  assert (E : handle_client_msg env (PDict msg) w
              = (let t := match assoc (lit "type") msg with
                          | Some v => v
                          | None => PNone
                          end in
                 if eq_lit t "ping" then
                   send_json env (PDict [item "type" (pstr "pong")])
                 else if eq_lit t "config" then ret tt
                 else send_json env
                        (ErrorEvent (lit "Unknown message type: " ++ py_str env t))) w).
  { unfold handle_client_msg, py_get, bind, ret. cbv zeta.
    rewrite H1, H2, H3. reflexivity. }
  rewrite E. cbv zeta.
  assert (S : forall obj, exists t,
             trace (snd (send_json env obj w)) = trace w ++ t
             /\ Forall (fun e => is_upstream_send e = false) t
             /\ out_q (snd (send_json env obj w)) = out_q w).
  { intros obj.
    destruct (emits_send_json env (fun e => is_upstream_send e = false) obj
                (fun _ => eq_refl) w) as (t & Et & Ft).
    exists t. repeat split; trivial. apply send_json_world. }
  destruct (eq_lit _ "ping"); [apply S |].
  destruct (eq_lit _ "config"); [| apply S].
  exists []. simpl. rewrite List.app_nil_r. auto.
Qed.

Lemma only_media_messages_reach_upstream_witness :
  exists t,
    trace (snd (handle_client_msg sample_env
                  (PDict [item "type" (pstr "ping")]) idle)) = t
    /\ Forall (fun e => is_upstream_send e = false) t.
Proof.
  destruct (only_media_messages_reach_upstream sample_env
              [item "type" (pstr "ping")] idle eq_refl) as (t & E & F & _).
  exists t. split; [exact E | exact F].
Defined.

(** X6: a message whose type is none of the five known ones, a missing
    type included, is answered by one [error] frame that names the type,
    and when that frame goes out the loop goes on with the next frame. *)
Theorem client_unknown_type_reported (env : Env) (msg : list (pystr * pyval))
    (w : World) :
  let t := field (PDict msg) "type" in
  eq_lit t "audio" = false -> eq_lit t "text" = false ->
  eq_lit t "interrupt" = false -> eq_lit t "ping" = false ->
  eq_lit t "config" = false ->
  exists encoded,
    Json.json_dumps (ErrorEvent (lit "Unknown message type: " ++ py_str env t))
    = Some encoded
    /\ snd (handle_client_msg env (PDict msg) w) = log_call (WsSendText encoded) w
    /\ (io_outcome env (trace w) (WsSendText encoded) = None ->
        forall raw rest,
          Json.json_loads raw = Some (PDict msg) ->
          client_frames env (inl raw :: rest) w
          = client_frames env rest (log_call (WsSendText encoded) w)).
Proof.
  intros t H1 H2 H3 H4 H5.
  assert (H : exists encoded,
             Json.json_dumps
               (ErrorEvent (lit "Unknown message type: " ++ py_str env t))
             = Some encoded) by (eexists; reflexivity).
  destruct H as [encoded He]. exists encoded. split; [exact He |].
  assert (E : handle_client_msg env (PDict msg) w
              = perform env (WsSendText encoded) w).
  { unfold handle_client_msg, py_get, bind, ret.
    unfold t, field in H1, H2, H3, H4, H5. rewrite H1, H2, H3, H4, H5.
    unfold send_json. fold (field (PDict msg) "type"). fold t.
    fold (ErrorEvent (lit "Unknown message type: " ++ py_str env t)).
    rewrite He. reflexivity. }
  split.
  - rewrite E. unfold perform.
    destruct (io_outcome env (trace w) (WsSendText encoded)); reflexivity.
  - intros Hio raw rest Hraw. simpl. unfold recv_json. rewrite Hraw.
    unfold bind. rewrite E. unfold perform. now rewrite Hio.
Qed.

Lemma client_unknown_type_reported_witness :
  exists encoded,
    Json.json_dumps (ErrorEvent (lit "Unknown message type: None")) = Some encoded
    /\ snd (handle_client_msg sample_env (PDict [item "data" (pstr "x")]) idle)
       = {| out_q := []; trace := [WsSendText encoded] |}.
Proof.
  destruct (client_unknown_type_reported sample_env [item "data" (pstr "x")] idle
              eq_refl eq_refl eq_refl eq_refl eq_refl)
    as (encoded & He & Hw & _).
  exists encoded. split; [exact He | exact Hw].
Defined.

(** X8: a frame that is not JSON ends the client loop with one
    [Invalid message] frame to the client, and a disconnect ends it with no
    frame at all; in both cases the frames that follow are not read and
    nothing is sent upstream. *)
Theorem client_loop_ends_on_bad_frame (env : Env) (raw : pystr)
    (rest : list frame) (w : World) :
  Json.json_loads raw = None ->
  (exists encoded,
      Json.json_dumps
        (ErrorEvent (lit "Invalid message: " ++ json_error_str env raw))
      = Some encoded
      /\ client_frames env (inl raw :: rest) w
         = (Ok tt, log_call (WsSendText encoded) w))
  /\ (forall reason,
        client_frames env (inr (Exn "WebSocketDisconnect" reason) :: rest) w
        = (Ok tt, w)).
Proof.
  intros Hraw. split; [| reflexivity].
  destruct (send_error_swallowed env
              (lit "Invalid message: " ++ json_error_str env raw) w)
    as (encoded & He & H).
  exists encoded. split; [exact He |].
  cbn [client_frames]. unfold recv_json. rewrite Hraw.
  replace (is_exn "WebSocketDisconnect" _) with false
    by (destruct (Json.loads_failure raw); reflexivity).
  exact H.
Qed.

Lemma client_loop_ends_on_bad_frame_witness :
  exists encoded,
    client_frames sample_env [inl (lit "{type"); inl (lit "1")] idle
    = (Ok tt, {| out_q := []; trace := [WsSendText encoded] |}).
Proof.
  destruct (proj1 (client_loop_ends_on_bad_frame sample_env (lit "{type")
                     [inl (lit "1")] idle eq_refl))
    as (encoded & _ & H).
  exists encoded. exact H.
Defined.

(* ===================================================================== *)
(** * The receive loops *)
(* ===================================================================== *)

Lemma read_upstream_fault (body : pyval -> M unit) (up : Upstream) (e : exn)
    (w : World) :
  fault up = Some e ->
  exists e' w1, read_upstream body up w = (Raise e', w1).
Proof.
  intros Hf. unfold read_upstream, bind. rewrite Hf.
  destruct (relay_responses body (responses up) w) as [[[] | e'] w1];
    eexists _, _; reflexivity.
Qed.

(** X9: an [Exception] raised by the read of the upstream stream is
    caught by [gemini_recv_loop]: the loop returns, and the last event it
    leaves in the queue is an [error] event whose message starts with
    [Gemini receive error: ].  (The cancellation of the task is no
    [Exception]; the handler does not catch it and the model does not
    follow it.) *)
Theorem gemini_recv_loop_ends_with_error_event (env : Env) (up : Upstream)
    (w : World) (e : exn) :
  fault up = Some e ->
  exists w' q message,
    gemini_recv_loop env up w = (Ok tt, w')
    /\ out_q w' = q ++ [ErrorEvent (lit "Gemini receive error: " ++ message)].
Proof.
  intros Hf. unfold gemini_recv_loop, try_except.
  destruct (read_upstream_fault (relay_response env) up e w Hf)
    as (e' & w1 & ->).
  eexists _, (out_q w1), (exn_str e'). split; reflexivity.
Qed.

Lemma gemini_recv_loop_ends_with_error_event_witness :
  exists w' q message,
    gemini_recv_loop sample_env
      {| responses := [PObj [item "server_content"
                               (PObj [item "interrupted" (PBool true)])]];
         fault := Some (Exn "ConnectionClosed" (lit "gone")) |}
      idle = (Ok tt, w')
    /\ out_q w' = q ++ [ErrorEvent (lit "Gemini receive error: " ++ message)].
Proof.
  apply (gemini_recv_loop_ends_with_error_event sample_env
           {| responses := [PObj [item "server_content"
                                    (PObj [item "interrupted" (PBool true)])]];
              fault := Some (Exn "ConnectionClosed" (lit "gone")) |}
           idle (Exn "ConnectionClosed" (lit "gone")) eq_refl).
Defined.

(** ** Text parts *)

Lemma lstrip_nil (s : pystr) : lstrip s = [] <-> forallb isspace s = true.
Proof.
  induction s as [| c s IH]; simpl; [tauto |].
  destruct (isspace c); simpl; [exact IH |]. split; discriminate.
Qed.

Lemma lstrip_head (s : pystr) :
  match lstrip s with
  | [] => True
  | c :: _ => isspace c = false
  end.
Proof.
  induction s as [| c s IH]; simpl; [exact I |].
  destruct (isspace c) eqn:E; [exact IH | exact E].
Qed.

Lemma forallb_rev (A : Type) (f : A -> bool) (l : list A) :
  forallb f (rev l) = forallb f l.
Proof.
  induction l as [| x l IH]; simpl; [reflexivity |].
  rewrite forallb_app, IH. simpl. rewrite andb_true_r. apply andb_comm.
Qed.

(** [s.strip()] is empty exactly when [s] is whitespace throughout. *)
Lemma strip_nil (s : pystr) : strip s = [] <-> forallb isspace s = true.
Proof.
  unfold strip. split.
  - intros H. apply (f_equal (@rev N)) in H. rewrite rev_involutive in H.
    simpl in H. apply lstrip_nil in H. rewrite forallb_rev in H.
    pose proof (lstrip_head s) as Hh.
    destruct (lstrip s) as [| c t] eqn:E; [now apply lstrip_nil |].
    simpl in H. rewrite Hh in H. discriminate H.
  - intros H. apply lstrip_nil in H. rewrite H. reflexivity.
Qed.

(** X10: a text part is relayed exactly when its text has a character
    that is not whitespace, and then as it came, not stripped; a blank text
    part leaves no trace. *)
Theorem blank_text_parts_dropped (part : pyval) (text : pystr) (w : World) :
  truthy (getattr part "inline_data" PNone) = false ->
  getattr part "text" PNone = PStr text ->
  relay_part part w
  = if forallb isspace text then (Ok tt, w) else q_put (TextEvent text) w.
Proof.
  intros Hi Ht. unfold relay_part. rewrite Hi, Ht.
  unfold bind at 1. unfold ret at 1.
  destruct (forallb isspace text) eqn:E.
  - apply strip_nil in E. rewrite E. reflexivity.
  - destruct (strip text) as [| c t] eqn:Es; [| reflexivity].
    apply strip_nil in Es. congruence.
Qed.

Lemma blank_text_parts_dropped_witness :
  relay_part (PObj [item "text" (PStr [32; 10; 9]%N)]) idle = (Ok tt, idle)
  /\ relay_part (PObj [item "text" (pstr " hi ")]) idle
     = (Ok tt, {| out_q := [TextEvent (lit " hi ")];
                  trace := [QPut (TextEvent (lit " hi "))] |}).
Proof.
  split.
  - apply (blank_text_parts_dropped (PObj [item "text" (PStr [32; 10; 9]%N)])
             [32; 10; 9]%N idle eq_refl eq_refl).
  - apply (blank_text_parts_dropped (PObj [item "text" (pstr " hi ")])
             (lit " hi ") idle eq_refl eq_refl).
Defined.

(** ** The queue discipline *)

Section Appends.

Variable env : Env.

Lemma appends_silent A (m : M A) : silent m -> appends m.
Proof.
  intros H w. exists []. rewrite H. simpl. now rewrite !List.app_nil_r.
Qed.

Lemma appends_ret A (a : A) : appends (ret a).
Proof. apply appends_silent. intros w. reflexivity. Qed.

Lemma appends_raise A (e : exn) : appends (@raise A e).
Proof. apply appends_silent. intros w. reflexivity. Qed.

Lemma appends_lift A (r : outcome A) : appends (lift r).
Proof. apply appends_silent. intros w. reflexivity. Qed.

Lemma appends_bind A B (m : M A) (k : A -> M B) :
  appends m -> (forall a, appends (k a)) -> appends (bind m k).
Proof.
  intros Hm Hk w. unfold bind.
  destruct (Hm w) as (t1 & E1 & Q1).
  destruct (m w) as [[a | e] w1]; simpl in *.
  - destruct (Hk a w1) as (t2 & E2 & Q2).
    exists (t1 ++ t2).
    rewrite E2, E1, Q2, Q1, enqueued_app, !List.app_assoc. auto.
  - now exists t1.
Qed.

Lemma appends_try_except A (m : M A) (h : exn -> M A) :
  appends m -> (forall e, appends (h e)) -> appends (try_except m h).
Proof.
  intros Hm Hh w. unfold try_except.
  destruct (Hm w) as (t1 & E1 & Q1).
  destruct (m w) as [[a | e] w1]; simpl in *.
  - now exists t1.
  - destruct (Hh e w1) as (t2 & E2 & Q2).
    exists (t1 ++ t2).
    rewrite E2, E1, Q2, Q1, enqueued_app, !List.app_assoc. auto.
Qed.

Lemma appends_perform (e : effect) :
  (forall evt, e <> QPut evt) -> appends (perform env e).
Proof.
  intros He w. exists [e]. unfold perform.
  assert (Hq : enqueued [e] = []).
  { destruct e; try reflexivity. now elim (He evt). }
  rewrite Hq, List.app_nil_r.
  destruct (io_outcome env (trace w) e); simpl; auto.
Qed.

Lemma appends_q_put (evt : pyval) : appends (q_put evt).
Proof. intros w. exists [QPut evt]. simpl. auto. Qed.

Lemma appends_iterate (v : pyval) : appends (iterate v).
Proof.
  unfold iterate. destruct (py_iter v); [apply appends_ret | apply appends_raise].
Qed.

Lemma appends_py_attr (o : pyval) (name : string) : appends (py_attr o name).
Proof.
  unfold py_attr. destruct o; try apply appends_raise.
  destruct (assoc (lit name) attrs); [apply appends_ret | apply appends_raise].
Qed.

Lemma appends_relay_part (part : pyval) : appends (relay_part part).
Proof.
  unfold relay_part. apply appends_bind.
  - destruct (truthy (getattr part "inline_data" PNone)); [| apply appends_ret].
    destruct (getattr (getattr part "inline_data" PNone) "data" PNone);
      try apply appends_ret.
    apply appends_bind; [| intros encoded; apply appends_q_put].
    unfold call_b64e. destruct (b64e b); [apply appends_ret | apply appends_raise].
  - intros _. destruct (getattr part "text" PNone); try apply appends_ret.
    destruct (truthy (PStr (strip s))); [apply appends_q_put | apply appends_ret].
Qed.

Lemma appends_relay_model_turn (sc : pyval) : appends (relay_model_turn sc).
Proof.
  unfold relay_model_turn.
  destruct (truthy sc && truthy (getattr sc "model_turn" PNone));
    [| apply appends_ret].
  apply appends_bind; [apply appends_py_attr |]. intros model_turn.
  apply appends_bind; [apply appends_iterate |]. intros parts.
  induction parts as [| part parts IH]; simpl; [apply appends_ret |].
  apply appends_bind; [apply appends_relay_part | intros _; exact IH].
Qed.

Lemma appends_dispatch_function_calls (fcs frs : list pyval) :
  appends (dispatch_function_calls env fcs frs).
Proof.
  intros w.
  destruct (dispatch_function_calls_spec env fcs frs w) as (frs' & t & E & _).
  exists t. rewrite E. simpl. auto.
Qed.

Lemma appends_relay_tool_call (response : pyval) :
  appends (relay_tool_call env response).
Proof.
  unfold relay_tool_call.
  destruct (truthy (getattr response "tool_call" PNone)
            && truthy (getattr (getattr response "tool_call" PNone)
                         "function_calls" PNone)); [| apply appends_ret].
  apply appends_bind; [apply appends_iterate |]. intros fcs.
  apply appends_bind; [apply appends_dispatch_function_calls |].
  intros [| fr frs]; [apply appends_ret |].
  apply appends_perform. discriminate.
Qed.

(** ** First in, first out *)

Lemma skipn_app_head (A : Type) (k : nat) (l1 l2 : list A) :
  skipn k l1 ++ l2 = skipn (Nat.min k (List.length l1)) (l1 ++ l2).
Proof.
  destruct (Nat.le_gt_cases k (List.length l1)) as [H | H].
  - rewrite Nat.min_l by assumption. rewrite skipn_app.
    replace (k - List.length l1) with 0 by lia. reflexivity.
  - rewrite Nat.min_r by lia. rewrite skipn_all2 by lia.
    rewrite skipn_app, skipn_all, Nat.sub_diag. reflexivity.
Qed.

Lemma fifo_appends A (m : M A) : appends m -> fifo m.
Proof.
  intros H w. destruct (H w) as (t & E & Q). exists t, 0. auto.
Qed.

Lemma fifo_bind A B (m : M A) (k : A -> M B) :
  fifo m -> (forall a, fifo (k a)) -> fifo (bind m k).
Proof.
  intros Hm Hk w. unfold bind.
  destruct (Hm w) as (t1 & k1 & E1 & Q1).
  destruct (m w) as [[a | e] w1]; simpl in *.
  - destruct (Hk a w1) as (t2 & k2 & E2 & Q2).
    exists (t1 ++ t2), (k2 + Nat.min k1 (List.length (out_q w ++ enqueued t1))).
    rewrite E2, E1, Q2, Q1, enqueued_app, List.app_assoc. split; trivial.
    rewrite skipn_app_head, skipn_skipn, <- List.app_assoc. reflexivity.
  - now exists t1, k1.
Qed.

Lemma fifo_try_except A (m : M A) (h : exn -> M A) :
  fifo m -> (forall e, fifo (h e)) -> fifo (try_except m h).
Proof.
  intros Hm Hh w. unfold try_except.
  destruct (Hm w) as (t1 & k1 & E1 & Q1).
  destruct (m w) as [[a | e] w1]; simpl in *.
  - now exists t1, k1.
  - destruct (Hh e w1) as (t2 & k2 & E2 & Q2).
    exists (t1 ++ t2), (k2 + Nat.min k1 (List.length (out_q w ++ enqueued t1))).
    rewrite E2, E1, Q2, Q1, enqueued_app, List.app_assoc. split; trivial.
    rewrite skipn_app_head, skipn_skipn, <- List.app_assoc. reflexivity.
Qed.

Lemma fifo_drain_queue : fifo drain_queue.
Proof.
  intros w. exists (map QGetNowait (out_q w)), (List.length (out_q w)).
  rewrite drain_queue_spec. simpl. split; trivial.
  rewrite enqueued_drained, List.app_nil_r. now rewrite skipn_all.
Qed.

Lemma fifo_relay_response (response : pyval) : fifo (relay_response env response).
Proof.
  unfold relay_response.
  apply fifo_bind; [apply fifo_appends, appends_relay_tool_call |]. intros _.
  apply fifo_bind; [apply fifo_appends, appends_relay_model_turn |]. intros _.
  unfold relay_interrupted. destruct (truthy _); [| apply fifo_appends, appends_ret].
  apply fifo_bind; [apply fifo_drain_queue |]. intros _.
  apply fifo_appends, appends_q_put.
Qed.

Lemma fifo_read_upstream (body : pyval -> M unit) (up : Upstream) :
  (forall response, fifo (body response)) -> fifo (read_upstream body up).
Proof.
  intros Hbody. unfold read_upstream. apply fifo_bind.
  - induction (responses up) as [| response rest IH]; simpl;
      [apply fifo_appends, appends_ret |].
    apply fifo_bind; [apply Hbody | intros _; exact IH].
  - intros _. destruct (fault up);
      [apply fifo_appends, appends_raise | apply fifo_appends, appends_ret].
Qed.

Lemma fifo_gemini_recv_loop (up : Upstream) : fifo (gemini_recv_loop env up).
Proof.
  unfold gemini_recv_loop. apply fifo_try_except.
  - apply fifo_read_upstream. apply fifo_relay_response.
  - intros e. apply fifo_appends, appends_q_put.
Qed.

End Appends.

(** X11: without an interruption the receive loop only appends: handling
    a response that reports none leaves in the queue what was there,
    untouched and in place, followed by the events the response enqueued,
    in the order of their enqueue. *)
Theorem relay_response_only_appends (env : Env) (response : pyval) (w : World) :
  let sc := getattr response "server_content" PNone in
  truthy (if truthy sc then getattr sc "interrupted" (PBool false)
          else PBool false) = false ->
  exists t,
    trace (snd (relay_response env response w)) = trace w ++ t
    /\ out_q (snd (relay_response env response w)) = out_q w ++ enqueued t.
Proof.
  intros sc Hi.
  assert (H : appends (relay_response env response)).
  { unfold relay_response. fold sc.
    apply appends_bind; [apply appends_relay_tool_call |]. intros _.
    apply appends_bind; [apply appends_relay_model_turn |]. intros _.
    unfold relay_interrupted. rewrite Hi. apply appends_ret. }
  apply H.
Qed.

Lemma relay_response_only_appends_witness :
  exists t,
    trace (snd (relay_response sample_env
                  (PObj [item "server_content"
                           (PObj [item "model_turn"
                                    (PObj [item "parts"
                                             (PList [PObj [item "text" (pstr "hi")]])])])])
                  {| out_q := [Interrupted]; trace := [] |})) = t
    /\ out_q (snd (relay_response sample_env
                     (PObj [item "server_content"
                              (PObj [item "model_turn"
                                       (PObj [item "parts"
                                                (PList [PObj [item "text" (pstr "hi")]])])])])
                     {| out_q := [Interrupted]; trace := [] |}))
       = [Interrupted] ++ enqueued t.
Proof.
  apply (relay_response_only_appends sample_env
           (PObj [item "server_content"
                    (PObj [item "model_turn"
                             (PObj [item "parts"
                                      (PList [PObj [item "text" (pstr "hi")]])])])])
           {| out_q := [Interrupted]; trace := [] |} eq_refl).
Defined.

(** X12: an interruption flushes the response that reports it as well.
    When a response whose server content reports an interruption has been
    handled, the queue holds the [interrupted] marker and nothing else:
    neither what was queued before nor the audio and the text that the
    same response carried, which are enqueued before the flush. *)
Theorem interruption_flushes_own_response (env : Env) (response : pyval)
    (w w' : World) :
  let sc := getattr response "server_content" PNone in
  truthy sc = true ->
  truthy (getattr sc "interrupted" (PBool false)) = true ->
  relay_response env response w = (Ok tt, w') ->
  out_q w' = [Interrupted]
  /\ exists t, trace w' = trace w ++ t ++ [QPut Interrupted].
Proof.
  intros sc Hsc Hi H. unfold relay_response in H. fold sc in H.
  unfold bind at 1 in H.
  destruct (appends_relay_tool_call env response w) as (t1 & E1 & _).
  destruct (relay_tool_call env response w) as [[[] | e] w1]; [| discriminate H].
  unfold bind at 1 in H.
  destruct (appends_relay_model_turn sc w1) as (t2 & E2 & _).
  destruct (relay_model_turn sc w1) as [[[] | e] w2]; [| discriminate H].
  rewrite (relay_interrupted_spec sc w2 Hsc Hi) in H.
  injection H as <-. simpl in *. split; [reflexivity |].
  exists (t1 ++ t2 ++ map QGetNowait (out_q w2)).
  rewrite E2, E1, <- !List.app_assoc. reflexivity.
Qed.

Lemma interruption_flushes_own_response_witness :
  out_q (snd (relay_response sample_env
                (PObj [item "server_content"
                         (PObj [item "model_turn"
                                  (PObj [item "parts"
                                           (PList [PObj [item "text" (pstr "hi")]])]);
                                item "interrupted" (PBool true)])])
                {| out_q := [TextEvent (lit "old")]; trace := [] |}))
  = [Interrupted].
Proof.
  apply (interruption_flushes_own_response sample_env
           (PObj [item "server_content"
                    (PObj [item "model_turn"
                             (PObj [item "parts"
                                      (PList [PObj [item "text" (pstr "hi")]])]);
                           item "interrupted" (PBool true)])])
           {| out_q := [TextEvent (lit "old")]; trace := [] |}
           (snd (relay_response sample_env
                   (PObj [item "server_content"
                            (PObj [item "model_turn"
                                     (PObj [item "parts"
                                              (PList [PObj [item "text" (pstr "hi")]])]);
                                   item "interrupted" (PBool true)])])
                   {| out_q := [TextEvent (lit "old")]; trace := [] |}))
           eq_refl eq_refl eq_refl).
Defined.

(** ** The reply batch *)

(** X13: the reply batch follows the requests.  Whatever the requests of a
    notification are and whatever the gateway answers, the loop adds to the
    batch one entry per request that has an identifier, in the order of the
    requests and each under the identifier of its request, and the client
    is sent one error event per request without identifier, in their order
    too. *)
Theorem reply_batch_follows_requests (env : Env) (fcs : list pyval) :
  forall (function_responses : list pyval) (w : World),
  exists entries t,
    dispatch_function_calls env fcs function_responses w
    = (Ok (function_responses ++ entries),
       {| out_q := out_q w ++ enqueued t; trace := trace w ++ t |})
    /\ map (fun entry => field entry "id") entries
       = map (fun fc => getattr fc "id" PNone) (filter has_id fcs)
    /\ enqueued t
       = map (missing_id_event env) (filter (fun fc => negb (has_id fc)) fcs).
Proof.
  induction fcs as [| fc fcs IH]; intros frs w.
  - exists [], []. simpl. rewrite !List.app_nil_r. destruct w. auto.
  - simpl dispatch_function_calls. unfold bind.
    destruct (has_id fc) eqn:Hid; [destruct (has_name fc) eqn:Hname |].
    + rewrite dispatch_with_call by assumption.
      edestruct IH as (entries & t & E & I & Q). rewrite E. clear E.
      eexists (_ :: entries),
        (McpCallTool (getattr fc "name" PNone) (call_args fc) :: t).
      simpl. rewrite Hid. simpl. rewrite <- !List.app_assoc. simpl.
      split; [reflexivity |]. split; [now f_equal | assumption].
    + rewrite dispatch_without_name by assumption.
      edestruct IH as (entries & t & E & I & Q). rewrite E. clear E.
      eexists (_ :: entries), t.
      simpl. rewrite Hid. simpl. rewrite <- !List.app_assoc. simpl.
      split; [reflexivity |]. split; [now f_equal | assumption].
    + rewrite dispatch_without_id by assumption.
      edestruct IH as (entries & t & E & I & Q). rewrite E. clear E.
      eexists entries, (QPut _ :: t).
      simpl. rewrite Hid. simpl. rewrite <- !List.app_assoc. simpl.
      split; [reflexivity |]. split; [assumption | now f_equal].
Qed.

(** ** [GeminiLiveBridge.recv_loop] *)

(** X14: the receive loop of [gemini_live.py] has no handler of its own:
    when reading the upstream stream raises, the loop raises, and the only
    events it has enqueued are audio and text events, so the client is not
    told of the failure by this loop. *)
Theorem recv_loop_propagates_fault (up : Upstream) (e : exn) (w : World) :
  fault up = Some e ->
  (exists e', fst (recv_loop true up w) = Raise e')
  /\ exists t,
       trace (snd (recv_loop true up w)) = trace w ++ t
       /\ Forall (fun evt => field evt "type" = pstr "audio"
                             \/ field evt "type" = pstr "text") (enqueued t).
Proof.
  intros Hf. split.
  - unfold recv_loop, read_upstream. simpl. unfold bind. rewrite Hf.
    destruct (relay_responses bridge_response (responses up) w) as [[[] | e'] w'];
      eexists; reflexivity.
  - destruct (@recv_loop_puts
                (fun evt => field evt "type" = pstr "audio"
                            \/ field evt "type" = pstr "text")
                (fun _ => or_introl eq_refl) (fun _ => or_intror eq_refl)
                true up w) as (t & E & F).
    exists t. split; [exact E | now apply puts_enqueued].
Qed.

Lemma recv_loop_propagates_fault_witness :
  exists e',
    fst (recv_loop true
           {| responses := []; fault := Some (Exn "ConnectionClosed" (lit "closed")) |}
           idle) = Raise e'.
Proof.
  apply (proj1 (recv_loop_propagates_fault
                  {| responses := [];
                     fault := Some (Exn "ConnectionClosed" (lit "closed")) |}
                  (Exn "ConnectionClosed" (lit "closed")) idle eq_refl)).
Defined.

(** X15: audio comes out as it went in.  For a part whose inline data are
    the bytes [b] and that has no text, the loop enqueues exactly one event,
    an audio event, and decoding its [data] with [b64d] gives [b] back. *)
Theorem audio_part_decodes_to_its_bytes (part : pyval) (b : list byte) (w : World) :
  truthy (getattr part "inline_data" PNone) = true ->
  getattr (getattr part "inline_data" PNone) "data" PNone = PBytes b ->
  isinstance_str (getattr part "text" PNone) = false ->
  exists data,
    relay_part part w = q_put (AudioEvent data (lit "audio/pcm;rate=24000")) w
    /\ b64d data = Some b.
Proof.
  intros Hi Hd Ht.
  destruct (b64_round_trip b) as (data & He & Hdec).
  exists data. split; [| exact Hdec].
  unfold relay_part. rewrite Hi, Hd. unfold call_b64e. rewrite He.
  unfold bind, ret. simpl.
  destruct (getattr part "text" PNone); try reflexivity. discriminate.
Qed.

Lemma audio_part_decodes_to_its_bytes_witness :
  exists data,
    relay_part (PObj [item "inline_data" (PObj [item "data" (PBytes ["h"%byte; "i"%byte])])])
      idle
    = q_put (AudioEvent data (lit "audio/pcm;rate=24000")) idle
    /\ b64d data = Some ["h"%byte; "i"%byte].
Proof.
  apply (audio_part_decodes_to_its_bytes
           (PObj [item "inline_data" (PObj [item "data" (PBytes ["h"%byte; "i"%byte])])])
           ["h"%byte; "i"%byte] idle eq_refl eq_refl eq_refl).
Defined.

(** * The delivery loop *)

Lemma send_json_cases (env : Env) (obj : pyval) (w : World) :
  (exists encoded,
      Json.json_dumps obj = Some encoded
      /\ snd (send_json env obj w) = log_call (WsSendText encoded) w)
  \/ (snd (send_json env obj w) = w
      /\ exists e, fst (send_json env obj w) = Raise e).
Proof.
  unfold send_json. destruct (Json.json_dumps obj) as [encoded |].
  - destruct obj; try (right; split; [reflexivity | eexists; reflexivity]).
    left. exists encoded. split; trivial. unfold perform.
    destruct (io_outcome _ _ _); reflexivity.
  - right. split; [reflexivity | eexists; reflexivity].
Qed.

(** X16: the delivery loop hands the events over in queue order.  After
    any number of rounds the events it took are a prefix of the queue, the
    rest of the queue is untouched, and the frames handed to the websocket
    are the JSON encodings of the events taken, in order, except possibly
    the last one: an event is taken from the queue before it is encoded and
    sent, so the event on which the loop raises is lost.  When the loop does
    not raise, every event taken was sent. *)
Theorem delivery_follows_queue_order (env : Env) (n : nat) (w : World) :
  exists t k j,
    trace (snd (gemini_to_client env n w)) = trace w ++ t
    /\ delivered t = firstn k (out_q w)
    /\ out_q (snd (gemini_to_client env n w)) = skipn k (out_q w)
    /\ map Some (sent_frames t) = map Json.json_dumps (firstn j (out_q w))
    /\ j <= k <= S j
    /\ (fst (gemini_to_client env n w) = Ok tt ->
        j = k /\ k = Nat.min n (List.length (out_q w))).
Proof.
  revert w. induction n as [| n IH]; intros w.
  - exists [], 0, 0. simpl. rewrite List.app_nil_r. auto 10.
  - simpl. unfold bind, q_get.
    destruct (out_q w) as [| evt q] eqn:Hq.
    + exists [], 0, 0. simpl. rewrite List.app_nil_r, Hq. auto 10.
    + set (w1 := {| out_q := q; trace := trace w ++ [QGet evt] |}).
      destruct (send_json_cases env evt w1) as [(enc & Hd & Hw) | (Hw & e & He)].
      * destruct (send_json env evt w1) as [[[] | e] w2]; simpl in Hw; subst w2.
        -- destruct (IH (log_call (WsSendText enc) w1))
             as (t & k & j & Ht & Hdel & Hout & Hsent & Hjk & Hok).
           exists (QGet evt :: WsSendText enc :: t), (S k), (S j).
           simpl in *. rewrite Ht, Hout, <- !List.app_assoc. simpl.
           rewrite Hdel, Hd, Hsent.
           split; [reflexivity |]. split; [reflexivity |].
           split; [reflexivity |]. split; [reflexivity |].
           split; [lia |]. intros H. destruct (Hok H). split; congruence.
        -- exists [QGet evt; WsSendText enc], 1, 1.
           simpl. rewrite <- !List.app_assoc, Hd. simpl.
           split; [reflexivity |]. split; [reflexivity |].
           split; [reflexivity |]. split; [reflexivity |].
           split; [lia | discriminate].
      * destruct (send_json env evt w1) as [[[] | e'] w2]; simpl in Hw, He;
          [discriminate |]. subst w2.
        exists [QGet evt], 1, 0. simpl.
        split; [reflexivity |]. split; [reflexivity |].
        split; [reflexivity |]. split; [reflexivity |].
        split; [lia | discriminate].
Qed.

Lemma delivery_follows_queue_order_witness :
  exists t k j,
    trace (snd (gemini_to_client sample_env 3
                  {| out_q := [Interrupted; PInt 1; TextEvent (lit "hi")];
                     trace := [] |})) = [] ++ t
    /\ delivered t = firstn k [Interrupted; PInt 1; TextEvent (lit "hi")]
    /\ out_q (snd (gemini_to_client sample_env 3
                     {| out_q := [Interrupted; PInt 1; TextEvent (lit "hi")];
                        trace := [] |}))
       = skipn k [Interrupted; PInt 1; TextEvent (lit "hi")]
    /\ map Some (sent_frames t)
       = map Json.json_dumps (firstn j [Interrupted; PInt 1; TextEvent (lit "hi")])
    /\ j <= k <= S j
    /\ (fst (gemini_to_client sample_env 3
               {| out_q := [Interrupted; PInt 1; TextEvent (lit "hi")];
                  trace := [] |}) = Ok tt ->
        j = k /\ k = Nat.min 3 3).
Proof.
  apply (delivery_follows_queue_order sample_env 3
           {| out_q := [Interrupted; PInt 1; TextEvent (lit "hi")]; trace := [] |}).
Defined.

(** * The session bridge *)

(** X17: with no API key in the environment the handler accepts the
    websocket and raises at once: nothing is read, no tool is discovered,
    no upstream connection is tried, and the client is sent neither an
    error event nor a close. *)
Theorem ws_handler_without_key_raises (env : Env) (first_frame : option frame)
    (w : World) :
  GEMINI_API_KEY env = None \/ GEMINI_API_KEY env = Some [] ->
  trace (snd (ws_handler env first_frame w)) = trace w ++ [WsAccept]
  /\ exists e, fst (ws_handler env first_frame w) = Raise e.
Proof.
  intros Hk. unfold ws_handler, bind, perform.
  destruct (io_outcome env (trace w) WsAccept).
  - split; [reflexivity | eexists; reflexivity].
  - destruct Hk as [Hk | Hk]; rewrite Hk;
      (split; [reflexivity | eexists; reflexivity]).
Qed.

Lemma ws_handler_without_key_raises_witness :
  trace (snd (ws_handler failing_env None idle)) = [WsAccept]
  /\ exists e, fst (ws_handler failing_env None idle) = Raise e.
Proof.
  apply (ws_handler_without_key_raises failing_env None idle (or_introl eq_refl)).
Defined.

(** X18: with an API key, a handler whose websocket was accepted raises
    nothing up to the start of the relay: whatever the gateway, the client
    and the upstream service do, it either reaches the relay or returns,
    and in the second case its last call is the close of the websocket.
    (The construction of the SDK client on line 374 makes no call and is
    taken not to raise.) *)
Theorem ws_handler_answers_and_closes (env : Env) (first_frame : option frame)
    (w : World) (c : N) (key : pystr) :
  GEMINI_API_KEY env = Some (c :: key) ->
  io_outcome env (trace w) WsAccept = None ->
  exists reached w',
    ws_handler env first_frame w = (Ok reached, w')
    /\ (reached = CLOSED -> exists tr, trace w' = tr ++ [WsClose]).
Proof.
  intros Hk Ha. unfold ws_handler. rewrite Hk.
  unfold bind at 1. unfold perform at 1. rewrite Ha.
  unfold bind at 1. unfold try_except at 1.
  destruct (ws_session env first_frame (log_call WsAccept w))
    as [[[m cfg p |] | e] w1].
  - eexists _, _. split; [reflexivity | discriminate].
  - unfold bind, try_except, perform, ret.
    destruct (io_outcome env (trace w1) WsClose);
      eexists _, _; (split; [reflexivity | intros _; eexists; reflexivity]).
  - assert (H : exists w2,
               bind (if is_exn "WebSocketDisconnect" e then ret tt
                     else try_except
                            (send_json env
                               (PDict [item "type" (pstr "error");
                                       item "message" (PStr (exn_str e))]))
                            (fun _ => ret tt))
                 (fun _ => ret CLOSED) w1 = (Ok CLOSED, w2)).
    { destruct (is_exn "WebSocketDisconnect" e).
      - eexists. reflexivity.
      - destruct (send_error_swallowed env (exn_str e) w1) as (enc & _ & Hs).
        unfold ErrorEvent in Hs. unfold bind at 1. rewrite Hs.
        eexists. reflexivity. }
    destruct H as (w2 & H). rewrite H.
    unfold bind, try_except, perform, ret.
    destruct (io_outcome env (trace w2) WsClose);
      eexists _, _; (split; [reflexivity | intros _; eexists; reflexivity]).
Qed.

Lemma ws_handler_answers_and_closes_witness :
  exists reached w',
    ws_handler refusing_env None idle = (Ok reached, w')
    /\ (reached = CLOSED -> exists tr, trace w' = tr ++ [WsClose]).
Proof.
  apply (ws_handler_answers_and_closes refusing_env None idle 107%N (lit "ey")
           eq_refl eq_refl).
Defined.

(** X19: when the upstream service refuses the full configuration and the
    minimal one as well, the session ends there: the client is sent one
    error event carrying the text of the second failure, the websocket is
    closed, and no [ready] event is sent, whether or not the client still
    takes frames. *)
Theorem upstream_refused_twice_reported (env : Env) (first_frame : option frame)
    (w w2 : World) (c : N) (key model : pystr) (cfg : list (pystr * pyval))
    (pending : pyval) (e1 e2 : exn) :
  GEMINI_API_KEY env = Some (c :: key) ->
  io_outcome env (trace w) WsAccept = None ->
  prepare_session env first_frame (log_call WsAccept w)
  = (Ok (Some (model, cfg, pending)), w2) ->
  let full := LiveConnect model (PDict cfg) in
  let reduced := LiveConnect model (PDict (minimal_cfg cfg)) in
  io_outcome env (trace w2) full = Some e1 ->
  io_outcome env (trace w2 ++ [full]) reduced = Some e2 ->
  is_exn "WebSocketDisconnect" e2 = false ->
  exists encoded,
    Json.json_dumps (ErrorEvent (exn_str e2)) = Some encoded
    /\ ws_handler env first_frame w
       = (Ok CLOSED,
          {| out_q := out_q w2;
             trace := trace w2 ++ [full; reduced; WsSendText encoded; WsClose] |}).
Proof.
  intros Hk Ha Hp full reduced H1 H2 Hd.
  set (w3 := {| out_q := out_q w2; trace := trace w2 ++ [full; reduced] |}).
  destruct (send_error_swallowed env (exn_str e2) w3) as (enc & Henc & Hs).
  exists enc. split; [exact Henc |].
  assert (Hsess : ws_session env first_frame (log_call WsAccept w) = (Raise e2, w3)).
  { unfold ws_session. unfold bind at 1. rewrite Hp.
    unfold open_session, establish_upstream.
    unfold bind at 1. unfold try_except. unfold bind at 1.
    unfold perform at 1. fold full. rewrite H1.
    unfold bind at 1. unfold perform at 1. simpl trace. fold reduced. rewrite H2.
    unfold w3, log_call. simpl. now rewrite <- List.app_assoc. }
  unfold ws_handler. rewrite Hk.
  unfold bind at 1. unfold perform at 1. rewrite Ha.
  unfold bind at 1. unfold try_except at 1. rewrite Hsess, Hd.
  unfold bind at 1. unfold bind at 1. unfold ErrorEvent in Hs. rewrite Hs.
  unfold bind, try_except, perform, ret, log_call, w3. simpl.
  destruct (io_outcome env _ WsClose); now rewrite <- !List.app_assoc.
Qed.

Lemma upstream_refused_twice_reported_witness :
  exists encoded,
    Json.json_dumps (ErrorEvent (lit "service unavailable")) = Some encoded
    /\ ws_handler refusing_env None idle
       = (Ok CLOSED,
          {| out_q := [];
             trace := [WsAccept; McpListTools;
                       LiveConnect DEFAULT_MODEL (PDict DEFAULT_CONFIG);
                       LiveConnect DEFAULT_MODEL (PDict (minimal_cfg DEFAULT_CONFIG));
                       WsSendText encoded; WsClose] |}).
Proof.
  apply (upstream_refused_twice_reported refusing_env None idle
           {| out_q := []; trace := [WsAccept; McpListTools] |}
           107%N (lit "ey") DEFAULT_MODEL DEFAULT_CONFIG PNone
           (Exn "APIError" (lit "service unavailable"))
           (Exn "APIError" (lit "service unavailable"))
           eq_refl eq_refl eq_refl eq_refl eq_refl eq_refl).
Defined.

(** X20: an upstream session that was opened is not left open.  Whenever
    opening and announcing the session raises, either both connection
    attempts failed, and the exception is the one of the second, or the last
    call made is the close of the upstream session. *)
Theorem open_session_releases_upstream (env : Env) (model : pystr)
    (cfg : list (pystr * pyval)) (pending : pyval) (w w' : World) (e : exn) :
  open_session env model cfg pending w = (Raise e, w') ->
  let full := LiveConnect model (PDict cfg) in
  let reduced := LiveConnect model (PDict (minimal_cfg cfg)) in
  (io_outcome env (trace w) full <> None
   /\ io_outcome env (trace w ++ [full]) reduced = Some e
   /\ trace w' = trace w ++ [full; reduced])
  \/ exists tr, trace w' = tr ++ [LiveClose].
Proof.
  intros H full reduced.
  destruct (ready_serializable model) as (enc & Henc).
  unfold open_session, establish_upstream, announce_ready, send_json in H.
  unfold Ready in Henc. rewrite Henc in H.
  unfold bind, try_except, perform, ret, raise in H. fold full reduced in H.
  simpl in H.
  destruct (io_outcome env (trace w) full) as [e1 |] eqn:H1.
  - simpl in H. fold full reduced in H.
    destruct (io_outcome env (trace w ++ [full]) reduced) as [e2 |] eqn:H2.
    + left. injection H as <- <-. simpl. rewrite <- List.app_assoc.
      split; [discriminate | split; reflexivity].
    + right. simpl in H.
      destruct (io_outcome env _ (WsSendText enc)); [| discriminate].
      simpl in H. destruct (io_outcome env _ LiveClose);
        injection H as <- <-; simpl; eexists; reflexivity.
  - right. simpl in H.
    destruct (io_outcome env _ (WsSendText enc)); [| discriminate].
    simpl in H. destruct (io_outcome env _ LiveClose);
      injection H as <- <-; simpl; eexists; reflexivity.
Qed.

Lemma open_session_releases_upstream_witness :
  (io_outcome offline_env [] (LiveConnect DEFAULT_MODEL (PDict DEFAULT_CONFIG)) <> None
   /\ io_outcome offline_env [LiveConnect DEFAULT_MODEL (PDict DEFAULT_CONFIG)]
        (LiveConnect DEFAULT_MODEL (PDict (minimal_cfg DEFAULT_CONFIG)))
      = Some (Exn "RuntimeError" (lit "websocket closed"))
   /\ trace (snd (open_session offline_env DEFAULT_MODEL DEFAULT_CONFIG PNone idle))
      = [LiveConnect DEFAULT_MODEL (PDict DEFAULT_CONFIG);
         LiveConnect DEFAULT_MODEL (PDict (minimal_cfg DEFAULT_CONFIG))])
  \/ exists tr,
       trace (snd (open_session offline_env DEFAULT_MODEL DEFAULT_CONFIG PNone idle))
       = tr ++ [LiveClose].
Proof.
  apply (open_session_releases_upstream offline_env DEFAULT_MODEL DEFAULT_CONFIG
           PNone idle
           (snd (open_session offline_env DEFAULT_MODEL DEFAULT_CONFIG PNone idle))
           (Exn "RuntimeError" (lit "websocket closed")) eq_refl).
Defined.

(** ** Discovery and negotiation *)

Lemma assoc_dict_set (d : list (pystr * pyval)) (k k' : pystr) (v : pyval) :
  assoc k (dict_set d k' v) = if str_eqb k k' then Some v else assoc k d.
Proof.
  induction d as [| [k0 v0] d IH]; simpl; [reflexivity |].
  destruct (str_eqb k' k0) eqn:E0; simpl.
  - apply str_eqb_eq in E0. subst k0. destruct (str_eqb k k'); reflexivity.
  - rewrite IH. destruct (str_eqb k k0) eqn:E1; [| reflexivity].
    destruct (str_eqb k k') eqn:E2; [| reflexivity].
    apply str_eqb_eq in E1, E2. subst. rewrite str_eqb_refl in E0. discriminate.
Qed.



Lemma tool_names_of_spec (l : list pyval) (w : World) :
  tool_names_of l w = (Ok (map (fun t => getattr t "name" PNone) l), w)
  \/ exists e, tool_names_of l w = (Raise e, w).
Proof.
  induction l as [| t l IH]; simpl; [now left |].
  unfold bind, py_attr.
  destruct t; try (right; eexists; reflexivity).
  simpl. destruct (assoc (lit "name") attrs); [| right; eexists; reflexivity].
  unfold ret. destruct IH as [H | [e H]]; rewrite H; [now left | right; eauto].
Qed.



(** X22: a [config] message is consumed by the negotiation and never
    forwarded to the relay, and the model name it carries replaces the
    default one stripped of the white space around it, unless nothing is
    left of it, in which case the default model stays. *)
Theorem config_model_is_stripped (d cfg : list (pystr * pyval))
    (model name : pystr) (w : World) :
  assoc (lit "type") d = Some (pstr "config") ->
  assoc (lit "model") d = Some (PStr name) ->
  exists cfg',
    negotiate (PDict d) cfg model w
    = (Ok (cfg', if forallb isspace name then model else strip name, PNone), w).
Proof.
  intros Ht Hm. unfold negotiate, py_get, bind, ret.
  assert (Hd : truthy (PDict d) = true) by (destruct d; [discriminate | reflexivity]).
  rewrite Hd, Ht, Hm. simpl.
  eexists. f_equal. f_equal. f_equal.
  destruct (forallb isspace name) eqn:Hs.
  - apply strip_nil in Hs. now rewrite Hs.
  - destruct (strip name) eqn:E; [| reflexivity].
    apply strip_nil in E. congruence.
Qed.

Lemma config_model_is_stripped_witness :
  exists cfg',
    negotiate (PDict [item "type" (pstr "config"); item "model" (pstr " gemini-live ")])
      DEFAULT_CONFIG DEFAULT_MODEL idle
    = (Ok (cfg', lit "gemini-live", PNone), idle).
Proof.
  apply (config_model_is_stripped
           [item "type" (pstr "config"); item "model" (pstr " gemini-live ")]
           DEFAULT_CONFIG DEFAULT_MODEL (lit " gemini-live ") idle eq_refl eq_refl).
Defined.

(** X23: tool discovery is never fatal.  Whatever the gateway answers, the
    discovery makes one call to it, sends nothing to the client and lets
    the session go on; the tools it reports are none, when the gateway
    fails or its answer cannot be read, or the listed tools, each with its
    name. *)
Theorem discovery_failure_is_not_fatal (env : Env) (w : World) :
  exists tools,
    discover_tools env w
    = (Ok (Some (map (fun t => getattr t "name" PNone) tools, tools)),
       log_call McpListTools w)
    /\ (tools = []
        \/ exists r, list_tools_outcome env (trace w) = inl r
                     /\ getattr r "tools" (PList []) = PList tools).
Proof.
  unfold discover_tools, try_except, mcp_list_tools. unfold bind at 1.
  destruct (list_tools_outcome env (trace w)) as [r | e]; [| exists []; auto].
  unfold bind at 1. unfold iterate at 1.
  destruct (getattr r "tools" (PList [])) as [| | | | s | b | l | d |] eqn:G;
    simpl py_iter; try (exists []; auto; fail).
  - destruct s; [exists []; auto |]. exists []. auto.
  - destruct b; [exists []; auto |]. exists []. auto.
  - unfold ret at 1. unfold bind at 1. cbn [py_iter]. cbv beta iota.
    destruct (tool_names_of_spec l (log_call McpListTools w)) as [H | [e H]];
      rewrite H; [exists l | exists []];
      (split; [destruct l; reflexivity | eauto]).
  - destruct d as [| [k v] d]; exists []; auto.
Qed.

(** * The HTTP endpoints *)

Lemma assoc_absent (d : list (pystr * pyval)) (k : pystr) :
  ~ In k (map fst d) -> assoc k d = None.
Proof.
  induction d as [| [k0 v0] d IH]; simpl; intros H; [reflexivity |].
  destruct (str_eqb k k0) eqn:E.
  - apply str_eqb_eq in E. subst. tauto.
  - apply IH. tauto.
Qed.

Lemma assoc_fold_dict_set (payload : list (pystr * pyval)) :
  NoDup (map fst payload) ->
  forall (acc : list (pystr * pyval)) (k : pystr),
    assoc k (fold_left (fun d kv => dict_set d (fst kv) (snd kv)) payload acc)
    = match assoc k payload with
      | Some v => Some v
      | None => assoc k acc
      end.
Proof.
  induction payload as [| [k0 v0] payload IH]; intros Hn acc k; simpl;
    [reflexivity |].
  inversion Hn as [| ? ? Hnotin Hn']; subst.
  rewrite IH by assumption. rewrite assoc_dict_set.
  destruct (str_eqb k k0) eqn:E; [| reflexivity].
  apply str_eqb_eq in E. subst k0. now rewrite assoc_absent.
Qed.

(** X24: in an appointment update the body wins over the path.  The
    gateway is called once, with the tool [update_appointment]; the
    arguments hold every entry of the body, and their [id] is the one of
    the body when it has one and the identifier of the path only
    otherwise. *)
Theorem update_appointment_body_id_wins (env : Env) (appointment_id : pystr)
    (payload : list (pystr * pyval)) (w : World) :
  NoDup (map fst payload) ->
  let args := with_id appointment_id payload in
  trace (snd (mcp_update_appointment env appointment_id payload w))
  = trace w ++ [McpCallTool (pstr "update_appointment") (PDict args)]
  /\ assoc (lit "id") args
     = Some (match assoc (lit "id") payload with
             | Some v => v
             | None => PStr appointment_id
             end)
  /\ forall k, str_eqb k (lit "id") = false -> assoc k args = assoc k payload.
Proof.
  intros Hn args. split; [| split].
  - unfold mcp_update_appointment, bind, mcp_call_tool, lift. fold args.
    destruct (call_tool_outcome env (trace w) _ _); reflexivity.
  - unfold args, with_id. rewrite assoc_fold_dict_set by assumption.
    destruct (assoc (lit "id") payload); reflexivity.
  - intros k Hk. unfold args, with_id. rewrite assoc_fold_dict_set by assumption.
    destruct (assoc k payload); [reflexivity |]. simpl. now rewrite Hk.
Qed.

Lemma update_appointment_body_id_wins_witness :
  assoc (lit "id")
    (with_id (lit "7") [item "time" (pstr "10:00"); item "id" (pstr "8")])
  = Some (pstr "8").
Proof.
  assert (Hn : NoDup (map fst [item "time" (pstr "10:00"); item "id" (pstr "8")])).
  { simpl. repeat constructor; simpl; intuition discriminate. }
  exact (proj1 (proj2 (update_appointment_body_id_wins sample_env (lit "7")
                         [item "time" (pstr "10:00"); item "id" (pstr "8")] idle Hn))).
Defined.

(** X25: the note of [_truncate] counts what was cut.  For a limit that
    is not negative, a string within the limit is returned as it is, and a
    longer one is cut to its first [limit] characters, followed by a note
    whose number is the number of characters left out. *)
Theorem truncate_counts_what_it_cuts (s : pystr) (limit : Z) :
  (0 <= limit)%Z ->
  ((Z.of_nat (List.length s) <= limit)%Z -> _truncate s limit = s)
  /\ ((limit < Z.of_nat (List.length s))%Z ->
      _truncate s limit
      = firstn (Z.to_nat limit) s
        ++ lit "... <truncated "
        ++ Json.int_repr (Z.of_nat (List.length (skipn (Z.to_nat limit) s)))
        ++ lit " chars>")
  /\ firstn (Z.to_nat limit) (_truncate s limit) = firstn (Z.to_nat limit) s.
Proof.
  intros Hl. unfold _truncate, slice_to.
  destruct (Z.of_nat (List.length s) <=? limit)%Z eqn:E.
  - apply Z.leb_le in E. split; [reflexivity |]. split; [lia | reflexivity].
  - apply Z.leb_gt in E.
    assert (H0 : (0 <=? limit)%Z = true) by now apply Z.leb_le.
    rewrite H0. split; [lia |]. split.
    + intros _. rewrite length_skipn.
      replace (Z.of_nat (List.length s - Z.to_nat limit))
        with (Z.of_nat (List.length s) - limit)%Z by lia.
      reflexivity.
    + rewrite firstn_app, firstn_firstn, Nat.min_id.
      rewrite length_firstn.
      replace (Z.to_nat limit - Nat.min (Z.to_nat limit) (List.length s)) with 0
        by lia.
      simpl. now rewrite List.app_nil_r.
Qed.

Lemma truncate_counts_what_it_cuts_witness :
  _truncate (lit "hello world") 5 = lit "hello... <truncated 6 chars>".
Proof.
  assert (H0 : (0 <= 5)%Z) by lia.
  assert (H1 : (5 < Z.of_nat (List.length (lit "hello world")))%Z) by (simpl; lia).
  exact (proj1 (proj2 (truncate_counts_what_it_cuts (lit "hello world") 5 H0)) H1).
Defined.

(** * The audio codec *)

Lemma table_b2a_char (v : N) : base64_char (Byte.to_N (Base64.table_b2a v)) = true.
Proof.
  destruct (N.lt_ge_cases v 64) as [H | H].
  - revert v H. apply (all_below_spec 64). vm_compute. reflexivity.
  - unfold Base64.table_b2a.
    replace (v <? 26)%N with false by (symmetry; apply N.ltb_ge; lia).
    replace (v <? 52)%N with false by (symmetry; apply N.ltb_ge; lia).
    replace (v <? 62)%N with false by (symmetry; apply N.ltb_ge; lia).
    replace (v =? 62)%N with false by (symmetry; apply N.eqb_neq; lia).
    reflexivity.
Qed.

Lemma b2a_base64_chars (bin : list byte) :
  Forall (fun x => base64_char (Byte.to_N x) = true) (Base64.b2a_base64 bin).
Proof.
  induction bin as [| x | x y | x y z bin IH] using list_ind3;
    cbn [Base64.b2a_base64]; repeat (constructor; try apply table_b2a_char);
    try reflexivity; exact IH.
Qed.

Lemma b2a_base64_length (bin : list byte) :
  List.length (Base64.b2a_base64 bin) = 4 * ((List.length bin + 2) / 3).
Proof.
  induction bin as [| x | x y | x y z bin IH] using list_ind3;
    cbn [Base64.b2a_base64]; try reflexivity.
  cbn [List.length]. rewrite IH.
  replace (S (S (S (List.length bin))) + 2) with (List.length bin + 2 + 1 * 3) by lia.
  rewrite Nat.div_add by lia. lia.
Qed.

(** X26: the shape of what [b64e] returns.  Encoding never fails; the
    text has four characters for every three bytes, the last group padded,
    and holds nothing but letters, digits, [+], [/] and the pad [=]. *)
Theorem b64e_shape (b : list byte) :
  exists s,
    b64e b = Some s
    /\ List.length s = 4 * ((List.length b + 2) / 3)
    /\ forallb base64_char s = true.
Proof.
  exists (map Byte.to_N (Base64.b2a_base64 b)). split; [| split].
  - unfold b64e, Base64.b64encode. apply decode_ascii_spec, b2a_base64_ascii.
  - rewrite length_map. apply b2a_base64_length.
  - apply forallb_forall. intros c Hc. apply in_map_iff in Hc.
    destruct Hc as (x & <- & Hx).
    now apply (proj1 (Forall_forall _ _) (b2a_base64_chars b)).
Qed.

Lemma encode_ascii_app (s1 s2 : pystr) :
  Base64.encode_ascii (s1 ++ s2)
  = match Base64.encode_ascii s1, Base64.encode_ascii s2 with
    | Some b1, Some b2 => Some (b1 ++ b2)
    | _, _ => None
    end.
Proof.
  induction s1 as [| c s1 IH]; simpl.
  - destruct (Base64.encode_ascii s2); reflexivity.
  - destruct (c <? 128)%N; [| reflexivity]. rewrite IH.
    destruct (Base64.encode_ascii s1), (Base64.encode_ascii s2); reflexivity.
Qed.

Lemma foreign_char (c : N) :
  (c < 128)%N -> base64_char c = false ->
  Byte.eqb (Base64.byte_of_N c) Base64.BASE64_PAD = false
  /\ Base64.table_a2b (Base64.byte_of_N c) = None.
Proof.
  intros Hc Hf.
  assert (H : (base64_char c
               || (negb (Byte.eqb (Base64.byte_of_N c) Base64.BASE64_PAD)
                   && match Base64.table_a2b (Base64.byte_of_N c) with
                      | None => true
                      | Some _ => false
                      end)) = true).
  { revert c Hc Hf. intros c Hc _. revert c Hc.
    apply (all_below_spec 128). vm_compute. reflexivity. }
  rewrite Hf in H. simpl in H. apply andb_prop in H. destruct H as [H1 H2].
  split; [now apply negb_true_iff |].
  destruct (Base64.table_a2b (Base64.byte_of_N c)); [discriminate | reflexivity].
Qed.

Lemma a2b_loop_skips (x : byte) (l1 l2 : list byte) :
  Byte.eqb x Base64.BASE64_PAD = false ->
  Base64.table_a2b x = None ->
  forall (quad_pos : nat) (leftchar : N) (pads : nat) (bin_data : list byte),
    Base64.a2b_loop (l1 ++ x :: l2) quad_pos leftchar pads bin_data
    = Base64.a2b_loop (l1 ++ l2) quad_pos leftchar pads bin_data.
Proof.
  intros Hp Ht. induction l1 as [| h l1 IH]; intros quad_pos leftchar pads bin_data.
  - simpl. now rewrite Hp, Ht.
  - cbn [app Base64.a2b_loop].
    destruct (Byte.eqb h Base64.BASE64_PAD).
    + destruct (Nat.leb 2 quad_pos); [| apply IH].
      destruct (Nat.leb 4 (quad_pos + S pads)); [reflexivity | apply IH].
    + destruct (Base64.table_a2b h); [| apply IH].
      destruct quad_pos as [| [| [| quad_pos]]]; apply IH.
Qed.

(** X27: [b64d] is lenient.  An ASCII character that is neither of the
    base64 alphabet nor the pad, such as a line break or a blank, may stand
    anywhere in the text: the decoder skips it, and the text is accepted or
    refused, and decodes to the same bytes, with it as without it. *)
Theorem b64d_skips_foreign_characters (s1 s2 : pystr) (c : N) :
  (c < 128)%N ->
  base64_char c = false ->
  b64d (s1 ++ c :: s2) = b64d (s1 ++ s2).
Proof.
  intros Hc Hf. destruct (foreign_char c Hc Hf) as (Hp & Ht).
  unfold b64d. rewrite !encode_ascii_app. simpl.
  apply N.ltb_lt in Hc. rewrite Hc.
  destruct (Base64.encode_ascii s1) as [b1 |]; [| reflexivity].
  destruct (Base64.encode_ascii s2) as [b2 |]; [| reflexivity].
  unfold Base64.b64decode, Base64.a2b_base64. now apply a2b_loop_skips.
Qed.

Lemma b64d_skips_foreign_characters_witness :
  b64d (lit "aG" ++ 10%N :: lit "Vs") = b64d (lit "aG" ++ lit "Vs").
Proof.
  apply (b64d_skips_foreign_characters (lit "aG") (lit "Vs") 10%N);
    [lia | reflexivity].
Defined.

(** X28: [b64d] refuses what is not ASCII.  A text with one character
    outside ASCII is not decoded at all, whatever stands around the
    character: the call raises. *)
Theorem b64d_rejects_non_ascii (s : pystr) (c : N) :
  In c s -> (128 <= c)%N -> b64d s = None.
Proof.
  intros Hin Hc. unfold b64d.
  assert (H : Base64.encode_ascii s = None).
  { induction s as [| c0 s IH]; [destruct Hin |]. simpl.
    destruct (c0 <? 128)%N eqn:E; [| reflexivity].
    destruct Hin as [-> | Hin]; [apply N.ltb_lt in E; lia |].
    now rewrite IH. }
  now rewrite H.
Qed.

Lemma b64d_rejects_non_ascii_witness : b64d (lit "aGVs" ++ [233%N]) = None.
Proof.
  apply (b64d_rejects_non_ascii (lit "aGVs" ++ [233%N]) 233%N);
    [simpl; tauto | lia].
Defined.

(** * [GeminiLiveBridge]: the send side *)

(** X29: audio through the bridge.  On a started session the bytes sent
    upstream by [send_audio_b64] for a text that [b64e] produced are the
    bytes that were encoded, under the given mime type; for a text that
    [b64d] refuses the call raises before anything is sent, and so it does
    on a session that was not started. *)
Theorem bridge_audio_reaches_upstream (env : Env) (b : list byte)
    (data_b64 mime_type : pystr) (w : World) :
  b64e b = Some data_b64 ->
  snd (send_audio_b64 env true data_b64 mime_type w)
  = log_call (SendRealtimeInput "audio"
                (PDict [item "data" (PBytes b);
                        item "mime_type" (PStr mime_type)])) w
  /\ (forall bad, b64d bad = None ->
        exists e, send_audio_b64 env true bad mime_type w = (Raise e, w))
  /\ exists e, send_audio_b64 env false data_b64 mime_type w = (Raise e, w).
Proof.
  intros He. apply b64e_b64d in He. split; [| split].
  - unfold send_audio_b64, call_b64d, bind, perform. simpl. rewrite He. simpl.
    destruct (io_outcome env (trace w) _); reflexivity.
  - intros bad Hb. unfold send_audio_b64, call_b64d, bind. simpl. rewrite Hb.
    eexists. reflexivity.
  - eexists. reflexivity.
Qed.

Lemma bridge_audio_reaches_upstream_witness :
  snd (send_audio_b64 sample_env true (lit "aGVs") (lit "audio/pcm") idle)
  = {| out_q := [];
       trace := [SendRealtimeInput "audio"
                   (PDict [item "data" (PBytes ["h"%byte; "e"%byte; "l"%byte]);
                           item "mime_type" (pstr "audio/pcm")])] |}.
Proof.
  apply (bridge_audio_reaches_upstream sample_env ["h"%byte; "e"%byte; "l"%byte]
           (lit "aGVs") (lit "audio/pcm") idle eq_refl).
Defined.

(** * From the upstream service to the client *)

Lemma Forall_skipn_of (A : Type) (P : A -> Prop) (k : nat) :
  forall l : list A, Forall P l -> Forall P (skipn k l).
Proof.
  induction k as [| k IH]; intros l H; [exact H |].
  destruct l as [| x l]; [constructor |]. simpl. apply IH. now inversion H.
Qed.

Lemma gemini_to_client_sends (env : Env) :
  (forall tr encoded, io_outcome env tr (WsSendText encoded) = None) ->
  forall q tr,
    Forall deliverable q ->
    exists t,
      gemini_to_client env (List.length q) {| out_q := q; trace := tr |}
      = (Ok tt, {| out_q := []; trace := tr ++ t |})
      /\ map Json.json_loads (sent_frames t) = map Some q
      /\ delivered t = q.
Proof.
  intros Hio. induction q as [| evt q IH]; intros tr Hq.
  - exists []. simpl. rewrite List.app_nil_r. auto.
  - inversion Hq as [| ? ? (Hdict & Hkeys & enc & Henc) Hq']; subst.
    destruct (IH ((tr ++ [QGet evt]) ++ [WsSendText enc]) Hq')
      as (t & E & Hs & Hd).
    exists (QGet evt :: WsSendText enc :: t).
    split; [| split].
    + cbn [List.length gemini_to_client]. unfold bind at 1. unfold q_get.
      cbn [out_q trace]. unfold bind at 1. unfold send_json. rewrite Henc.
      destruct evt; try discriminate Hdict.
      unfold perform. cbn [trace]. rewrite Hio. unfold log_call. cbn [out_q trace].
      rewrite E. now rewrite <- !List.app_assoc.
    + simpl. rewrite Hs. f_equal. now apply json_round_trip.
    + simpl. now rewrite Hd.
Qed.

(** X30: what the receive loop leaves in the queue reaches the client.
    Starting from an empty queue and with a client that takes every frame,
    the delivery loop run after the receive loop of [main.py] empties the
    queue without raising: every event is taken in order and sent as one
    frame, and decoding the frames as JSON gives the events back. *)
Theorem relayed_events_reach_client (env : Env) (up : Upstream) (w : World) :
  (forall tr encoded, io_outcome env tr (WsSendText encoded) = None) ->
  out_q w = [] ->
  let w1 := snd (gemini_recv_loop env up w) in
  exists t,
    gemini_to_client env (List.length (out_q w1)) w1
    = (Ok tt, {| out_q := []; trace := trace w1 ++ t |})
    /\ map Json.json_loads (sent_frames t) = map Some (out_q w1)
    /\ delivered t = out_q w1.
Proof.
  intros Hio Hq w1.
  assert (HQ : (forall message, deliverable (ErrorEvent message))
               /\ (forall data, deliverable
                                  (AudioEvent data (lit "audio/pcm;rate=24000")))
               /\ (forall text, deliverable (TextEvent text))
               /\ deliverable Interrupted).
  { repeat split; try (eexists; reflexivity);
      repeat constructor; simpl; intuition discriminate. }
  destruct HQ as (H1 & H2 & H3 & H4).
  destruct (@gemini_recv_loop_puts deliverable H1 H2 H3 H4 env up w) as (t & E & F).
  destruct (fifo_gemini_recv_loop env up w) as (t' & k & E' & Q).
  fold w1 in E, E', Q. rewrite E in E'. apply app_inv_head in E'. subst t'.
  rewrite Hq in Q. simpl in Q.
  assert (Hall : Forall deliverable (out_q w1)).
  { rewrite Q. apply Forall_skipn_of. now apply puts_enqueued. }
  destruct w1 as [q1 tr1]. simpl in *.
  now apply gemini_to_client_sends.
Qed.

Lemma relayed_events_reach_client_witness :
  exists t,
    gemini_to_client sample_env 1
      (snd (gemini_recv_loop sample_env
              {| responses :=
                   [PObj [item "server_content"
                            (PObj [item "model_turn"
                                     (PObj [item "parts"
                                              (PList [PObj [item "text" (pstr "hi")]])])])]];
                 fault := None |} idle))
    = (Ok tt, {| out_q := []; trace := [QPut (TextEvent (lit "hi"))] ++ t |})
    /\ map Json.json_loads (sent_frames t) = map Some [TextEvent (lit "hi")]
    /\ delivered t = [TextEvent (lit "hi")].
Proof.
  apply (relayed_events_reach_client sample_env
           {| responses :=
                [PObj [item "server_content"
                         (PObj [item "model_turn"
                                  (PObj [item "parts"
                                           (PList [PObj [item "text" (pstr "hi")]])])])]];
              fault := None |} idle (fun _ _ => eq_refl) eq_refl).
Defined.
